(** * terminal_weather: rain and lightning animation

    A shallow embedding of [terminal_weather.c] and the properties of its
    frame loop, lightning bolt engine and raindrop simulator.

    - C [int] values are integers of [Z]; [/] and [%] are C's truncating
      [Z.quot] and [Z.rem], and a zero divisor is an error of the model.
    - C [double] values are IEEE 754 binary64 numbers: [spec_float] with
      precision 53 and maximal exponent 1024, computed with the
      operations of [SpecFloat] (round to nearest, ties to even).
    - [now_sec()] and [rand()] read the environment: the world carries one
      tape per source and a position on it.
    - The growable arrays ([RainVec], [BoltVec], a bolt's [segs]) are the
      lists of their initialised cells; [free] is recorded in the world. *)

From Stdlib Require Import String.
From Stdlib Require Import ZArith List Bool Lia Ascii.
From Stdlib Require Import Floats.SpecFloat.
Import ListNotations.
Open Scope Z_scope.

Set Implicit Arguments.

(** ** C doubles *)

Module Dbl.

Definition prec : Z := 53.
Definition emax : Z := 1024.

Definition double : Type := spec_float.

Definition add : double -> double -> double := SFadd prec emax.
Definition sub : double -> double -> double := SFsub prec emax.
Definition mul : double -> double -> double := SFmul prec emax.
Definition div : double -> double -> double := SFdiv prec emax.

(** [a < b], [a <= b], [a > b], [a >= b] of C; all false on a NaN. *)
Definition lt (a b : double) : bool := SFltb a b.
Definition le (a b : double) : bool := SFleb a b.
Definition gt (a b : double) : bool := SFltb b a.
Definition ge (a b : double) : bool := SFleb b a.

(** [(double)z] for an integer [z]. *)
Definition of_int (z : Z) : double := binary_normalize prec emax z 0 false.

(** The decimal literal [n/d] (as [0.015] is [15/1000]): the binary64
    number nearest to the quotient of two exactly representable
    integers. *)
Definition lit (n d : Z) : double := div (of_int n) (of_int d).

Definition zero : double := S754_zero false.

Definition is_nan (d : double) : bool :=
  match d with S754_nan => true | _ => false end.

Definition is_finite (d : double) : bool :=
  match d with S754_zero _ | S754_finite _ _ _ => true | _ => false end.

(** A genuine binary64 value: a finite one has a canonical mantissa. *)
Definition valid (d : double) : bool := valid_binary prec emax d.

(** The integer part, rounded toward zero, of a finite double. *)
Definition trunc (d : double) : option Z :=
  match d with
  | S754_zero _ => Some 0
  | S754_finite s m e => Some (cond_Zopp s (Z.shiftl (Zpos m) e))
  | _ => None
  end.

(** [(T)d] for a signed integer type [T] of [bits] bits.  C leaves the
    conversion of a NaN, an infinity or a value out of range undefined;
    x86-64's [cvttsd2si], which the program's platform uses, yields the
    smallest integer of the type. *)
Definition to_sint (bits : Z) (d : double) : Z :=
  let lo := - 2 ^ (bits - 1) in
  match trunc d with
  | Some z => if (lo <=? z) && (z <? 2 ^ (bits - 1)) then z else lo
  | None => lo
  end.

Definition to_int : double -> Z := to_sint 32.
Definition to_long : double -> Z := to_sint 64.

End Dbl.

Definition double : Type := Dbl.double.

(** ** Constants of the program *)

Definition UPDATE_INTERVAL : double := Dbl.lit 15 1000.

Definition LIGHTNING_CHARS : list ascii := ["*"; "+"; "#"]%char.
Definition LIGHTNING_GROWTH_DELAY : double := Dbl.lit 2 1000.
Definition LIGHTNING_MAX_BRANCHES : Z := 2.
Definition LIGHTNING_BRANCH_CHANCE : double := Dbl.lit 3 10.
Definition FORK_CHANCE : double := Dbl.lit 15 100.
Definition FORK_HORIZONTAL_SPREAD : Z := 3.
Definition SEGMENT_LIFESPAN : double := Dbl.lit 8 10.
Definition LIGHTNING_CHANCE : double := Dbl.lit 5 1000.

(** [RAND_MAX] of the C library (glibc). *)
Definition RAND_MAX : Z := 2147483647.

(** ** Data *)

Record Raindrop := mkRaindrop {
  rd_x : Z;
  rd_y : double;
  rd_speed : double;
  rd_ch : ascii
}.

Record Segment := mkSegment {
  sg_y : Z;
  sg_x : Z;
  birth : double
}.

(** [segs] holds the [seg_count] initialised cells of the C array. *)
Record Bolt := mkBolt {
  target_len : Z;
  growing : bool;
  last_growth : double;
  max_y : Z;
  max_x : Z;
  segs : list Segment
}.

Definition seg_count (b : Bolt) : Z := Z.of_nat (length (segs b)).

Record timespec := mkTimespec { tv_sec : Z; tv_nsec : Z }.

(** What the program asks of the terminal and of the standard streams. *)
Inductive TermOp :=
| OpInitscr
| OpEndwin
| OpClear
| OpErase
| OpRefresh
| OpDoupdate
| OpMvaddch (y x : Z) (ch : Z)
| OpStderr (msg : String.string).

(** ** The world: clock, random numbers, and recorded effects *)

Record World := mkWorld {
  clock : nat -> double;       (* successive readings of [now_sec] *)
  clock_pos : nat;
  rng : nat -> Z;              (* successive results of [rand] *)
  rng_pos : nat;
  freed : list (list Segment); (* segment arrays given to [free] *)
  slept : list timespec;       (* requests given to [nanosleep] *)
  screen : list TermOp         (* terminal and stream operations *)
}.

(** Computations read and change the world and may fail (undefined
    behaviour of the C program: a zero divisor, a read out of bounds). *)
Definition M (A : Type) : Type := World -> option (A * World).

Definition ret {A} (a : A) : M A := fun w => Some (a, w).

Definition bind {A B} (c : M A) (k : A -> M B) : M B :=
  fun w => match c w with
           | Some (a, w') => k a w'
           | None => None
           end.

Definition fail {A} : M A := fun _ => None.

Declare Scope m_scope.
Delimit Scope m_scope with M.
Notation "x <- c ;; k" := (bind c (fun x => k))
  (at level 61, c at next level, right associativity) : m_scope.
Notation "' p <- c ;; k" := (bind c (fun x => let 'p := x in k))
  (at level 61, p pattern, c at next level, right associativity) : m_scope.
Notation "c ;;; k" := (bind c (fun _ => k))
  (at level 61, right associativity) : m_scope.
Open Scope m_scope.

Definition now_sec : M double :=
  fun w => Some (clock w (clock_pos w),
                 mkWorld (clock w) (S (clock_pos w)) (rng w) (rng_pos w)
                         (freed w) (slept w) (screen w)).

Definition rand : M Z :=
  fun w => Some (rng w (rng_pos w),
                 mkWorld (clock w) (clock_pos w) (rng w) (S (rng_pos w))
                         (freed w) (slept w) (screen w)).

Definition free (p : list Segment) : M unit :=
  fun w => Some (tt, mkWorld (clock w) (clock_pos w) (rng w) (rng_pos w)
                             (freed w ++ [p]) (slept w) (screen w)).

Definition nanosleep (req : timespec) : M unit :=
  fun w => Some (tt, mkWorld (clock w) (clock_pos w) (rng w) (rng_pos w)
                             (freed w) (slept w ++ [req]) (screen w)).

Definition term (op : TermOp) : M unit :=
  fun w => Some (tt, mkWorld (clock w) (clock_pos w) (rng w) (rng_pos w)
                             (freed w) (slept w) (screen w ++ [op])).

(** [a % b] of C. *)
Definition c_rem (a b : Z) : M Z :=
  if b =? 0 then fail else ret (Z.rem a b).

(** [(double)rand()/RAND_MAX] *)
Definition rand_unit : M double :=
  r <- rand ;; ret (Dbl.div (Dbl.of_int r) (Dbl.of_int RAND_MAX)).

(** ** Timing helpers *)

(** [sleep_sec]: [time_t] and [long] are 64-bit. *)
Definition sleep_sec (s : double) : M unit :=
  if Dbl.le s Dbl.zero then ret tt
  else
    let sec := Dbl.to_long s in
    let nsec := Dbl.to_long (Dbl.mul (Dbl.sub s (Dbl.of_int sec))
                                     (Dbl.of_int 1000000000)) in
    nanosleep (mkTimespec sec nsec).

(** ** Lightning bolt *)

Definition seg_push (b : Bolt) (s : Segment) : Bolt :=
  mkBolt (target_len b) (growing b) (last_growth b) (max_y b) (max_x b)
         (segs b ++ [s]).

Definition set_last_growth (b : Bolt) (t : double) : Bolt :=
  mkBolt (target_len b) (growing b) t (max_y b) (max_x b) (segs b).

Definition set_growing (b : Bolt) (g : bool) : Bolt :=
  mkBolt (target_len b) g (last_growth b) (max_y b) (max_x b) (segs b).

(** [b->segs[i]]; a read outside the initialised cells is an error. *)
Definition seg_at (b : Bolt) (i : Z) : M Segment :=
  if i <? 0 then fail
  else match nth_error (segs b) (Z.to_nat i) with
       | Some s => ret s
       | None => fail
       end.

Definition bolt_create (start_row start_col max_y max_x : Z) : M Bolt :=
  let min_len := Z.quot max_y 2 in
  let min_len := if min_len <? 2 then 2 else min_len in
  let max_len := max_y - 2 in
  let max_len := if max_len <? min_len then min_len + 1 else max_len in
  r <- rand ;;
  k <- c_rem r (max_len - min_len + 1) ;;
  t0 <- now_sec ;;
  t1 <- now_sec ;;
  ret (seg_push (mkBolt (k + min_len) true t0 max_y max_x [])
                (mkSegment start_row start_col t1)).

(** The column and the row of a new segment, clamped to the bolt's
    bounds as the two [if]s of the source do, in their order. *)
Definition clamp_x (b : Bolt) (nx : Z) : Z :=
  let nx := if nx <? 0 then 0 else nx in
  if nx >=? max_x b then max_x b - 1 else nx.

Definition next_y (b : Bolt) (last : Segment) : Z :=
  let ny := sg_y last + 1 in
  if ny >=? max_y b then max_y b - 1 else ny.

(** The path a pushed segment belongs to: the first segment of a growth
    step ([i == 0]) is the primary one, the further iterations of the
    loop are extra branches, and the side segment is a fork. *)
Inductive GrowthPath := Primary | Branch | Fork.

Definition Push : Type := GrowthPath * Segment.

(** The loop [for (i = 0; i < branches; ++i)], with [n] iterations left. *)
Fixpoint grow_branches (n : nat) (i : Z) (last : Segment) (t : double)
    (b : Bolt) (current_x primary_next_x : Z) (added : bool)
    (log : list Push) : M (Bolt * Z * bool * list Push) :=
  match n with
  | O => ret (b, primary_next_x, added, log)
  | S n' =>
      r <- rand ;;
      let offset := Z.rem r 5 - 2 in
      let nx := clamp_x b (current_x + offset) in
      let ny := next_y b last in
      let s := mkSegment ny nx t in
      let b := seg_push b s in
      let primary_next_x := if i =? 0 then nx else primary_next_x in
      let path := if i =? 0 then Primary else Branch in
      grow_branches n' (i + 1) last t b nx primary_next_x true
                    (log ++ [(path, s)])
  end.

(** The growth block of [bolt_update] (the body of its first [if]). *)
Definition bolt_grow (b : Bolt) (t : double) : M (Bolt * list Push) :=
  let b := set_last_growth b t in
  last <- seg_at b (seg_count b - 1) ;;
  '(b, added, log) <-
    (if (seg_count b <? target_len b) && (sg_y last <? max_y b - 1) then
       u <- rand_unit ;;
       branches <-
         (if Dbl.lt u LIGHTNING_BRANCH_CHANCE then
            r <- rand ;; ret (Z.rem r (LIGHTNING_MAX_BRANCHES + 1) + 1)
          else ret 1) ;;
       '(b, primary_next_x, added, log) <-
         grow_branches (Z.to_nat branches) 0 last t b (sg_x last) (sg_x last)
                       false [] ;;
       u <- rand_unit ;;
       if Dbl.lt u FORK_CHANCE then
         r <- rand ;;
         let off := Z.rem r (2 * FORK_HORIZONTAL_SPREAD + 1)
                    - FORK_HORIZONTAL_SPREAD in
         off <- (if off =? 0 then
                   r <- rand ;; ret (if Z.rem r 2 =? 0 then 1 else -1)
                 else ret off) ;;
         let fx := clamp_x b (sg_x last + off) in
         let fy := next_y b last in
         if fx =? primary_next_x then ret (b, added, log)
         else
           let s := mkSegment fy fx t in
           ret (seg_push b s, true, log ++ [(Fork, s)])
       else ret (b, added, log)
     else ret (b, false, [])) ;;
  ret (if negb added || (seg_count b >=? target_len b)
          || (sg_y last >=? max_y b - 1)
       then set_growing b false else b,
       log).

(** The liveness loop: one reading of the clock per segment examined,
    leaving at the first segment that has not expired. *)
Fixpoint any_alive (l : list Segment) : M bool :=
  match l with
  | [] => ret false
  | s :: l' =>
      now <- now_sec ;;
      if Dbl.le (Dbl.sub now (birth s)) SEGMENT_LIFESPAN then ret true
      else any_alive l'
  end.

(** [bolt_update], with the segments it pushed and their paths. *)
Definition bolt_update_log (b : Bolt) : M (Bolt * bool * list Push) :=
  t <- now_sec ;;
  '(b, log) <-
    (if growing b && Dbl.ge (Dbl.sub t (last_growth b)) LIGHTNING_GROWTH_DELAY
     then bolt_grow b t
     else ret (b, [])) ;;
  alive <- any_alive (segs b) ;;
  ret (b, alive, log).

Definition bolt_update (b : Bolt) : M (Bolt * bool) :=
  '(b, alive, _) <- bolt_update_log b ;; ret (b, alive).

(** [ch | attr] on [chtype]. *)
Definition chtype_or (c : ascii) (attr : Z) : Z :=
  Z.lor (Z.of_nat (nat_of_ascii c)) attr.

(** The index into [LIGHTNING_CHARS] for a normalised age, with the two
    clamps of the source ([max_idx] is 2). *)
Definition fade_index (norm : double) : Z :=
  let max_idx := 2 in
  let char_idx :=
    if Dbl.lt norm (Dbl.lit 33 100) then 2
    else if Dbl.lt norm (Dbl.lit 66 100) then 1
    else 0 in
  let char_idx := if char_idx <? 0 then 0 else char_idx in
  if char_idx >? max_idx then max_idx else char_idx.

Definition lightning_char (idx : Z) : ascii :=
  nth (Z.to_nat idx) LIGHTNING_CHARS zero.

(** The body of the loop of [bolt_draw] for one segment. *)
Definition draw_segment (g_rows g_cols : Z) (t : double) (l_attr : Z)
    (s : Segment) : M unit :=
  let age := Dbl.sub t (birth s) in
  if Dbl.gt age SEGMENT_LIFESPAN then ret tt
  else
    let norm := Dbl.div age SEGMENT_LIFESPAN in
    let char_idx := fade_index norm in
    let y := sg_y s in
    let x := sg_x s in
    if (y >=? 0) && (y <? g_rows) && (x >=? 0) && (x <? g_cols) then
      term (OpMvaddch y x (chtype_or (lightning_char char_idx) l_attr))
    else ret tt.

Fixpoint draw_segments (g_rows g_cols : Z) (t : double) (l_attr : Z)
    (l : list Segment) : M unit :=
  match l with
  | [] => ret tt
  | s :: l' =>
      draw_segment g_rows g_cols t l_attr s ;;;
      draw_segments g_rows g_cols t l_attr l'
  end.

Definition bolt_draw (g_rows g_cols : Z) (b : Bolt) (l_attr : Z) : M unit :=
  t <- now_sec ;;
  draw_segments g_rows g_cols t l_attr (segs b).

(** ** In-place compaction of an array

    The two loops of [main] that step the bolts and the raindrops have one
    shape: cell [i] is updated in place, and copied down to cell [w] when
    it stays; the array is then cut to its first [w] cells.

    [for (i = 0; i < n; ++i) { if (visit(&v[i])) v[w++] = v[i];
                               else discard(v[i]); }  n = w;] *)

Fixpoint list_set {A} (i : nat) (a : A) (v : list A) : list A :=
  match v, i with
  | [], _ => []
  | _ :: v', O => a :: v'
  | x :: v', S i' => x :: list_set i' a v'
  end.

Section Compact.
Variable A : Type.
Variable visit : A -> M (A * bool).
Variable discard : A -> M unit.

Fixpoint compact_loop (fuel i w : nat) (v : list A) : M (list A * nat) :=
  match fuel with
  | O => ret (v, w)
  | S fuel' =>
      match nth_error v i with
      | None => fail
      | Some a =>
          '(a', keep) <- visit a ;;
          let v := list_set i a' v in
          if keep then compact_loop fuel' (S i) (S w) (list_set w a' v)
          else discard a' ;;; compact_loop fuel' (S i) w v
      end
  end.

Definition compact (v : list A) : M (list A) :=
  '(v', w) <- compact_loop (length v) 0 0 v ;; ret (firstn w v').

(** The same pass written on the list: the cells that stay, updated, in
    their order. *)
Fixpoint sweep (v : list A) : M (list A) :=
  match v with
  | [] => ret []
  | a :: v' =>
      '(a', keep) <- visit a ;;
      if keep then r <- sweep v' ;; ret (a' :: r)
      else discard a' ;;; sweep v'
  end.
End Compact.

(** ** The frame loop of [main] *)

(** Attributes of ncurses. *)
Module Curses.
Definition A_BOLD : Z := 2 ^ 21.
Definition A_DIM : Z := 2 ^ 20.
Definition ERR : Z := -1.
End Curses.

(** The globals [g_rows], [g_cols], [g_resized] and the locals of [main]
    that live across frames. *)
Record State := mkState {
  g_rows : Z;
  g_cols : Z;
  g_resized : bool;
  rain : list Raindrop;
  bolts : list Bolt;
  thunder : bool;
  last : double;
  rain_attr : Z;
  light_attr : Z
}.

Definition set_bolts (s : State) (bs : list Bolt) : State :=
  mkState (g_rows s) (g_cols s) (g_resized s) (rain s) bs (thunder s)
          (last s) (rain_attr s) (light_attr s).

Definition set_rain (s : State) (r : list Raindrop) : State :=
  mkState (g_rows s) (g_cols s) (g_resized s) r (bolts s) (thunder s)
          (last s) (rain_attr s) (light_attr s).

Definition set_thunder (s : State) (t : bool) : State :=
  mkState (g_rows s) (g_cols s) (g_resized s) (rain s) (bolts s) t
          (last s) (rain_attr s) (light_attr s).

Definition set_last (s : State) (t : double) : State :=
  mkState (g_rows s) (g_cols s) (g_resized s) (rain s) (bolts s) (thunder s)
          t (rain_attr s) (light_attr s).

(** The SIGWINCH handler. *)
Definition on_winch (s : State) : State :=
  mkState (g_rows s) (g_cols s) true (rain s) (bolts s) (thunder s)
          (last s) (rain_attr s) (light_attr s).

Fixpoint free_all (l : list Bolt) : M unit :=
  match l with
  | [] => ret tt
  | b :: l' => free (segs b) ;;; free_all l'
  end.

(** [if (g_resized) { ... }]; [dims] is what [getmaxyx] reports. *)
Definition resize_step (dims : Z * Z) (s : State) : M State :=
  if g_resized s then
    term OpEndwin ;;;
    term OpRefresh ;;;
    term OpClear ;;;
    free_all (bolts s) ;;;
    ret (mkState (fst dims) (snd dims) false [] [] (thunder s) (last s)
                 (rain_attr s) (light_attr s))
  else ret s.

(** ['q'], ['Q'] or ESC. *)
Definition is_quit (ch : Z) : bool := (ch =? 113) || (ch =? 81) || (ch =? 27).

(** ['t'] or ['T']. *)
Definition is_toggle (ch : Z) : bool := (ch =? 116) || (ch =? 84).

Definition toggle_step (ch : Z) (s : State) : M State :=
  if is_toggle ch then
    term OpClear ;;; ret (set_thunder s (negb (thunder s)))
  else ret s.

Definition pace_step (s : State) : M State :=
  now <- now_sec ;;
  let dt := Dbl.sub now (last s) in
  (if Dbl.lt dt UPDATE_INTERVAL then sleep_sec (Dbl.sub UPDATE_INTERVAL dt)
   else ret tt) ;;;
  t <- now_sec ;;
  ret (set_last s t).

Definition bolt_count (s : State) : Z := Z.of_nat (length (bolts s)).

Definition spawn_bolt_step (s : State) : M State :=
  fire <- (if thunder s && (bolt_count s <? 3) then
             u <- rand_unit ;; ret (Dbl.lt u LIGHTNING_CHANCE)
           else ret false) ;;
  if fire then
    r <- rand ;;
    k <- c_rem r (Z.quot (g_cols s) 2) ;;
    let start_col := Z.quot (g_cols s) 4 + k in
    r <- rand ;;
    start_row <- c_rem r (if g_rows s >? 5 then Z.quot (g_rows s) 5
                          else g_rows s) ;;
    b <- bolt_create start_row start_col (g_rows s) (g_cols s) ;;
    ret (set_bolts s (bolts s ++ [b]))
  else ret s.

Definition step_bolts (s : State) : M State :=
  bs <- compact bolt_update (fun b => free (segs b)) (bolts s) ;;
  ret (set_bolts s bs).

Definition ra_chars : list ascii := ["|"; "."; "`"]%char.

(** [arr[i]] for a fixed array. *)
Definition arr_at {A} (arr : list A) (i : Z) : M A :=
  if i <? 0 then fail
  else match nth_error arr (Z.to_nat i) with
       | Some a => ret a
       | None => fail
       end.

Fixpoint spawn_drops (n : nat) (g_cols : Z) (min_speed max_speed : double)
    (rain : list Raindrop) : M (list Raindrop) :=
  match n with
  | O => ret rain
  | S n' =>
      r <- rand ;;
      x <- c_rem r (if g_cols >? 1 then g_cols else 1) ;;
      u <- rand_unit ;;
      let speed := Dbl.add min_speed (Dbl.mul u (Dbl.sub max_speed min_speed)) in
      r <- rand ;;
      ch <- arr_at ra_chars (Z.rem r 3) ;;
      spawn_drops n' g_cols min_speed max_speed
                  (rain ++ [mkRaindrop x Dbl.zero speed ch])
  end.

Definition spawn_rain_step (s : State) : M State :=
  let gen_chance := if thunder s then Dbl.lit 5 10 else Dbl.lit 3 10 in
  let max_new := if thunder s then Z.quot (g_cols s) 8
                 else Z.quot (g_cols s) 15 in
  let min_speed := Dbl.lit 3 10 in
  let max_speed := if thunder s then Dbl.of_int 1 else Dbl.lit 6 10 in
  u <- rand_unit ;;
  if Dbl.lt u gen_chance then
    k <- (if max_new >? 1 then r <- rand ;; c_rem r max_new else ret 0) ;;
    let n_new := 1 + k in
    r <- spawn_drops (Z.to_nat n_new) (g_cols s) min_speed max_speed (rain s) ;;
    ret (set_rain s r)
  else ret s.

(** [rain.v[i].y += rain.v[i].speed] *)
Definition advance (d : Raindrop) : Raindrop :=
  mkRaindrop (rd_x d) (Dbl.add (rd_y d) (rd_speed d)) (rd_speed d) (rd_ch d).

(** [(int)rain.v[i].y < g_rows] *)
Definition on_screen (g_rows : Z) (d : Raindrop) : bool :=
  Dbl.to_int (rd_y d) <? g_rows.

Definition step_rain (s : State) : M State :=
  r <- compact (fun d => let d := advance d in ret (d, on_screen (g_rows s) d))
               (fun _ => ret tt) (rain s) ;;
  ret (set_rain s r).

Fixpoint draw_bolts (g_rows g_cols : Z) (l_attr : Z) (l : list Bolt) : M unit :=
  match l with
  | [] => ret tt
  | b :: l' => bolt_draw g_rows g_cols b l_attr ;;;
               draw_bolts g_rows g_cols l_attr l'
  end.

Definition draw_drop (s : State) (d : Raindrop) : M unit :=
  let y := Dbl.to_int (rd_y d) in
  if (y >=? 0) && (y <? g_rows s) && (rd_x d >=? 0) && (rd_x d <? g_cols s)
  then
    let attr := rain_attr s in
    let attr := if thunder s then Z.lor attr Curses.A_BOLD
                else if Dbl.lt (rd_speed d) (Dbl.lit 8 10)
                     then Z.lor attr Curses.A_DIM
                     else attr in
    term (OpMvaddch y (rd_x d) (chtype_or (rd_ch d) attr))
  else ret tt.

Fixpoint draw_rain (s : State) (l : list Raindrop) : M unit :=
  match l with
  | [] => ret tt
  | d :: l' => draw_drop s d ;;; draw_rain s l'
  end.

Definition render (s : State) : M unit :=
  term OpErase ;;;
  draw_bolts (g_rows s) (g_cols s) (light_attr s) (bolts s) ;;;
  draw_rain s (rain s) ;;;
  term OpDoupdate ;;;
  term OpRefresh.

(** One iteration of [while (1)]: [dims] is what [getmaxyx] would report
    and [ch] what [getch] returns.  The boolean tells whether the loop
    goes on ([false] is the [break]). *)
Definition frame (dims : Z * Z) (ch : Z) (s : State) : M (State * bool) :=
  s <- resize_step dims s ;;
  if is_quit ch then ret (s, false)
  else
    s <- toggle_step ch s ;;
    s <- pace_step s ;;
    s <- spawn_bolt_step s ;;
    s <- step_bolts s ;;
    s <- spawn_rain_step s ;;
    s <- step_rain s ;;
    render s ;;;
    ret (s, true).

(** What happens to the running program: a window-size signal, or the
    next iteration of the loop. *)
Inductive Event :=
| Winch
| Frame (dims : Z * Z) (ch : Z).

(** The loop over the events at hand; the boolean is [true] when they are
    used up and the loop is still running, [false] when it was left. *)
Fixpoint main_loop (evs : list Event) (s : State) : M (State * bool) :=
  match evs with
  | [] => ret (s, true)
  | Winch :: evs' => main_loop evs' (on_winch s)
  | Frame dims ch :: evs' =>
      '(s', running) <- frame dims ch s ;;
      if running then main_loop evs' s' else ret (s', false)
  end.

(** What [main] sees of its environment at startup. *)
Record Env := mkEnv {
  stdout_isatty : bool;
  env_TERM : option String.string
}.

Definition tty_error : String.string :=
  String.append "Error: This program requires a real TTY."%string
                (String.String (ascii_of_nat 10) String.EmptyString).

Definition initial_state (dims : Z * Z) (rain_attr light_attr : Z)
    (now : double) : State :=
  mkState (fst dims) (snd dims) false [] [] false now rain_attr light_attr.


(** ** The specification's wording, to compare the code with

    The fade glyph of a segment as the specification words it: a segment
    older than 0.8 seconds has none; otherwise the normalised age
    [age/0.8] selects ['#'] below 0.33, ['+'] below 0.66, and ['*']
    otherwise. *)
Definition spec_fade_glyph (age : double) : option ascii :=
  if Dbl.gt age (Dbl.lit 8 10) then None
  else
    let norm := Dbl.div age (Dbl.lit 8 10) in
    if Dbl.lt norm (Dbl.lit 33 100) then Some "#"%char
    else if Dbl.lt norm (Dbl.lit 66 100) then Some "+"%char
    else Some "*"%char.

(** The cell [bolt_draw] writes for a segment of a given age: none when
    the segment has no glyph or lies outside the screen. *)
Definition spec_segment_cell (g_rows g_cols : Z) (l_attr : Z) (age : double)
    (s : Segment) : list TermOp :=
  match spec_fade_glyph age with
  | Some c =>
      if (0 <=? sg_y s) && (sg_y s <? g_rows)
         && (0 <=? sg_x s) && (sg_x s <? g_cols)
      then [OpMvaddch (sg_y s) (sg_x s) (chtype_or c l_attr)]
      else []
  | None => []
  end.

(** The world after some terminal operations were added to it. *)
Definition add_screen (wld : World) (ops : list TermOp) : World :=
  mkWorld (clock wld) (clock_pos wld) (rng wld) (rng_pos wld)
          (freed wld) (slept wld) (screen wld ++ ops).

(** The bounds of [target_len] as the specification words them:
    [[max(2, max_rows/2), max(min_len+1, max_rows-2)]]. *)
Definition spec_min_len (max_rows : Z) : Z := Z.max 2 (Z.quot max_rows 2).

Definition spec_max_len (max_rows : Z) : Z :=
  Z.max (spec_min_len max_rows + 1) (max_rows - 2).

(** The upper bound [bolt_create] computes: [max_rows-2], replaced by
    [min_len+1] only when it is below [min_len]. *)
Definition code_max_len (max_rows : Z) : Z :=
  if max_rows - 2 <? spec_min_len max_rows then spec_min_len max_rows + 1
  else max_rows - 2.

(** [rand] returns a value between 0 and [RAND_MAX]. *)
Definition rand_ok (wld : World) : Prop :=
  forall n, 0 <= rng wld n <= RAND_MAX.

(** A world to run examples in: the clock and the random numbers are
    given, nothing has happened yet. *)
Definition world_of (clk : nat -> double) (rnd : nat -> Z) : World :=
  mkWorld clk 0 rnd 0 [] [] [].

(** The world with its two tape positions moved. *)
Definition reposition (wld : World) (c r : nat) : World :=
  mkWorld (clock wld) c (rng wld) r (freed wld) (slept wld) (screen wld).

(** The world read further: the tapes and the recorded effects are the
    same, the positions have not gone back. *)
Definition read_on (wld wld' : World) : Prop :=
  exists c r, wld' = reposition wld c r
              /\ (clock_pos wld <= c)%nat /\ (rng_pos wld <= r)%nat.

Definition is_primary (p : Push) : bool :=
  match fst p with Primary => true | _ => false end.

(** The number of segments a list of pushes gives to the trunk. *)
Definition count_primary (l : list Push) : nat :=
  length (filter is_primary l).

(** A segment has expired at a reading of the clock when its age is
    strictly greater than [SEGMENT_LIFESPAN]. *)
Definition expired (now : double) (sg : Segment) : bool :=
  Dbl.gt (Dbl.sub now (birth sg)) SEGMENT_LIFESPAN.

(** Every segment of [l] has expired at the reading the liveness loop
    takes for it: the loop started at position [k] of the clock reads
    position [k + i] for the segment of index [i]. *)
Definition all_expired (clk : nat -> double) (k : nat) (l : list Segment)
  : Prop :=
  forall i sg, nth_error l i = Some sg -> expired (clk (k + i)%nat) sg = true.

(** The clock gives numbers: no NaN, no infinity. *)
Definition clock_ok (wld : World) : Prop :=
  forall n, Dbl.is_finite (clock wld n) = true.

(** A bolt as the store holds it: at least one segment, born at a time
    the clock gave. *)
Definition bolt_ok (b : Bolt) : Prop :=
  segs b <> []
  /\ Forall (fun sg => Dbl.is_finite (birth sg) = true) (segs b).

(** [b'] is [b] after an update that pushed [log]: bounds and target
    length are kept, the pushed segments come after the old ones, at most
    one of them is on the primary path, and segments are pushed only to a
    growing bolt that has fewer segments than its target length. *)
Definition grows_to (b b' : Bolt) (log : list Push) : Prop :=
  target_len b' = target_len b
  /\ max_y b' = max_y b /\ max_x b' = max_x b
  /\ segs b' = segs b ++ map snd log
  /\ (count_primary log <= 1)%nat
  /\ (log <> [] -> growing b = true /\ seg_count b < target_len b)
  /\ (growing b' = true -> growing b = true).

(** One pass of the frame loop over the bolt store, bolt by bolt: a bolt
    whose update finds a segment that has not expired stays, updated;
    a bolt whose segments have all expired at its liveness check leaves
    the store, and its segment array is freed. *)
Inductive bolts_pass : World -> list Bolt -> list Bolt -> World -> Prop :=
| pass_nil wld : bolts_pass wld [] [] wld
| pass_keep wld b bs b' wld1 bs' wld2 :
    bolt_update b wld = Some ((b', true), wld1) ->
    ~ all_expired (clock wld) (S (clock_pos wld)) (segs b') ->
    bolts_pass wld1 bs bs' wld2 ->
    bolts_pass wld (b :: bs) (b' :: bs') wld2
| pass_remove wld b bs b' wld1 wld1' bs' wld2 :
    bolt_update b wld = Some ((b', false), wld1) ->
    all_expired (clock wld) (S (clock_pos wld)) (segs b') ->
    free (segs b') wld1 = Some (tt, wld1') ->
    bolts_pass wld1' bs bs' wld2 ->
    bolts_pass wld (b :: bs) bs' wld2.

(** ** The points of a run

    The steps of one iteration of the loop, in the order [frame] takes
    them. *)
Inductive Phase :=
| PResize (dims : Z * Z)
| PToggle (ch : Z)
| PPace
| PSpawnBolt
| PStepBolts
| PSpawnRain
| PStepRain
| PRender.

Definition run_phase (p : Phase) (s : State) : M State :=
  match p with
  | PResize dims => resize_step dims s
  | PToggle ch => toggle_step ch s
  | PPace => pace_step s
  | PSpawnBolt => spawn_bolt_step s
  | PStepBolts => step_bolts s
  | PSpawnRain => spawn_rain_step s
  | PStepRain => step_rain s
  | PRender => render s ;;; ret s
  end.

Fixpoint run_phases (ps : list Phase) (s : State) : M State :=
  match ps with
  | [] => ret s
  | p :: ps' => s' <- run_phase p s ;; run_phases ps' s'
  end.

(** The steps [frame] takes after the resize when the key is not a quit. *)
Definition frame_phases (ch : Z) : list Phase :=
  [PToggle ch; PPace; PSpawnBolt; PStepBolts; PSpawnRain; PStepRain; PRender].

(** The points a run of the program can be at, between two steps of the
    loop: the start of the loop, and what a signal or a step of the loop
    leads to from such a point. *)
Inductive reachable : State -> World -> Prop :=
| reach_start dims ra la now wld :
    reachable (initial_state dims ra la now) wld
| reach_winch s wld :
    reachable s wld -> reachable (on_winch s) wld
| reach_phase p s wld s' wld' :
    reachable s wld -> run_phase p s wld = Some (s', wld') ->
    reachable s' wld'.

(** The two tapes of the world are never written. *)
Definition same_tapes (w w' : World) : Prop :=
  clock w' = clock w /\ rng w' = rng w.

Definition keeps_tapes {A} (c : M A) : Prop :=
  forall w a w', c w = Some (a, w') -> same_tapes w w'.

(** What holds of the bolt store at every point of a run: no bolt is
    without segments, and there are at most three bolts. *)
Definition store_ok (s : State) : Prop :=
  Forall (fun b => segs b <> []) (bolts s) /\ bolt_count s <= 3.

(** The world after some segment arrays were freed. *)
Definition add_freed (wld : World) (ps : list (list Segment)) : World :=
  mkWorld (clock wld) (clock_pos wld) (rng wld) (rng_pos wld)
          (freed wld ++ ps) (slept wld) (screen wld).

(** ** A run to evaluate

    A tape given by its first readings and the value it has after them. *)
Definition tape {A} (l : list A) (d : A) (n : nat) : A := nth n l d.

(** A clock that advances a quarter of a second at each reading, for 64
    readings, and a [rand] that always returns 0: every chance fires. *)
Definition demo_clock : nat -> double :=
  tape (map (fun k => Dbl.lit (Z.of_nat k) 4) (seq 0 64)) (Dbl.of_int 16).

Definition demo_world : World := world_of demo_clock (fun _ => 0).

(** Startup on a screen of 5 rows and 40 columns, then a frame that
    toggles thunderstorm mode on, and one more frame: the first frame
    spawns a bolt and grows it; in the second, the segments of that bolt
    have all expired. *)
Definition demo_start : State := initial_state (5, 40) 0 0 Dbl.zero.

Definition demo_after_1 : option (State * bool * World) :=
  Eval vm_compute in main_loop [Frame (5, 40) 116] demo_start demo_world.

Definition demo_state_1 : State :=
  Eval vm_compute in
    match demo_after_1 with Some (s, _, _) => s | None => demo_start end.

Definition demo_world_1 : World :=
  Eval vm_compute in
    match demo_after_1 with Some (_, w) => w | None => demo_world end.

(** [b'] is the bolt [b] some updates later: the same target length and
    bounds, and the segments of [b] followed by those pushed since. *)
Definition grown (b b' : Bolt) : Prop :=
  target_len b' = target_len b
  /\ max_y b' = max_y b /\ max_x b' = max_x b
  /\ exists more, segs b' = segs b ++ more.

(** A store that has only lost bolts: its bolts are, in order, bolts of
    the earlier store, some updates later; no bolt is new. *)
Inductive thinned : list Bolt -> list Bolt -> Prop :=
| thin_nil : thinned [] []
| thin_keep b b' bs bs' :
    grown b b' -> thinned bs bs' -> thinned (b :: bs) (b' :: bs')
| thin_drop b bs bs' :
    thinned bs bs' -> thinned (b :: bs) bs'.

(** No key of the frames of [evs] toggles thunderstorm mode. *)
Definition no_toggle (evs : list Event) : Prop :=
  Forall (fun e => match e with
                   | Winch => True
                   | Frame _ ch => is_toggle ch = false
                   end) evs.

(** No window-size signal arrives during [evs]. *)
Definition no_winch (evs : list Event) : Prop :=
  Forall (fun e => match e with Winch => False | Frame _ _ => True end) evs.

(** The state uses the screen dimensions [dims] and no resize is pending:
    the bounds of every bolt are [dims]. *)
Definition uses_dims (dims : Z * Z) (s : State) : Prop :=
  g_rows s = fst dims /\ g_cols s = snd dims /\ g_resized s = false
  /\ Forall (fun b => max_y b = fst dims /\ max_x b = snd dims) (bolts s).

(** Every raindrop is above the bottom of a screen of [rows] rows. *)
Definition rain_within (rows : Z) (s : State) : Prop :=
  Forall (fun d => Dbl.to_int (rd_y d) < rows) (rain s).

Definition demo_after_resize : option (State * bool * World) :=
  Eval vm_compute in
    main_loop [Frame (7, 30) (-1); Frame (9, 9) (-1)]
              (on_winch demo_state_1) demo_world_1.

(** The state and the world once a pending resize is acknowledged. *)
Definition resized (dims : Z * Z) (s : State) : State :=
  mkState (fst dims) (snd dims) false [] [] (thunder s) (last s)
          (rain_attr s) (light_attr s).

Definition resized_world (s : State) (wld : World) : World :=
  add_freed (add_screen wld [OpEndwin; OpRefresh; OpClear])
            (map segs (bolts s)).

(** A bolt after a sequence of updates, in whatever worlds they run, with
    the segments the updates pushed, in order. *)
Inductive updates : Bolt -> list Push -> Bolt -> Prop :=
| upd_none b : updates b [] b
| upd_step b wld b1 alive log1 wld1 log2 b2 :
    bolt_update_log b wld = Some ((b1, alive, log1), wld1) ->
    updates b1 log2 b2 ->
    updates b (log1 ++ log2) b2.

Definition demo_bolt : option (Bolt * World) :=
  Eval vm_compute in bolt_create 0 10 5 40 demo_world.

Definition demo_bolt_updated : option (Bolt * bool * list Push * World) :=
  Eval vm_compute in
    match demo_bolt with
    | Some (b, w) => bolt_update_log b w
    | None => None
    end.

(** The request [sleep_sec] makes for a duration it sleeps for. *)
Definition timespec_of (s : double) : timespec :=
  mkTimespec (Dbl.to_long s)
             (Dbl.to_long (Dbl.mul (Dbl.sub s (Dbl.of_int (Dbl.to_long s)))
                                   (Dbl.of_int 1000000000))).

(** The world after some requests to [nanosleep]. *)
Definition add_slept (wld : World) (rs : list timespec) : World :=
  mkWorld (clock wld) (clock_pos wld) (rng wld) (rng_pos wld)
          (freed wld) (slept wld ++ rs) (screen wld).

(** The least exponent of a binary64 number. *)
Definition demin : Z := emin Dbl.prec Dbl.emax.

(** A double that is strictly positive: neither a zero, nor negative, nor
    a NaN. *)
Definition positive (d : Dbl.double) : bool :=
  match d with
  | S754_finite false _ _ | S754_infinity false => true
  | _ => false
  end.

(** A state in which the last frame began 5 ms before the first reading
    of the clock of the world below. *)
Definition demo_pace_state : State :=
  initial_state (24, 80) 0 0 (Dbl.lit 995 1000).

Definition demo_pace_world : World :=
  world_of (tape [Dbl.of_int 1] (Dbl.lit 1015 1000)) (fun _ => 0).

(** ** Colour names

    The colour numbers of curses. *)
Module Color.
Definition COLOR_BLACK : Z := 0.
Definition COLOR_RED : Z := 1.
Definition COLOR_GREEN : Z := 2.
Definition COLOR_YELLOW : Z := 3.
Definition COLOR_BLUE : Z := 4.
Definition COLOR_MAGENTA : Z := 5.
Definition COLOR_CYAN : Z := 6.
Definition COLOR_WHITE : Z := 7.
End Color.

(** The byte a character is, and [tolower] in the C locale, which the
    program never leaves. *)
Definition c_byte (c : ascii) : Z := Z.of_nat (nat_of_ascii c).

Definition c_tolower (n : Z) : Z :=
  if (65 <=? n) && (n <=? 90) then n + 32 else n.

(** [strcasecmp] of the C library: the difference of the first two
    lowered bytes that differ, the end of a string being the byte 0.  A
    string of the model stands for the C string of its bytes up to the
    first zero byte. *)
Fixpoint strcasecmp (s1 s2 : string) : Z :=
  match s1, s2 with
  | String a r1, String b r2 =>
      let x := c_tolower (c_byte a) in
      let y := c_tolower (c_byte b) in
      if x =? y then (if x =? 0 then 0 else strcasecmp r1 r2) else x - y
  | String a _, EmptyString => c_tolower (c_byte a)
  | EmptyString, String b _ => - c_tolower (c_byte b)
  | EmptyString, EmptyString => 0
  end.

Definition COLOR_MAP : list (string * Z) :=
  [("black", Color.COLOR_BLACK); ("red", Color.COLOR_RED);
   ("green", Color.COLOR_GREEN); ("yellow", Color.COLOR_YELLOW);
   ("blue", Color.COLOR_BLUE); ("magenta", Color.COLOR_MAGENTA);
   ("cyan", Color.COLOR_CYAN); ("white", Color.COLOR_WHITE)]%string.

(** The loop of [color_from_name] over the entries of the table left. *)
Fixpoint color_scan (m : list (string * Z)) (s : string) (defval : Z) : Z :=
  match m with
  | [] => defval
  | (name, code) :: m' =>
      if strcasecmp s name =? 0 then code else color_scan m' s defval
  end.

(** [color_from_name]; [None] is the null pointer. *)
Definition color_from_name (s : option string) (defval : Z) : Z :=
  match s with
  | None => defval
  | Some s => color_scan COLOR_MAP s defval
  end.

(** The C string a string of the model stands for, and its letters
    lowered. *)
Fixpoint cstr (s : string) : string :=
  match s with
  | EmptyString => EmptyString
  | String c r => if c_byte c =? 0 then EmptyString else String c (cstr r)
  end.

Fixpoint lower (s : string) : string :=
  match s with
  | EmptyString => EmptyString
  | String c r =>
      String (ascii_of_nat (Z.to_nat (c_tolower (c_byte c)))) (lower r)
  end.

(** ** Colour setup

    What [setup_colors] asks of curses, besides the two attributes it
    computes. *)
Inductive ColorOp :=
| OpStartColor
| OpUseDefaultColors
| OpInitPair (pair fg bg : Z).

Definition CP_RAIN_NORMAL : Z := 1.
Definition CP_LIGHTNING : Z := 4.

(** [A_NORMAL], [A_COLOR], [A_CHARTEXT] and [COLOR_PAIR] of ncurses. *)
Definition A_NORMAL : Z := 0.
Definition A_COLOR : Z := 65280.
Definition A_CHARTEXT : Z := 255.
Definition COLOR_PAIR (n : Z) : Z := Z.land (Z.shiftl n 8) A_COLOR.

(** [setup_colors]: the two attributes it stores through its pointers,
    and its calls; [has_colors] is what the terminal answers. *)
Definition setup_colors (has_colors : bool)
    (rain_name lightning_name : option string) : Z * Z * list ColorOp :=
  let rain_attr := A_NORMAL in
  let light_attr := Curses.A_BOLD in
  if negb has_colors then (rain_attr, light_attr, [])
  else
    let bg := -1 in
    let rain_fg := color_from_name rain_name Color.COLOR_CYAN in
    let light_fg := color_from_name lightning_name Color.COLOR_YELLOW in
    (COLOR_PAIR CP_RAIN_NORMAL,
     Z.lor (COLOR_PAIR CP_LIGHTNING) Curses.A_BOLD,
     [OpStartColor; OpUseDefaultColors;
      OpInitPair CP_RAIN_NORMAL rain_fg bg;
      OpInitPair CP_LIGHTNING light_fg bg]).

(** ** Growable arrays with their capacity

    [RainVec], [BoltVec] and the segment array of a bolt: [vec_v] holds
    the [n] initialised cells, [vec_cap] is the number of cells
    allocated. *)
Record Vec (A : Type) := mkVec {
  vec_v : list A;
  vec_cap : Z
}.

Definition vec_n {A} (rv : Vec A) : Z := Z.of_nat (length (vec_v rv)).

Definition INT_MAX : Z := 2147483647.

(** The three push functions, which differ in the first capacity only:
    when the array is full its capacity becomes [first], or doubles, and
    the element is then stored in cell [n].  Doubling beyond [INT_MAX]
    and a store outside the allocated cells are errors; [realloc] is
    taken to succeed. *)
Definition vec_push {A} (first : Z) (rv : Vec A) (d : A) : option (Vec A) :=
  let grow := vec_n rv =? vec_cap rv in
  let cap := if grow then (if vec_cap rv =? 0 then first else vec_cap rv * 2)
             else vec_cap rv in
  if grow && (INT_MAX <? cap) then None
  else if (0 <=? vec_n rv) && (vec_n rv <? cap)
       then Some (mkVec (vec_v rv ++ [d]) cap)
       else None.

Definition rain_push : Vec Raindrop -> Raindrop -> option (Vec Raindrop) :=
  vec_push 256.

Definition boltvec_push : Vec Bolt -> Bolt -> option (Vec Bolt) :=
  vec_push 64.

(** [seg_push] on the segment array with its capacity. *)
Definition seg_push_cap : Vec Segment -> Segment -> option (Vec Segment) :=
  vec_push 64.

(** [n = w]: the array cut to its first cells, the capacity kept. *)
Definition vec_cut {A} (rv : Vec A) (w : nat) : Vec A :=
  mkVec (firstn w (vec_v rv)) (vec_cap rv).

(** An array as the pushes build it: no more cells in use than
    allocated, and a capacity that is 0 or [first] doubled some times. *)
Definition vec_ok {A} (first : Z) (rv : Vec A) : Prop :=
  vec_n rv <= vec_cap rv
  /\ (vec_cap rv = 0 \/ exists k, 0 <= k /\ vec_cap rv = first * 2 ^ k).

(** The pushes of the elements of [l], in order. *)
Fixpoint vec_push_all {A} (first : Z) (rv : Vec A) (l : list A)
  : option (Vec A) :=
  match l with
  | [] => Some rv
  | d :: l' =>
      match vec_push first rv d with
      | Some rv' => vec_push_all first rv' l'
      | None => None
      end
  end.

(** An array as pushes onto the empty array build it: besides, it is
    empty and unallocated, or its capacity is the first one or less than
    twice the cells in use. *)
Definition vec_tight {A} (first : Z) (rv : Vec A) : Prop :=
  (vec_v rv = [] /\ vec_cap rv = 0)
  \/ (1 <= vec_n rv <= vec_cap rv
      /\ (vec_cap rv = first \/ vec_cap rv < 2 * vec_n rv)
      /\ exists k, 0 <= k /\ vec_cap rv = first * 2 ^ k).

(** ** New raindrops and the picture of a frame

    A raindrop as the spawn loop makes it for a screen of [cols] columns
    and speeds from [lo] to [hi]: at the top row, in a column of the
    screen (column 0 when the screen has none), with one of the three
    rain glyphs, and a speed [lo + u * (hi - lo)] for a [u] drawn as
    [rand()/RAND_MAX]. *)
Definition fresh_drop (cols : Z) (lo hi : double) (d : Raindrop) : Prop :=
  rd_y d = Dbl.zero
  /\ 0 <= rd_x d < Z.max 1 cols
  /\ In (rd_ch d) ra_chars
  /\ exists r, 0 <= r <= RAND_MAX
               /\ rd_speed d
                  = Dbl.add lo (Dbl.mul (Dbl.div (Dbl.of_int r)
                                                 (Dbl.of_int RAND_MAX))
                                        (Dbl.sub hi lo)).

(** A terminal operation that writes one cell of a screen of [rows] rows
    and [cols] columns. *)
Definition on_grid (rows cols : Z) (op : TermOp) : Prop :=
  match op with
  | OpMvaddch y x _ => 0 <= y < rows /\ 0 <= x < cols
  | _ => False
  end.

(** The number of segments of the bolts of a store. *)
Definition seg_total (bs : list Bolt) : nat :=
  length (flat_map segs bs).

(** ** Screens the loop can run on

    A screen with at least one row and two columns. *)
Definition roomy (dims : Z * Z) : Prop := 1 <= fst dims /\ 2 <= snd dims.

(** Every iteration of the loop finds such a screen. *)
Definition frames_roomy (evs : list Event) : Prop :=
  Forall (fun e => match e with
                   | Frame dims _ => roomy dims
                   | Winch => True
                   end) evs.

(** The bolt store is in order and, unless a resize is pending, the
    size held is that of such a screen. *)
Definition loop_ok (s : State) : Prop :=
  store_ok s /\ (g_resized s = false -> roomy (g_rows s, g_cols s)).

(** An iteration of the loop that reads a quit key. *)
Definition quits (e : Event) : Prop :=
  match e with
  | Frame _ ch => is_quit ch = true
  | Winch => False
  end.

(** ** The shape of a bolt

    A segment inside the bounds its bolt was created with. *)
Definition seg_in (b : Bolt) (sg : Segment) : Prop :=
  0 <= sg_y sg < max_y b /\ 0 <= sg_x sg < max_x b.

Definition bolt_within (b : Bolt) : Prop := Forall (seg_in b) (segs b).

(** [b->segs[b->seg_count - 1]], the segment a growth step starts from. *)
Definition last_seg (b : Bolt) : Segment :=
  List.last (segs b) (mkSegment 0 0 Dbl.zero).

(** A bolt as the loop keeps it: it has a segment, its segments are
    inside its bounds, it has at most three segments more than its
    target length, and fewer than its target length while it grows. *)
Definition bolt_sound (b : Bolt) : Prop :=
  segs b <> []
  /\ bolt_within b
  /\ seg_count b <= target_len b + 3
  /\ (growing b = true -> seg_count b < target_len b).

(** Such a bolt, with the size of the screen as its bounds. *)
Definition bolt_fits (s : State) (b : Bolt) : Prop :=
  bolt_sound b /\ max_y b = g_rows s /\ max_x b = g_cols s.

(** Every raindrop is in a column of the screen and has a rain glyph. *)
Definition rain_on_columns (s : State) : Prop :=
  Forall (fun d => 0 <= rd_x d < g_cols s /\ In (rd_ch d) ra_chars) (rain s).



(** ** The colour options

    The option loop of [main]: [opts] is what [getopt_long] returns call
    after call before it returns -1, the option character with
    [optarg]. *)
Definition parse_options (opts : list (Z * option string))
  : option string * option string :=
  fold_left
    (fun (cur : option string * option string) (o : Z * option string) =>
       let '(rain_color, light_color) := cur in
       let '(c, optarg) := o in
       if c =? 114 then (optarg, light_color)
       else if c =? 108 then (rain_color, optarg)
       else (rain_color, light_color))
    opts (Some "cyan"%string, Some "yellow"%string).

(** The colours [main] sets up for its options. *)
Definition startup_colors (opts : list (Z * option string))
    (has_colors : bool) : Z * Z * list ColorOp :=
  let '(rain_color, light_color) := parse_options opts in
  setup_colors has_colors rain_color light_color.

(** The argument of the last option [c] of [opts], or [d] when [c] does
    not occur. *)
Definition last_opt (c : Z) (opts : list (Z * option string))
    (d : option string) : option string :=
  match find (fun o => fst o =? c) (rev opts) with
  | Some o => snd o
  | None => d
  end.

(** How far sideways from the last segment a segment pushed on each path
    can be. *)
Definition side_reach (g : GrowthPath) : Z :=
  match g with
  | Primary => 2
  | Branch => 6
  | Fork => 3
  end.


(** A clock that advances a hundredth of a second at each reading, for
    128 readings, with the same [rand]: the bolt of the first frame
    lives through the frames that follow. *)
Definition calm_clock : nat -> double :=
  tape (map (fun k => Dbl.lit (Z.of_nat k) 100) (seq 0 128)) (Dbl.of_int 2).

Definition calm_world : World := world_of calm_clock (fun _ => 0).

Definition calm_after_1 : option (State * bool * World) :=
  Eval vm_compute in main_loop [Frame (5, 40) 116] demo_start calm_world.

Definition calm_state_1 : State :=
  Eval vm_compute in
    match calm_after_1 with Some (s, _, _) => s | None => demo_start end.

Definition calm_world_1 : World :=
  Eval vm_compute in
    match calm_after_1 with Some (_, w) => w | None => calm_world end.

Definition calm_after_off : option (State * bool * World) :=
  Eval vm_compute in
    main_loop [Frame (5, 40) 116; Frame (5, 40) (-1)]
              calm_state_1 calm_world_1.

Definition calm_frame_off : option (State * bool * World) :=
  Eval vm_compute in frame (5, 40) 116 calm_state_1 calm_world_1.

(** ** The program

    What one call of [getopt_long] gives before the call that returns
    -1: the option character it returns, [optarg], and the diagnostic it
    writes to the standard error stream when it does not accept what it
    reads. *)
Record Getopt := mkGetopt {
  go_c : Z;
  go_optarg : option string;
  go_diag : option string
}.

Definition getopt_ret (g : Getopt) : Z * option string :=
  (go_c g, go_optarg g).

(** The option loop of [main], call after call: [getopt_long] writes its
    diagnostic, if any, then the colour named by the option is kept. *)
Fixpoint option_loop (calls : list Getopt)
    (rain_color light_color : option string)
  : M (option string * option string) :=
  match calls with
  | [] => ret (rain_color, light_color)
  | g :: calls' =>
      (match go_diag g with
       | Some msg => term (OpStderr msg)
       | None => ret tt
       end) ;;;
      if go_c g =? 114 then option_loop calls' (go_optarg g) light_color
      else if go_c g =? 108 then option_loop calls' rain_color (go_optarg g)
      else option_loop calls' rain_color light_color
  end.

(** [main]: [calls] is what [getopt_long] gives, [has_colors] what the
    terminal answers, [dims] the size of the screen at startup, and
    [evs] what happens while the loop runs.  The result is the exit
    status, or [None] while the loop is still running at the end of
    [evs].  [initscr] is taken to return; of the calls that set curses
    up, it alone is recorded. *)
Definition main (env : Env) (calls : list Getopt) (has_colors : bool)
    (dims : Z * Z) (evs : list Event) : M (option Z) :=
  '(rain_color, light_color) <-
    option_loop calls (Some "cyan"%string) (Some "yellow"%string) ;;
  if negb (stdout_isatty env)
     || match env_TERM env with
        | None => true
        | Some t => String.eqb t "dumb"%string
        end
  then
    term (OpStderr tty_error) ;;; ret (Some 1)
  else
    term OpInitscr ;;;
    let '(rain_attr, light_attr, _) :=
      setup_colors has_colors rain_color light_color in
    now <- now_sec ;;
    '(s, running) <-
      main_loop evs (initial_state dims rain_attr light_attr now) ;;
    if running then ret None
    else
      free_all (bolts s) ;;;
      term OpEndwin ;;;
      ret (Some 0).

(** The diagnostics [getopt_long] writes, in order. *)
Definition getopt_diags (calls : list Getopt) : list TermOp :=
  flat_map (fun g => match go_diag g with
                     | Some msg => [OpStderr msg]
                     | None => []
                     end) calls.

(** A command line with an option that is not known and a rain colour. *)
Definition demo_calls : list Getopt :=
  [mkGetopt 63 None (Some "invalid option -- 'x'"%string);
   mkGetopt 114 (Some "red"%string) None].

(* ================================================================== *)
(** * Properties *)

(** ** The monad *)

Lemma bind_Some A B (c : M A) (k : A -> M B) w b w' :
  bind c k w = Some (b, w') <->
  exists a w1, c w = Some (a, w1) /\ k a w1 = Some (b, w').
Proof.
  unfold bind. split.
  - destruct (c w) as [[a w1]|]; [eauto | discriminate].
  - intros (a & w1 & -> & H). exact H.
Qed.

Lemma bind_None A B (c : M A) (k : A -> M B) w :
  bind c k w = None <->
  c w = None \/ exists a w1, c w = Some (a, w1) /\ k a w1 = None.
Proof.
  unfold bind. split.
  - destruct (c w) as [[a w1]|]; [right; eauto | left; reflexivity].
  - intros [-> | (a & w1 & -> & H)]; [reflexivity | exact H].
Qed.

Lemma bind_eq A B (c : M A) (k : A -> M B) w a w1 :
  c w = Some (a, w1) -> bind c k w = k a w1.
Proof. unfold bind. intros ->. reflexivity. Qed.

(** Invert a successful run of a sequence of binds, one step at a time. *)
Ltac minv H :=
  let a := fresh "a" in
  let w := fresh "w" in
  let H1 := fresh H in
  apply bind_Some in H; destruct H as (a & w & H1 & H).

Ltac inv_ret H :=
  unfold ret in H; injection H as H; subst.

(** ** In-place compaction is a sweep of the list *)

Lemma list_set_length A i (a : A) v : length (list_set i a v) = length v.
Proof.
  revert i; induction v as [|x v IH]; intros [|i]; simpl; auto.
Qed.

Lemma list_set_app_l A i (a : A) l r :
  (i < length l)%nat -> list_set i a (l ++ r) = list_set i a l ++ r.
Proof.
  revert i; induction l as [|x l IH]; intros i Hi; simpl in *.
  - lia.
  - destruct i as [|i]; simpl; [reflexivity|].
    rewrite IH by lia. reflexivity.
Qed.

Lemma list_set_middle A (a b : A) l r :
  list_set (length l) b (l ++ a :: r) = l ++ b :: r.
Proof. induction l as [|x l IH]; simpl; [reflexivity | now rewrite IH]. Qed.

Lemma firstn_list_set_snoc A w (a : A) pre :
  (w <= length pre)%nat ->
  firstn (S w) (list_set w a (pre ++ [a])) = firstn w pre ++ [a].
Proof.
  revert w; induction pre as [|x pre IH]; intros w Hw; simpl in *.
  - assert (w = 0)%nat by lia. subst. reflexivity.
  - destruct w as [|w]; [reflexivity|].
    simpl. f_equal. apply IH. lia.
Qed.

Section CompactFacts.
Variable A : Type.
Variable visit : A -> M (A * bool).
Variable discard : A -> M unit.

(** The loop, started at cell [i = length pre] with [w] cells kept,
    leaves in the first cells the ones kept before and what the sweep
    of the cells to come keeps, and the same world. *)
Lemma compact_loop_sweep rest : forall pre w wld,
  (w <= length pre)%nat ->
  match compact_loop visit discard (length rest) (length pre) w
                     (pre ++ rest) wld with
  | Some ((v', w'), wld') =>
      exists r, sweep visit discard rest wld = Some (r, wld')
                /\ firstn w' v' = firstn w pre ++ r
  | None => sweep visit discard rest wld = None
  end.
Proof.
  induction rest as [|a rest IH]; intros pre w wld Hw.
  - simpl. exists []. split; [reflexivity|].
    rewrite !app_nil_r. reflexivity.
  - cbn [length compact_loop sweep].
    rewrite nth_error_app2 by lia. rewrite Nat.sub_diag. cbn [nth_error].
    unfold bind.
    destruct (visit a wld) as [[[a' keep] wld1]|]; [|reflexivity].
    rewrite list_set_middle.
    destruct keep.
    + replace (list_set w a' (pre ++ a' :: rest))
        with (list_set w a' (pre ++ [a']) ++ rest).
      2:{ rewrite <- list_set_app_l by (rewrite length_app; simpl; lia).
          rewrite <- app_assoc. reflexivity. }
      replace (S (length pre)) with (length (list_set w a' (pre ++ [a']))).
      2:{ rewrite list_set_length, length_app. simpl. lia. }
      specialize (IH (list_set w a' (pre ++ [a'])) (S w) wld1).
      rewrite list_set_length, length_app in IH. cbn [length] in IH.
      specialize (IH ltac:(lia)).
      rewrite list_set_length, length_app. cbn [length].
      destruct (compact_loop visit discard (length rest) (length pre + 1)
                  (S w) (list_set w a' (pre ++ [a']) ++ rest) wld1)
        as [[[v' w'] wld']|].
      * destruct IH as (r & Hr & Hf). exists (a' :: r).
        rewrite Hr. split; [reflexivity|].
        rewrite Hf, firstn_list_set_snoc by lia.
        rewrite <- app_assoc. reflexivity.
      * rewrite IH. reflexivity.
    + destruct (discard a' wld1) as [[[] wld2]|]; [|reflexivity].
      replace (pre ++ a' :: rest) with ((pre ++ [a']) ++ rest)
        by (rewrite <- app_assoc; reflexivity).
      replace (S (length pre)) with (length (pre ++ [a']))
        by (rewrite length_app; simpl; lia).
      specialize (IH (pre ++ [a']) w wld2).
      rewrite length_app in IH. cbn [length] in IH.
      specialize (IH ltac:(lia)).
      rewrite length_app. cbn [length].
      destruct (compact_loop visit discard (length rest) (length pre + 1) w
                  ((pre ++ [a']) ++ rest) wld2) as [[[v' w'] wld']|].
      * destruct IH as (r & Hr & Hf). exists r. split; [exact Hr|].
        rewrite Hf. rewrite firstn_app.
        replace (w - length pre)%nat with 0%nat by lia.
        simpl. rewrite app_nil_r. reflexivity.
      * exact IH.
Qed.

Lemma compact_sweep v wld :
  compact visit discard v wld = sweep visit discard v wld.
Proof.
  unfold compact, bind.
  pose proof (@compact_loop_sweep v [] 0%nat wld (Nat.le_refl _)) as H.
  simpl in H.
  destruct (compact_loop visit discard (length v) 0 0 v wld)
    as [[[v' w'] wld']|].
  - destruct H as (r & Hr & Hf). rewrite Hr. unfold ret.
    simpl in Hf. rewrite Hf. reflexivity.
  - symmetry. exact H.
Qed.
End CompactFacts.

(** A sweep whose visit is a pure update [f] and a test [p] of the updated
    cell, and which discards silently, is [filter p] after [map f]. *)
Lemma sweep_pure A (f : A -> A) (p : A -> bool) v wld :
  sweep (fun a => ret (f a, p (f a))) (fun _ => ret tt) v wld
  = Some (filter p (map f v), wld).
Proof.
  induction v as [|a v IH]; [reflexivity|].
  cbn [sweep map filter]. unfold bind at 1. unfold ret at 1.
  destruct (p (f a)).
  - unfold bind. rewrite IH. reflexivity.
  - unfold bind, ret at 1. exact IH.
Qed.

(** ** Raindrops *)

Lemma double_eq_dec (a b : Dbl.double) : {a = b} + {a <> b}.
Proof.
  unfold Dbl.double in *.
  decide equality; auto using Z.eq_dec, Pos.eq_dec, bool_dec.
Defined.

Lemma Raindrop_eq_dec (a b : Raindrop) : {a = b} + {a <> b}.
Proof.
  decide equality; auto using Z.eq_dec, ascii_dec, double_eq_dec.
Defined.

Lemma step_rain_eq s wld :
  step_rain s wld
  = Some (set_rain s (filter (on_screen (g_rows s)) (map advance (rain s))),
          wld).
Proof.
  unfold step_rain, bind. rewrite compact_sweep.
  change (sweep _ _ (rain s) wld)
    with (sweep (fun d => ret (advance d, on_screen (g_rows s) (advance d)))
                (fun _ => ret tt) (rain s) wld).
  rewrite sweep_pure. reflexivity.
Qed.

Lemma count_occ_filter A (dec : forall a b : A, {a = b} + {a <> b})
    (p : A -> bool) l d :
  count_occ dec (filter p l) d = if p d then count_occ dec l d else 0%nat.
Proof.
  induction l as [|x l IH]; simpl.
  - destruct (p d); reflexivity.
  - destruct (p x) eqn:Hx; simpl.
    + destruct (dec x d) as [->|Hne]; rewrite IH.
      * rewrite Hx. reflexivity.
      * reflexivity.
    + rewrite IH. destruct (dec x d) as [->|Hne]; [|reflexivity].
      rewrite Hx. reflexivity.
Qed.

(** C3: one advance-and-retire pass over the raindrops.  The pass always
    completes and touches nothing but the raindrop store.  Every surviving
    drop is a drop of the store moved down by its own speed (column,
    speed and glyph unchanged); no surviving drop has an integer row at or
    below the bottom of the screen; and the survivors are exactly the
    advanced drops whose integer row is less than the screen height, in
    their order and each as many times as it was in the store. *)
Theorem C3_advance_and_retire (s : State) (wld : World) :
  exists s',
    step_rain s wld = Some (s', wld)
    /\ s' = set_rain s (rain s')
    /\ Forall (fun d' => exists d, In d (rain s)
                 /\ rd_y d' = Dbl.add (rd_y d) (rd_speed d)
                 /\ rd_x d' = rd_x d /\ rd_speed d' = rd_speed d
                 /\ rd_ch d' = rd_ch d) (rain s')
    /\ Forall (fun d' => ~ (Dbl.to_int (rd_y d') >= g_rows s)) (rain s')
    /\ rain s' = filter (fun d' => Dbl.to_int (rd_y d') <? g_rows s)
                        (map advance (rain s))
    /\ forall d', count_occ Raindrop_eq_dec (rain s') d'
                  = if Dbl.to_int (rd_y d') <? g_rows s
                    then count_occ Raindrop_eq_dec (map advance (rain s)) d'
                    else 0%nat.
Proof.
  eexists. split; [apply step_rain_eq|].
  cbn [rain set_rain].
  split; [reflexivity|].
  split; [|split; [|split]].
  - apply Forall_forall. intros d' Hd'.
    apply filter_In in Hd' as [Hin _].
    apply in_map_iff in Hin as (d & <- & Hin).
    exists d. cbn. auto.
  - apply Forall_forall. intros d' Hd'.
    apply filter_In in Hd' as [_ Hp].
    unfold on_screen in Hp. apply Z.ltb_lt in Hp. lia.
  - reflexivity.
  - intros d'. apply (count_occ_filter Raindrop_eq_dec (on_screen (g_rows s))).
Qed.

(** ** Drawing a bolt *)

Lemma add_screen_nil wld : add_screen wld [] = wld.
Proof. destruct wld. unfold add_screen. cbn. rewrite app_nil_r. reflexivity. Qed.

Lemma add_screen_app wld l1 l2 :
  add_screen (add_screen wld l1) l2 = add_screen wld (l1 ++ l2).
Proof. unfold add_screen. cbn. rewrite app_assoc. reflexivity. Qed.

Lemma term_eq op wld : term op wld = Some (tt, add_screen wld [op]).
Proof. reflexivity. Qed.

Lemma fade_index_cases norm :
  lightning_char (fade_index norm)
  = if Dbl.lt norm (Dbl.lit 33 100) then "#"%char
    else if Dbl.lt norm (Dbl.lit 66 100) then "+"%char
    else "*"%char.
Proof.
  unfold fade_index.
  destruct (Dbl.lt norm (Dbl.lit 33 100)); [reflexivity|].
  destruct (Dbl.lt norm (Dbl.lit 66 100)); reflexivity.
Qed.

Lemma draw_segment_eq g_rows g_cols t l_attr s wld :
  draw_segment g_rows g_cols t l_attr s wld
  = Some (tt, add_screen wld
                (spec_segment_cell g_rows g_cols l_attr
                                   (Dbl.sub t (birth s)) s)).
Proof.
  unfold draw_segment, spec_segment_cell, spec_fade_glyph.
  change SEGMENT_LIFESPAN with (Dbl.lit 8 10).
  destruct (Dbl.gt (Dbl.sub t (birth s)) (Dbl.lit 8 10)).
  - unfold ret. rewrite add_screen_nil. reflexivity.
  - rewrite fade_index_cases.
    replace (sg_y s >=? 0) with (0 <=? sg_y s) by (rewrite Z.geb_leb; reflexivity).
    replace (sg_x s >=? 0) with (0 <=? sg_x s) by (rewrite Z.geb_leb; reflexivity).
    set (n := Dbl.div _ _).
    destruct (Dbl.lt n (Dbl.lit 33 100));
      [|destruct (Dbl.lt n (Dbl.lit 66 100))];
      (destruct ((0 <=? sg_y s) && (sg_y s <? g_rows)
                 && (0 <=? sg_x s) && (sg_x s <? g_cols));
       [apply term_eq | unfold ret; rewrite add_screen_nil; reflexivity]).
Qed.

Lemma draw_segments_eq g_rows g_cols t l_attr l : forall wld,
  draw_segments g_rows g_cols t l_attr l wld
  = Some (tt, add_screen wld
                (flat_map (fun s => spec_segment_cell g_rows g_cols l_attr
                                      (Dbl.sub t (birth s)) s) l)).
Proof.
  induction l as [|s l IH]; intros wld.
  - cbn. unfold ret. rewrite add_screen_nil. reflexivity.
  - cbn [draw_segments flat_map]. unfold bind.
    rewrite draw_segment_eq, IH, add_screen_app. reflexivity.
Qed.

(** C4: [bolt_draw] reads the clock once, changes nothing but the screen,
    and writes for each segment, in order, the cell of the glyph the
    specification gives for the segment's age at that reading: none when
    the age exceeds 0.8 seconds, otherwise ['#'], ['+'] or ['*'] by the
    normalised age.  The bolt itself is not an output of drawing: an
    expired segment is skipped, and stays in the bolt. *)
Theorem C4_fade_glyph (g_rows g_cols l_attr : Z) (b : Bolt) (wld : World) :
  let t := clock wld (clock_pos wld) in
  exists wld',
    bolt_draw g_rows g_cols b l_attr wld = Some (tt, wld')
    /\ screen wld'
       = screen wld
         ++ flat_map (fun s => spec_segment_cell g_rows g_cols l_attr
                                 (Dbl.sub t (birth s)) s) (segs b)
    /\ clock_pos wld' = S (clock_pos wld)
    /\ rng_pos wld' = rng_pos wld
    /\ freed wld' = freed wld
    /\ slept wld' = slept wld.
Proof.
  intros t. unfold bolt_draw, bind. cbn [now_sec].
  rewrite draw_segments_eq. eexists. split; [reflexivity|].
  cbn. auto.
Qed.

(** ** Creating a bolt *)

Lemma bolt_create_eq start_row start_col my mx wld :
  let lo := spec_min_len my in
  let hi := code_max_len my in
  bolt_create start_row start_col my mx wld
  = Some (mkBolt (Z.rem (rng wld (rng_pos wld)) (hi - lo + 1) + lo) true
                 (clock wld (clock_pos wld)) my mx
                 [mkSegment start_row start_col
                            (clock wld (S (clock_pos wld)))],
          mkWorld (clock wld) (S (S (clock_pos wld))) (rng wld)
                  (S (rng_pos wld)) (freed wld) (slept wld) (screen wld)).
Proof.
  intros lo hi. unfold bolt_create.
  assert (Hlo : (if Z.quot my 2 <? 2 then 2 else Z.quot my 2) = lo).
  { unfold lo, spec_min_len. destruct (Z.ltb_spec (Z.quot my 2) 2); lia. }
  rewrite Hlo.
  assert (Hhi : (if my - 2 <? lo then lo + 1 else my - 2) = hi) by reflexivity.
  rewrite Hhi.
  assert (Hk : hi - lo + 1 <> 0).
  { unfold hi, code_max_len. fold lo. destruct (Z.ltb_spec (my - 2) lo); lia. }
  unfold bind. cbn [rand]. unfold c_rem.
  destruct (Z.eqb_spec (hi - lo + 1) 0) as [E|_]; [contradiction|].
  reflexivity.
Qed.

Lemma code_max_len_ge my : spec_min_len my <= code_max_len my.
Proof.
  unfold code_max_len.
  destruct (Z.ltb_spec (my - 2) (spec_min_len my)); lia.
Qed.

(** The specification's interval and the code's are the same, except on a
    screen of four rows. *)
Lemma code_max_len_spec my :
  my <> 4 -> code_max_len my = spec_max_len my.
Proof.
  intros H. unfold code_max_len, spec_max_len.
  assert (spec_min_len my = Z.max 2 (Z.quot my 2)) as E by reflexivity.
  destruct (Z.ltb_spec (my - 2) (spec_min_len my)) as [L|L]; [lia|].
  assert (my - 2 <> spec_min_len my); [|lia].
  rewrite E. intros C.
  assert (my = 2 * Z.quot my 2 + Z.rem my 2) by apply Z.quot_rem'.
  assert (0 <= my) by lia.
  pose proof (Z.rem_bound_pos my 2 ltac:(lia) ltac:(lia)).
  lia.
Qed.

(** C5, as stated, fails on a screen of four rows: the stated interval is
    [[2, 3]], and no bolt created there has a target length of 3. *)
Lemma C5_four_rows_never_three :
  spec_min_len 4 = 2 /\ spec_max_len 4 = 3
  /\ ~ exists wld b wld',
        bolt_create 0 0 4 80 wld = Some (b, wld') /\ target_len b = 3.
Proof.
  split; [reflexivity|]. split; [reflexivity|].
  intros (wld & b & wld' & H & Ht).
  rewrite bolt_create_eq in H. injection H as <- _.
  cbn in Ht. rewrite Z.rem_1_r in Ht. discriminate.
Qed.

(** C5 (amended): with [lo = max(2, max_rows/2)] and [hi = max_rows-2],
    or [lo+1] when [max_rows-2 < lo], [bolt_create] always succeeds and
    gives the bolt the target length [lo + rand() % (hi-lo+1)], which lies
    in [[lo, hi]]; every length of [[lo, hi]] is drawn for some result of
    [rand()]; [hi] is the specification's upper bound on every screen but
    one of four rows; and on a screen of 20 rows the bounds are 10 and
    18. *)
Theorem C5_target_len_interval
    (start_row start_col my mx : Z) (wld : World) :
  rand_ok wld ->
  my <= RAND_MAX ->
  let lo := spec_min_len my in
  let hi := code_max_len my in
  (exists b wld',
      bolt_create start_row start_col my mx wld = Some (b, wld')
      /\ target_len b = lo + Z.rem (rng wld (rng_pos wld)) (hi - lo + 1)
      /\ lo <= target_len b <= hi
      /\ (my = 20 -> 10 <= target_len b <= 18)
      /\ growing b = true
      /\ segs b = [mkSegment start_row start_col
                             (clock wld (S (clock_pos wld)))])
  /\ (forall v, lo <= v <= hi ->
        exists wld1 b wld',
          rand_ok wld1
          /\ bolt_create start_row start_col my mx wld1 = Some (b, wld')
          /\ target_len b = v)
  /\ (my <> 4 -> hi = spec_max_len my)
  /\ (my = 20 -> lo = 10 /\ hi = 18).
Proof.
  intros Hr Hmy lo hi.
  pose proof (code_max_len_ge my) as Hle. fold lo hi in Hle.
  assert (Hlo : 2 <= lo) by (unfold lo, spec_min_len; lia).
  assert (Hhi : hi <= lo + 1 \/ hi <= my).
  { unfold hi, code_max_len. fold lo.
    destruct (Z.ltb_spec (my - 2) lo); lia. }
  assert (H20 : my = 20 -> lo = 10 /\ hi = 18).
  { intros ->. split; reflexivity. }
  split; [|split; [|split]].
  - rewrite bolt_create_eq. fold lo hi. do 2 eexists.
    split; [reflexivity|]. cbn [target_len growing segs].
    pose proof (Hr (rng_pos wld)) as [Hr0 _].
    pose proof (Z.rem_bound_pos (rng wld (rng_pos wld)) (hi - lo + 1)
                                Hr0 ltac:(lia)) as Hb.
    split; [lia|]. split; [lia|]. split; [|auto].
    intros E. destruct (H20 E) as [E1 E2]. lia.
  - intros v Hv.
    exists (world_of (fun _ => Dbl.zero) (fun _ => v - lo)).
    rewrite bolt_create_eq. fold lo hi. do 2 eexists.
    split; [|split; [reflexivity|]].
    + intros n. cbn. unfold RAND_MAX in *. lia.
    + cbn. rewrite Z.rem_small by lia. lia.
  - intros H4. apply code_max_len_spec. exact H4.
  - exact H20.
Qed.

Lemma C5_target_len_interval_witness :
  rand_ok (world_of (fun _ => Dbl.zero) (fun _ => 1234567))
  /\ 20 <= RAND_MAX
  /\ exists b wld',
       bolt_create 0 40 20 80
                   (world_of (fun _ => Dbl.zero) (fun _ => 1234567))
       = Some (b, wld')
       /\ 10 <= target_len b <= 18.
Proof.
  assert (H1 : rand_ok (world_of (fun _ => Dbl.zero) (fun _ => 1234567))).
  { intros n. cbn. unfold RAND_MAX. lia. }
  assert (H2 : 20 <= RAND_MAX) by (unfold RAND_MAX; lia).
  split; [exact H1|]. split; [exact H2|].
  destruct (C5_target_len_interval 0 40 80 H1 H2)
    as [(b & wld' & Hc & _ & _ & H20 & _) _].
  exists b, wld'. split; [exact Hc|]. apply H20. reflexivity.
Defined.

(** ** C doubles: an operation on finite numbers is not a NaN, and two
    numbers that are not NaNs are comparable *)

Lemma iter_pos_inv A (P : A -> Prop) (f : A -> A) :
  (forall x, P x -> P (f x)) -> forall p x, P x -> P (iter_pos f p x).
Proof.
  intros Hf. induction p as [p IH|p IH|]; intros x Hx; simpl; auto.
Qed.

Lemma shr_1_nonneg mrs : 0 <= shr_m mrs -> 0 <= shr_m (shr_1 mrs).
Proof.
  destruct mrs as [m r s]. simpl. intros H.
  destruct m as [|[p|p|]|p]; simpl; lia.
Qed.

Lemma shr_fexp_nonneg m e l :
  0 <= m -> 0 <= shr_m (fst (shr_fexp Dbl.prec Dbl.emax m e l)).
Proof.
  intros H. unfold shr_fexp, shr.
  assert (H0 : 0 <= shr_m (shr_record_of_loc m l)).
  { destruct l as [|[]]; exact H. }
  destruct (fexp _ _ _ - e); simpl; auto.
  apply (iter_pos_inv (fun r => 0 <= shr_m r)); auto using shr_1_nonneg.
Qed.

Lemma round_nearest_even_nonneg m l : 0 <= m -> 0 <= round_nearest_even m l.
Proof.
  intros H. destruct l as [|[]]; simpl; try lia.
  destruct (Z.even m); lia.
Qed.

Lemma binary_round_aux_not_nan sx m e l :
  0 <= m -> Dbl.is_nan (binary_round_aux Dbl.prec Dbl.emax sx m e l) = false.
Proof.
  intros H. unfold binary_round_aux.
  pose proof (shr_fexp_nonneg e l H) as H1.
  destruct (shr_fexp Dbl.prec Dbl.emax m e l) as [mrs' e']. simpl in H1.
  pose proof (shr_fexp_nonneg e' loc_Exact
                (round_nearest_even_nonneg (loc_of_shr_record mrs') H1)) as H2.
  destruct (shr_fexp Dbl.prec Dbl.emax _ e' loc_Exact) as [mrs'' e''].
  simpl in H2.
  destruct (shr_m mrs'') as [|p|p]; [reflexivity| |lia].
  destruct (e'' <=? _); reflexivity.
Qed.

Lemma binary_normalize_not_nan m e sz :
  Dbl.is_nan (binary_normalize Dbl.prec Dbl.emax m e sz) = false.
Proof.
  destruct m as [|p|p]; simpl; [reflexivity| |];
    unfold binary_round;
    destruct (shl_align _ _ _) as [mz ez];
    apply binary_round_aux_not_nan; lia.
Qed.

Lemma sub_not_nan a b :
  Dbl.is_finite a = true -> Dbl.is_finite b = true ->
  Dbl.is_nan (Dbl.sub a b) = false.
Proof.
  destruct a as [sa|sa| |sa ma ea], b as [sb|sb| |sb mb eb];
    try discriminate; intros _ _; unfold Dbl.sub; cbn [SFsub].
  - destruct sa, sb; reflexivity.
  - reflexivity.
  - reflexivity.
  - apply binary_normalize_not_nan.
Qed.

Lemma SFcompare_antisym x y :
  SFcompare y x = option_map CompOpp (SFcompare x y).
Proof.
  destruct x as [sx|sx| |sx mx ex], y as [sy|sy| |sy my ey];
    try reflexivity; cbn [SFcompare option_map];
    try (destruct sx; reflexivity); try (destruct sy; reflexivity);
    try (destruct sx, sy; reflexivity).
  destruct sx, sy; try reflexivity; f_equal;
    rewrite (Z.compare_antisym ex ey);
    destruct (ex ?= ey); cbn; try reflexivity;
    rewrite (Pos.compare_cont_antisym); cbn;
    destruct (Pos.compare_cont Eq mx my); reflexivity.
Qed.

Lemma not_le_gt x c :
  Dbl.is_nan x = false -> Dbl.is_nan c = false ->
  Dbl.le x c = negb (Dbl.gt x c).
Proof.
  intros Hx Hc. unfold Dbl.le, Dbl.gt, SFleb, SFltb.
  rewrite (SFcompare_antisym x c).
  destruct (SFcompare x c) as [[]|] eqn:E; cbn; try reflexivity.
  destruct x, c; try discriminate; cbn in E;
    repeat match type of E with context [if ?b then _ else _] => destruct b end;
    discriminate.
Qed.

(** ** Growth of a bolt *)

Lemma reposition_same wld : reposition wld (clock_pos wld) (rng_pos wld) = wld.
Proof. destruct wld; reflexivity. Qed.

Lemma rand_eq wld :
  rand wld = Some (rng wld (rng_pos wld),
                   reposition wld (clock_pos wld) (S (rng_pos wld))).
Proof. reflexivity. Qed.

Lemma now_sec_eq wld :
  now_sec wld = Some (clock wld (clock_pos wld),
                      reposition wld (S (clock_pos wld)) (rng_pos wld)).
Proof. reflexivity. Qed.

Lemma grow_branches_spec n : forall i last t b cx px added log wld,
  0 <= i ->
  exists px' new,
    grow_branches n i last t b cx px added log wld
    = Some (mkBolt (target_len b) (growing b) (last_growth b) (max_y b)
                   (max_x b) (segs b ++ map snd new),
            px', added || (0 <? n)%nat, log ++ new,
            reposition wld (clock_pos wld) (rng_pos wld + n))
    /\ length new = n
    /\ Forall (fun p => birth (snd p) = t) new
    /\ count_primary new = if i =? 0 then Nat.min n 1 else 0%nat.
Proof.
  induction n as [|n IH]; intros i last t b cx px added log wld Hi.
  - exists px, []. cbn [grow_branches]. unfold ret.
    rewrite !app_nil_r, Nat.add_0_r, orb_false_r, reposition_same.
    destruct b. cbn. repeat split; auto.
    destruct (i =? 0); reflexivity.
  - cbn [grow_branches]. unfold bind. rewrite rand_eq.
    set (s := mkSegment _ _ t).
    set (path := if i =? 0 then Primary else Branch).
    edestruct (IH (i + 1) last t (seg_push b s)) as (px' & new & E & Hl & Hb & Hc);
      [lia|].
    rewrite E. exists px', ((path, s) :: new).
    cbn [seg_push target_len growing last_growth max_y max_x segs
         reposition clock clock_pos rng rng_pos freed slept screen
         map snd length].
    rewrite <- !app_assoc. cbn [app].
    replace (rng_pos wld + S n)%nat with (S (rng_pos wld) + n)%nat by lia.
    split; [destruct added; reflexivity|].
    split; [lia|]. split; [constructor; [reflexivity|exact Hb]|].
    unfold count_primary in *. cbn [filter]. unfold is_primary at 1.
    cbn [fst]. unfold path.
    destruct (Z.eqb_spec (i + 1) 0) as [C|_]; [lia|].
    destruct (i =? 0); cbn [length]; rewrite Hc; lia.
Qed.

Lemma seg_at_last b wld :
  segs b <> [] ->
  exists last, seg_at b (seg_count b - 1) wld = Some (last, wld)
               /\ In last (segs b).
Proof.
  intros H. destruct (exists_last H) as (l & a & E).
  exists a. unfold seg_at, seg_count. rewrite E, length_app. cbn [length].
  destruct (Z.ltb_spec (Z.of_nat (length l + 1) - 1) 0) as [C|_]; [lia|].
  replace (Z.to_nat (Z.of_nat (length l + 1) - 1)) with (length l) by lia.
  rewrite nth_error_app2, Nat.sub_diag by lia. cbn.
  split; [reflexivity|]. apply in_or_app. right. left. reflexivity.
Qed.

Lemma count_primary_app l1 l2 :
  count_primary (l1 ++ l2) = (count_primary l1 + count_primary l2)%nat.
Proof. unfold count_primary. rewrite filter_app, length_app. reflexivity. Qed.


Lemma bind_assoc A B C (c : M A) (k : A -> M B) (h : B -> M C) w :
  bind (bind c k) h w = bind c (fun a => bind (k a) h) w.
Proof. unfold bind. destruct (c w) as [[a w1]|]; reflexivity. Qed.

Ltac mstep E := rewrite ?bind_assoc; erewrite bind_eq; [|exact E].

Lemma rand_unit_eq wld :
  rand_unit wld = Some (Dbl.div (Dbl.of_int (rng wld (rng_pos wld))) (Dbl.of_int RAND_MAX),
                        reposition wld (clock_pos wld) (S (rng_pos wld))).
Proof. reflexivity. Qed.

Lemma bolt_grow_spec b t wld :
  segs b <> [] ->
  exists b' log r,
    bolt_grow b t wld = Some ((b', log), reposition wld (clock_pos wld) r)
    /\ (rng_pos wld <= r)%nat
    /\ target_len b' = target_len b
    /\ max_y b' = max_y b /\ max_x b' = max_x b
    /\ last_growth b' = t
    /\ segs b' = segs b ++ map snd log
    /\ Forall (fun p => birth (snd p) = t) log
    /\ (count_primary log <= 1)%nat
    /\ (log <> [] -> seg_count b < target_len b)
    /\ (growing b' = true -> growing b = true /\ seg_count b' < target_len b').
Proof.
  intros Hne. unfold bolt_grow.
  destruct (@seg_at_last (set_last_growth b t) wld Hne) as (last & El & _).
  change (seg_count (set_last_growth b t)) with (seg_count b) in *.
  mstep El.
  cbn [set_last_growth target_len max_y max_x].
  set (fin := fun (b2 : Bolt) (added : bool) =>
     if negb added || (seg_count b2 >=? target_len b2) || (sg_y last >=? max_y b2 - 1)
     then set_growing b2 false else b2).
  assert (Hfin : forall b2 log2 added r2 w',
     w' = reposition wld (clock_pos wld) r2 ->
     (rng_pos wld <= r2)%nat ->
     target_len b2 = target_len b -> max_y b2 = max_y b -> max_x b2 = max_x b ->
     last_growth b2 = t -> growing b2 = growing b ->
     segs b2 = segs b ++ map snd log2 ->
     Forall (fun p => birth (snd p) = t) log2 ->
     (count_primary log2 <= 1)%nat ->
     (log2 <> [] -> seg_count b < target_len b) ->
     exists b' log r,
       Some ((fin b2 added, log2), w')
       = Some ((b', log), reposition wld (clock_pos wld) r)
       /\ (rng_pos wld <= r)%nat
       /\ target_len b' = target_len b
       /\ max_y b' = max_y b /\ max_x b' = max_x b
       /\ last_growth b' = t
       /\ segs b' = segs b ++ map snd log
       /\ Forall (fun p => birth (snd p) = t) log
       /\ (count_primary log <= 1)%nat
       /\ (log <> [] -> seg_count b < target_len b)
       /\ (growing b' = true -> growing b = true /\ seg_count b' < target_len b')).
  { intros b2 log2 added r2 w' -> H1 H2 H3 H4 H5 H6 H7 H8 H9 H10.
    exists (fin b2 added), log2, r2. split; [reflexivity|].
    unfold fin.
    destruct (negb added || (seg_count b2 >=? target_len b2) || (sg_y last >=? max_y b2 - 1)) eqn:Hf.
    - cbn. repeat split; auto; discriminate.
    - repeat split; auto; try congruence.
      apply orb_false_elim in Hf as [Hf _]. apply orb_false_elim in Hf as [_ Hf].
      rewrite Z.geb_leb in Hf. apply Z.leb_gt in Hf. lia. }
  destruct ((seg_count b <? target_len b) && (sg_y last <? max_y b - 1)) eqn:Hc.
  2:{ (* no growth *)
    mstep (eq_refl : ret (mkBolt (target_len b) (growing b) t (max_y b) (max_x b) (segs b), false, @nil Push) wld = _).
    cbn beta iota. unfold ret.
    apply (Hfin _ [] false (rng_pos wld)); auto.
    - symmetry. apply reposition_same.
    - cbn. rewrite app_nil_r. reflexivity.
    - congruence. }
  apply andb_prop in Hc as [Hc1 Hc2]. apply Z.ltb_lt in Hc1.
  rewrite bind_assoc.
  mstep (rand_unit_eq wld).
  set (w1 := reposition wld (clock_pos wld) (S (rng_pos wld))).
  match goal with |- context [bind (if ?c then ?x else ?y) _] =>
    assert (Hbr : exists branches r1,
      (if c then x else y) w1
      = Some (branches, reposition wld (clock_pos wld) r1) /\ (rng_pos wld <= r1)%nat)
  end.
  { destruct (Dbl.lt _ _).
    - mstep (rand_eq w1). unfold ret. do 2 eexists. split; [reflexivity|]. cbn; lia.
    - unfold ret. do 2 eexists. split; [reflexivity|]. cbn; lia. }
  destruct Hbr as (branches & r1 & Ebr & Hr1).
  rewrite bind_assoc. mstep Ebr.
  edestruct (grow_branches_spec (Z.to_nat branches) last t
               (mkBolt (target_len b) (growing b) t (max_y b) (max_x b) (segs b))
               (sg_x last) (sg_x last) false []
               (reposition wld (clock_pos wld) r1) (Z.le_refl 0))
    as (px' & new & Eg & Hl & Hb & Hcp).
  rewrite bind_assoc. mstep Eg. clear Eg.
  cbn [target_len growing last_growth max_y max_x segs reposition clock clock_pos rng rng_pos freed slept screen app orb].
  set (b1 := mkBolt _ _ _ _ _ (segs b ++ map snd new)).
  set (w2 := reposition (reposition _ _ _) _ _).
  assert (Hw2 : w2 = reposition wld (clock_pos wld) (r1 + Z.to_nat branches)) by reflexivity.
  assert (Hr2 : (rng_pos wld <= rng_pos w2)%nat) by (rewrite Hw2; cbn; lia).
  cbn [Z.eqb] in Hcp.
  assert (Hcp1 : (count_primary new <= 1)%nat) by lia.
  rewrite bind_assoc. mstep (rand_unit_eq w2).
  destruct (Dbl.lt _ FORK_CHANCE).
  2:{ mstep (eq_refl : ret (b1, (0 <? Z.to_nat branches)%nat, new) (reposition w2 (clock_pos w2) (S (rng_pos w2))) = _).
      cbn beta iota. unfold ret.
      apply (Hfin b1 new (0 <? Z.to_nat branches)%nat (S (rng_pos w2))); auto. }
  set (w3 := reposition w2 _ _).
  rewrite !bind_assoc. mstep (rand_eq w3).
  set (w4 := reposition w3 _ _).
  set (off0 := Z.rem _ _ - FORK_HORIZONTAL_SPREAD).
  match goal with |- context [bind (if ?c then ?x else ?y) _] =>
    assert (Hoff : exists off r3,
      (if c then x else y) w4
      = Some (off, reposition wld (clock_pos wld) r3) /\ (rng_pos wld <= r3)%nat)
  end.
  { destruct (_ =? 0).
    - mstep (rand_eq w4). unfold ret. do 2 eexists. split; [reflexivity|].
      cbn in *. lia.
    - unfold ret. exists off0, (rng_pos w4). split; [reflexivity|].
      cbn in *. lia. }
  destruct Hoff as (off & r3 & Eo & Hr3).
  mstep Eo.
  destruct (clamp_x b1 (sg_x last + off) =? px').
  - mstep (eq_refl : ret (b1, (0 <? Z.to_nat branches)%nat, new) (reposition wld (clock_pos wld) r3) = _).
    cbn beta iota. unfold ret.
    apply (Hfin b1 new (0 <? Z.to_nat branches)%nat r3); auto.
  - set (sf := mkSegment _ _ t).
    mstep (eq_refl : ret (seg_push b1 sf, true, new ++ [(Fork, sf)]) (reposition wld (clock_pos wld) r3) = _).
    cbn beta iota. unfold ret.
    apply (Hfin (seg_push b1 sf) (new ++ [(Fork, sf)]) true r3); auto.
    + cbn. rewrite map_app, app_assoc. reflexivity.
    + apply Forall_app. split; [exact Hb|]. constructor; [reflexivity|constructor].
    + rewrite count_primary_app. cbn. lia.
Qed.

Lemma any_alive_spec l : forall wld,
  exists alive c,
    any_alive l wld = Some (alive, reposition wld c (rng_pos wld))
    /\ (clock_pos wld <= c <= clock_pos wld + length l)%nat
    /\ (alive = false <->
        forall i sg, nth_error l i = Some sg ->
          Dbl.le (Dbl.sub (clock wld (clock_pos wld + i)%nat) (birth sg))
                 SEGMENT_LIFESPAN = false).
Proof.
  induction l as [|s l IH]; intros wld.
  - exists false, (clock_pos wld). cbn [any_alive]. unfold ret.
    rewrite reposition_same. split; [reflexivity|]. split; [cbn; lia|].
    split; [|reflexivity]. intros _ [|i] sg; discriminate.
  - cbn [any_alive]. mstep (now_sec_eq wld).
    destruct (Dbl.le (Dbl.sub (clock wld (clock_pos wld)) (birth s))
                     SEGMENT_LIFESPAN) eqn:E.
    + exists true, (S (clock_pos wld)). unfold ret.
      split; [reflexivity|]. split; [cbn; lia|].
      split; [discriminate|]. intros H.
      specialize (H 0%nat s eq_refl). rewrite Nat.add_0_r in H. congruence.
    + destruct (IH (reposition wld (S (clock_pos wld)) (rng_pos wld)))
        as (alive & c & Ea & Hc & Hiff).
      exists alive, c. rewrite Ea. cbn in Hc |- *.
      split; [reflexivity|]. split; [lia|].
      rewrite Hiff. cbn [reposition clock clock_pos]. split.
      * intros H [|i] sg Hn.
        -- cbn in Hn. injection Hn as <-. rewrite Nat.add_0_r. exact E.
        -- cbn in Hn. specialize (H i sg Hn).
           replace (clock_pos wld + S i)%nat with (S (clock_pos wld) + i)%nat by lia.
           exact H.
      * intros H i sg Hn. specialize (H (S i) sg Hn).
        replace (clock_pos wld + S i)%nat with (S (clock_pos wld) + i)%nat in H by lia.
        exact H.
Qed.

Lemma le_false_expired now sg :
  Dbl.is_finite now = true -> Dbl.is_finite (birth sg) = true ->
  Dbl.le (Dbl.sub now (birth sg)) SEGMENT_LIFESPAN = false
  <-> expired now sg = true.
Proof.
  intros Hn Hb. unfold expired.
  rewrite (@not_le_gt (Dbl.sub now (birth sg)) SEGMENT_LIFESPAN);
    [|apply sub_not_nan; assumption|reflexivity].
  destruct (Dbl.gt _ _); cbn; split; congruence.
Qed.

Lemma bolt_update_log_run b wld :
  segs b <> [] ->
  exists b' alive log c r,
    bolt_update_log b wld = Some ((b', alive, log), reposition wld c r)
    /\ (clock_pos wld < c)%nat /\ (rng_pos wld <= r)%nat
    /\ grows_to b b' log
    /\ Forall (fun p => birth (snd p) = clock wld (clock_pos wld)) log
    /\ (alive = false <->
        forall i sg, nth_error (segs b') i = Some sg ->
          Dbl.le (Dbl.sub (clock wld (S (clock_pos wld) + i)%nat) (birth sg))
                 SEGMENT_LIFESPAN = false).
Proof.
  intros Hne. unfold bolt_update_log.
  mstep (now_sec_eq wld).
  set (t := clock wld (clock_pos wld)).
  set (w1 := reposition wld (S (clock_pos wld)) (rng_pos wld)).
  assert (Hg : exists b1 log r1,
    (if growing b && Dbl.ge (Dbl.sub t (last_growth b)) LIGHTNING_GROWTH_DELAY
     then bolt_grow b t else ret (b, [])) w1
    = Some ((b1, log), reposition wld (S (clock_pos wld)) r1)
    /\ (rng_pos wld <= r1)%nat /\ grows_to b b1 log
    /\ Forall (fun p => birth (snd p) = t) log).
  { destruct (growing b && Dbl.ge _ _) eqn:Eg.
    - apply andb_prop in Eg as [Eg _].
      destruct (@bolt_grow_spec b t w1 Hne)
        as (b1 & log & r1 & E & Hr & H1 & H2 & H3 & H4 & H5 & H6 & H7 & H8 & H9).
      exists b1, log, r1. split; [exact E|]. split; [exact Hr|].
      split; [|exact H6].
      unfold grows_to. repeat split; auto; apply H9; assumption.
    - exists b, [], (rng_pos wld). unfold ret. split; [reflexivity|].
      split; [lia|]. split; [|constructor].
      unfold grows_to. cbn. rewrite app_nil_r.
      repeat split; auto; try lia; congruence. }
  destruct Hg as (b1 & log & r1 & Eg & Hr1 & Hgr & Hbirth).
  mstep Eg. cbn beta iota.
  destruct (any_alive_spec (segs b1) (reposition wld (S (clock_pos wld)) r1))
    as (alive & c & Ea & Hc & Hiff).
  mstep Ea. unfold ret. cbn in Hc |- *.
  exists b1, alive, log, c, r1. split; [reflexivity|].
  split; [lia|]. split; [lia|]. split; [exact Hgr|]. split; [exact Hbirth|].
  exact Hiff.
Qed.

Lemma grows_to_nonempty b b' log :
  grows_to b b' log -> segs b <> [] -> segs b' <> [].
Proof.
  intros (_ & _ & _ & E & _) H C. rewrite E in C.
  apply app_eq_nil in C as [C _]. contradiction.
Qed.

Lemma bolt_update_log_spec b wld :
  bolt_ok b -> clock_ok wld ->
  exists b' alive log c r,
    bolt_update_log b wld = Some ((b', alive, log), reposition wld c r)
    /\ (clock_pos wld < c)%nat /\ (rng_pos wld <= r)%nat
    /\ grows_to b b' log
    /\ bolt_ok b'
    /\ (alive = false <->
        all_expired (clock wld) (S (clock_pos wld)) (segs b')).
Proof.
  intros [Hne Hfin] Hclk.
  destruct (@bolt_update_log_run b wld Hne)
    as (b' & alive & log & c & r & E & Hc & Hr & Hg & Hbirth & Hiff).
  assert (Hfin' : Forall (fun sg => Dbl.is_finite (birth sg) = true) (segs b')).
  { destruct Hg as (_ & _ & _ & Es & _). rewrite Es.
    apply Forall_app. split; [exact Hfin|].
    apply Forall_map. eapply Forall_impl; [|exact Hbirth].
    intros p Hp. cbn beta. rewrite Hp. apply Hclk. }
  exists b', alive, log, c, r. split; [exact E|].
  split; [exact Hc|]. split; [exact Hr|]. split; [exact Hg|].
  split; [split; [eapply grows_to_nonempty; eassumption|exact Hfin']|].
  rewrite Hiff. unfold all_expired.
  split; intros H i sg Hn; specialize (H i sg Hn).
  - apply le_false_expired in H; auto.
    eapply Forall_forall in Hfin'; [exact Hfin'|]. eapply nth_error_In, Hn.
  - apply le_false_expired; auto.
    eapply Forall_forall in Hfin'; [exact Hfin'|]. eapply nth_error_In, Hn.
Qed.

Lemma bolt_update_spec b wld :
  bolt_ok b -> clock_ok wld ->
  exists b' alive log c r,
    bolt_update b wld = Some ((b', alive), reposition wld c r)
    /\ bolt_update_log b wld = Some ((b', alive, log), reposition wld c r)
    /\ (clock_pos wld < c)%nat /\ (rng_pos wld <= r)%nat
    /\ grows_to b b' log
    /\ bolt_ok b'
    /\ (alive = false <->
        all_expired (clock wld) (S (clock_pos wld)) (segs b')).
Proof.
  intros Hb Hc.
  destruct (bolt_update_log_spec Hb Hc)
    as (b' & alive & log & c & r & E & H).
  exists b', alive, log, c, r. split; [|split; [exact E|exact H]].
  unfold bolt_update. mstep E. reflexivity.
Qed.

Lemma sweep_bolts_pass bs : forall wld,
  clock_ok wld -> Forall bolt_ok bs ->
  exists bs' wld',
    sweep bolt_update (fun b => free (segs b)) bs wld = Some (bs', wld')
    /\ bolts_pass wld bs bs' wld'
    /\ Forall bolt_ok bs'
    /\ clock wld' = clock wld /\ rng wld' = rng wld.
Proof.
  induction bs as [|b bs IH]; intros wld Hc Hok.
  - exists [], wld. cbn. unfold ret. repeat split; auto. constructor.
  - inversion Hok as [|? ? Hb Hbs]; subst.
    destruct (bolt_update_spec Hb Hc)
      as (b' & alive & log & c & r & E & _ & Hcp & Hrp & Hg & Hb' & Hiff).
    cbn [sweep]. mstep E. cbn beta iota.
    set (w1 := reposition wld c r) in *.
    assert (Hc1 : clock_ok w1) by exact Hc.
    destruct alive.
    + destruct (IH w1 Hc1 Hbs) as (bs' & wld' & Es & Hp & Hok' & Hk1 & Hk2).
      mstep Es. unfold ret. exists (b' :: bs'), wld'.
      split; [reflexivity|]. split; [|split; [constructor; assumption|]].
      * eapply pass_keep; [exact E| |exact Hp].
        intros C. apply Hiff in C. discriminate.
      * split; [exact Hk1|exact Hk2].
    + set (w2 := mkWorld (clock w1) (clock_pos w1) (rng w1) (rng_pos w1)
                         (freed w1 ++ [segs b']) (slept w1) (screen w1)).
      assert (Ef : free (segs b') w1 = Some (tt, w2)) by reflexivity.
      assert (Hc2 : clock_ok w2) by exact Hc.
      destruct (IH w2 Hc2 Hbs) as (bs' & wld' & Es & Hp & Hok' & Hk1 & Hk2).
      mstep Ef. exists bs', wld'. split; [exact Es|].
      split; [|split; [assumption|]].
      * eapply pass_remove; [exact E| |exact Ef|exact Hp].
        apply Hiff. reflexivity.
      * split; [exact Hk1|exact Hk2].
Qed.

Lemma bolts_pass_length wld bs bs' wld' :
  bolts_pass wld bs bs' wld' -> (length bs' <= length bs)%nat.
Proof. induction 1; cbn; lia. Qed.

Lemma step_bolts_spec s wld :
  clock_ok wld -> Forall bolt_ok (bolts s) ->
  exists bs' wld',
    step_bolts s wld = Some (set_bolts s bs', wld')
    /\ bolts_pass wld (bolts s) bs' wld'
    /\ Forall bolt_ok bs'
    /\ clock wld' = clock wld /\ rng wld' = rng wld.
Proof.
  intros Hc Hok.
  destruct (sweep_bolts_pass Hc Hok) as (bs' & wld' & E & H).
  exists bs', wld'. split; [|exact H].
  unfold step_bolts. rewrite <- compact_sweep in E. mstep E. reflexivity.
Qed.

(** ** The tapes are kept *)

Lemma same_tapes_refl w : same_tapes w w.
Proof. split; reflexivity. Qed.

Lemma same_tapes_trans w1 w2 w3 :
  same_tapes w1 w2 -> same_tapes w2 w3 -> same_tapes w1 w3.
Proof. intros [A B] [C D]. split; congruence. Qed.

Lemma kt_ret A (a : A) : keeps_tapes (ret a).
Proof. intros w a' w' H. inv_ret H. apply same_tapes_refl. Qed.

Lemma kt_fail A : keeps_tapes (@fail A).
Proof. intros w a w' H. discriminate. Qed.

Lemma kt_bind A B (c : M A) (k : A -> M B) :
  keeps_tapes c -> (forall a, keeps_tapes (k a)) -> keeps_tapes (bind c k).
Proof.
  intros Hc Hk w b w' H. minv H.
  eapply same_tapes_trans; [eapply Hc|eapply Hk]; eassumption.
Qed.

Lemma kt_now_sec : keeps_tapes now_sec.
Proof. intros w a w' H. injection H as _ <-. split; reflexivity. Qed.

Lemma kt_rand : keeps_tapes rand.
Proof. intros w a w' H. injection H as _ <-. split; reflexivity. Qed.

Lemma kt_free p : keeps_tapes (free p).
Proof. intros w a w' H. injection H as _ <-. split; reflexivity. Qed.

Lemma kt_nanosleep r : keeps_tapes (nanosleep r).
Proof. intros w a w' H. injection H as _ <-. split; reflexivity. Qed.

Lemma kt_term op : keeps_tapes (term op).
Proof. intros w a w' H. injection H as _ <-. split; reflexivity. Qed.

Lemma kt_c_rem a b : keeps_tapes (c_rem a b).
Proof. unfold c_rem. destruct (b =? 0); [apply kt_fail|apply kt_ret]. Qed.

Create HintDb tapes.
#[export] Hint Resolve kt_ret kt_fail kt_now_sec kt_rand kt_free kt_nanosleep
  kt_term kt_c_rem : tapes.

(** Decompose a computation into its binds and branches. *)
Ltac kt :=
  repeat first
    [ apply kt_bind; [|intros]
    | solve [auto with tapes]
    | progress cbv zeta
    | match goal with
      | |- keeps_tapes (if ?c then _ else _) => destruct c
      | |- keeps_tapes (match ?x with _ => _ end) => destruct x
      | |- keeps_tapes (let '(_, _) := ?x in _) => destruct x
      end ].

Lemma kt_rand_unit : keeps_tapes rand_unit.
Proof. unfold rand_unit. kt. Qed.
#[export] Hint Resolve kt_rand_unit : tapes.

Lemma kt_sleep_sec s : keeps_tapes (sleep_sec s).
Proof. unfold sleep_sec. kt. Qed.
#[export] Hint Resolve kt_sleep_sec : tapes.

Lemma kt_seg_at b i : keeps_tapes (seg_at b i).
Proof. unfold seg_at. kt. Qed.

Lemma kt_arr_at A (arr : list A) i : keeps_tapes (arr_at arr i).
Proof. unfold arr_at. kt. Qed.
#[export] Hint Resolve kt_seg_at kt_arr_at : tapes.

Lemma kt_bolt_create a b c d : keeps_tapes (bolt_create a b c d).
Proof. unfold bolt_create. kt. Qed.
#[export] Hint Resolve kt_bolt_create : tapes.

Lemma kt_grow_branches n : forall i last t b cx px added log,
  keeps_tapes (grow_branches n i last t b cx px added log).
Proof. induction n; intros; cbn [grow_branches]; kt. Qed.
#[export] Hint Resolve kt_grow_branches : tapes.

Lemma kt_bolt_grow b t : keeps_tapes (bolt_grow b t).
Proof. unfold bolt_grow. kt. Qed.
#[export] Hint Resolve kt_bolt_grow : tapes.

Lemma kt_any_alive l : keeps_tapes (any_alive l).
Proof. induction l; cbn [any_alive]; kt. Qed.
#[export] Hint Resolve kt_any_alive : tapes.

Lemma kt_bolt_update_log b : keeps_tapes (bolt_update_log b).
Proof. unfold bolt_update_log. kt. Qed.
#[export] Hint Resolve kt_bolt_update_log : tapes.

Lemma kt_bolt_update b : keeps_tapes (bolt_update b).
Proof. unfold bolt_update. kt. Qed.
#[export] Hint Resolve kt_bolt_update : tapes.

Lemma kt_draw_segments r c t a l : keeps_tapes (draw_segments r c t a l).
Proof. induction l; cbn [draw_segments]; unfold draw_segment; kt. Qed.
#[export] Hint Resolve kt_draw_segments : tapes.

Lemma kt_bolt_draw r c b a : keeps_tapes (bolt_draw r c b a).
Proof. unfold bolt_draw. kt. Qed.
#[export] Hint Resolve kt_bolt_draw : tapes.

Lemma kt_free_all l : keeps_tapes (free_all l).
Proof. induction l; cbn [free_all]; kt. Qed.
#[export] Hint Resolve kt_free_all : tapes.

Lemma kt_sweep A (visit : A -> M (A * bool)) (discard : A -> M unit) v :
  (forall a, keeps_tapes (visit a)) -> (forall a, keeps_tapes (discard a)) ->
  keeps_tapes (sweep visit discard v).
Proof. intros Hv Hd. induction v; cbn [sweep]; kt. Qed.

Lemma kt_compact A (visit : A -> M (A * bool)) (discard : A -> M unit) v :
  (forall a, keeps_tapes (visit a)) -> (forall a, keeps_tapes (discard a)) ->
  keeps_tapes (compact visit discard v).
Proof.
  intros Hv Hd w a w' H. rewrite compact_sweep in H.
  eapply kt_sweep; eassumption.
Qed.

Lemma kt_spawn_drops n : forall c lo hi r,
  keeps_tapes (spawn_drops n c lo hi r).
Proof. induction n; intros; cbn [spawn_drops]; kt. Qed.
#[export] Hint Resolve kt_spawn_drops : tapes.

Lemma kt_draw_bolts r c a l : keeps_tapes (draw_bolts r c a l).
Proof. induction l; cbn [draw_bolts]; kt. Qed.

Lemma kt_draw_rain s l : keeps_tapes (draw_rain s l).
Proof. induction l; cbn [draw_rain]; unfold draw_drop; kt. Qed.
#[export] Hint Resolve kt_draw_bolts kt_draw_rain : tapes.

Lemma kt_step_bolts s : keeps_tapes (step_bolts s).
Proof.
  unfold step_bolts. apply kt_bind; [apply kt_compact; intros; kt|intros; kt].
Qed.

Lemma kt_step_rain s : keeps_tapes (step_rain s).
Proof.
  unfold step_rain. apply kt_bind; [apply kt_compact; intros; kt|intros; kt].
Qed.
#[export] Hint Resolve kt_step_bolts kt_step_rain : tapes.

Lemma kt_run_phase p s : keeps_tapes (run_phase p s).
Proof.
  destruct p; cbn [run_phase]; auto with tapes;
    unfold resize_step, toggle_step, pace_step, spawn_bolt_step,
           spawn_rain_step, render;
    kt.
Qed.

(** ** The steps of the loop and the bolt store *)

Lemma bolt_update_run b wld :
  segs b <> [] ->
  exists b' alive wld',
    bolt_update b wld = Some ((b', alive), wld') /\ segs b' <> [].
Proof.
  intros Hne.
  destruct (@bolt_update_log_run b wld Hne)
    as (b' & alive & log & c & r & E & _ & _ & Hg & _).
  exists b', alive, (reposition wld c r).
  split; [unfold bolt_update; mstep E; reflexivity|].
  eapply grows_to_nonempty; eassumption.
Qed.

Lemma sweep_bolts_run bs : forall wld,
  Forall (fun b => segs b <> []) bs ->
  exists bs' wld',
    sweep bolt_update (fun b => free (segs b)) bs wld = Some (bs', wld')
    /\ Forall (fun b => segs b <> []) bs'
    /\ (length bs' <= length bs)%nat.
Proof.
  induction bs as [|b bs IH]; intros wld Hok.
  - exists [], wld. cbn. unfold ret. auto.
  - inversion Hok as [|? ? Hb Hbs]; subst.
    destruct (@bolt_update_run b wld Hb) as (b' & alive & w1 & E & Hb').
    cbn [sweep]. mstep E. cbn beta iota.
    destruct alive.
    + destruct (IH w1 Hbs) as (bs' & wld' & Es & Hok' & Hl).
      mstep Es. unfold ret. exists (b' :: bs'), wld'.
      split; [reflexivity|]. split; [constructor; assumption|cbn; lia].
    + mstep (eq_refl : free (segs b') w1 = Some (tt, add_freed w1 [segs b'])).
      destruct (IH (add_freed w1 [segs b']) Hbs) as (bs' & wld' & Es & Hok' & Hl).
      exists bs', wld'. split; [exact Es|]. split; [assumption|cbn; lia].
Qed.

Lemma step_bolts_run s wld :
  Forall (fun b => segs b <> []) (bolts s) ->
  exists bs' wld',
    step_bolts s wld = Some (set_bolts s bs', wld')
    /\ Forall (fun b => segs b <> []) bs'
    /\ (length bs' <= length (bolts s))%nat.
Proof.
  intros Hok.
  destruct (@sweep_bolts_run (bolts s) wld Hok) as (bs' & wld' & E & H).
  exists bs', wld'. split; [|exact H].
  unfold step_bolts. rewrite <- compact_sweep in E. mstep E. reflexivity.
Qed.

(** What [spawn_bolt_step] does when it succeeds: nothing, or, in
    thunderstorm mode and with fewer than three bolts in the store, the
    push of one bolt made by [bolt_create] for the current screen. *)
Lemma spawn_bolt_step_inv s wld s' wld' :
  spawn_bolt_step s wld = Some (s', wld') ->
  s' = s
  \/ (thunder s = true /\ bolt_count s < 3
      /\ exists sr sc w1 b,
           bolt_create sr sc (g_rows s) (g_cols s) w1 = Some (b, wld')
           /\ s' = set_bolts s (bolts s ++ [b])).
Proof.
  unfold spawn_bolt_step. intros H. minv H.
  destruct (thunder s && (bolt_count s <? 3)) eqn:Ec.
  - apply andb_prop in Ec as [Et Ec]. apply Z.ltb_lt in Ec.
    destruct a.
    + right. split; [exact Et|]. split; [exact Ec|].
      minv H. minv H. minv H. minv H. minv H. inv_ret H.
      do 4 eexists. split; [eassumption|reflexivity].
    + left. inv_ret H. reflexivity.
  - inv_ret H0. left. inv_ret H. reflexivity.
Qed.

Lemma free_all_eq l : forall wld,
  free_all l wld = Some (tt, add_freed wld (map segs l)).
Proof.
  induction l as [|b l IH]; intros wld.
  - cbn. unfold ret, add_freed. rewrite app_nil_r. destruct wld; reflexivity.
  - cbn [free_all map].
    mstep (eq_refl : free (segs b) wld = Some (tt, add_freed wld [segs b])).
    rewrite IH. unfold add_freed. cbn. rewrite <- app_assoc. reflexivity.
Qed.

Lemma resize_step_eq dims s wld :
  resize_step dims s wld
  = if g_resized s then
      Some (mkState (fst dims) (snd dims) false [] [] (thunder s) (last s)
                    (rain_attr s) (light_attr s),
            add_freed (add_screen wld [OpEndwin; OpRefresh; OpClear])
                      (map segs (bolts s)))
    else Some (s, wld).
Proof.
  unfold resize_step. destruct (g_resized s); [|reflexivity].
  mstep (term_eq OpEndwin wld).
  mstep (term_eq OpRefresh (add_screen wld [OpEndwin])).
  mstep (term_eq OpClear (add_screen (add_screen wld [OpEndwin]) [OpRefresh])).
  rewrite !add_screen_app. cbn [app].
  mstep (free_all_eq (bolts s) (add_screen wld [OpEndwin; OpRefresh; OpClear])).
  reflexivity.
Qed.

Lemma toggle_step_eq ch s wld :
  toggle_step ch s wld
  = if is_toggle ch
    then Some (set_thunder s (negb (thunder s)), add_screen wld [OpClear])
    else Some (s, wld).
Proof. unfold toggle_step. destruct (is_toggle ch); reflexivity. Qed.

Lemma pace_step_bolts s wld s' wld' :
  pace_step s wld = Some (s', wld') -> exists t, s' = set_last s t.
Proof.
  unfold pace_step. intros H. minv H. minv H. minv H. inv_ret H. eauto.
Qed.

Lemma spawn_rain_step_inv s wld s' wld' :
  spawn_rain_step s wld = Some (s', wld') -> exists r, s' = set_rain s r.
Proof.
  unfold spawn_rain_step. intros H. minv H.
  destruct (Dbl.lt a _).
  - minv H. minv H. inv_ret H. eauto.
  - inv_ret H. exists (rain s'). destruct s'; reflexivity.
Qed.

Lemma phase_store_ok p s wld s' wld' :
  run_phase p s wld = Some (s', wld') -> store_ok s -> store_ok s'.
Proof.
  intros H [Hne Hn]. unfold store_ok, bolt_count in *.
  destruct p; cbn [run_phase] in H.
  - rewrite resize_step_eq in H. destruct (g_resized s);
      injection H as <- _; cbn; auto. split; [constructor|lia].
  - rewrite toggle_step_eq in H. destruct (is_toggle ch);
      injection H as <- _; cbn; auto.
  - apply pace_step_bolts in H as [t ->]. cbn. auto.
  - apply spawn_bolt_step_inv in H
      as [->|(_ & Hlt & sr & sc & w1 & b & Hb & ->)]; [auto|].
    rewrite bolt_create_eq in Hb. injection Hb as <- _.
    cbn [bolts set_bolts]. unfold bolt_count in Hlt.
    split.
    + apply Forall_app. split; [exact Hne|]. constructor; [|constructor].
      cbn. discriminate.
    + rewrite length_app. cbn. lia.
  - destruct (@step_bolts_run s wld Hne) as (bs' & w2 & E & Hok & Hl).
    rewrite E in H. injection H as <- _. cbn. split; [exact Hok|lia].
  - apply spawn_rain_step_inv in H as [r ->]. cbn. auto.
  - rewrite step_rain_eq in H. injection H as <- _. cbn. auto.
  - minv H. inv_ret H. auto.
Qed.

Lemma reachable_store_ok s wld : reachable s wld -> store_ok s.
Proof.
  induction 1 as [| |p s wld s' wld' _ IH Hp].
  - split; [constructor|cbn; lia].
  - destruct IHreachable. split; assumption.
  - eapply phase_store_ok; eassumption.
Qed.

(** ** Runs of the loop go through reachable points *)

Lemma frame_reachable dims ch s wld s' running wld' :
  frame dims ch s wld = Some ((s', running), wld') ->
  reachable s wld -> reachable s' wld'.
Proof.
  unfold frame. intros H Hr. minv H.
  assert (R0 : reachable a w) by (eapply (reach_phase (PResize dims)); eassumption).
  destruct (is_quit ch); [inv_ret H; exact R0|].
  minv H.
  assert (R1 : reachable a0 w0) by (eapply (reach_phase (PToggle ch)); eassumption).
  minv H.
  assert (R2 : reachable a1 w1) by (eapply (reach_phase PPace); eassumption).
  minv H.
  assert (R3 : reachable a2 w2) by (eapply (reach_phase PSpawnBolt); eassumption).
  minv H.
  assert (R4 : reachable a3 w3) by (eapply (reach_phase PStepBolts); eassumption).
  minv H.
  assert (R5 : reachable a4 w4) by (eapply (reach_phase PSpawnRain); eassumption).
  minv H.
  assert (R6 : reachable a5 w5) by (eapply (reach_phase PStepRain); eassumption).
  minv H. inv_ret H.
  eapply (reach_phase PRender); [exact R6|].
  cbn [run_phase]. mstep H7. destruct a6. reflexivity.
Qed.

Lemma main_loop_reachable evs : forall s wld s' running wld',
  main_loop evs s wld = Some ((s', running), wld') ->
  reachable s wld -> reachable s' wld'.
Proof.
  induction evs as [|[|dims ch] evs IH]; intros s wld s' running wld' H Hr;
    cbn [main_loop] in H.
  - inv_ret H. exact Hr.
  - eapply IH; [exact H|]. apply reach_winch. exact Hr.
  - minv H. destruct a as [s1 r1].
    assert (R : reachable s1 w) by (eapply frame_reachable; eassumption).
    destruct r1; [eapply IH; eassumption|]. inv_ret H. exact R.
Qed.

Lemma phase_bolt_count p s wld s' wld' :
  run_phase p s wld = Some (s', wld') ->
  Forall (fun b => segs b <> []) (bolts s) ->
  bolt_count s' <= bolt_count s
  \/ (p = PSpawnBolt /\ thunder s = true /\ bolt_count s < 3
      /\ bolt_count s' = bolt_count s + 1).
Proof.
  intros H Hne. unfold bolt_count.
  destruct p; cbn [run_phase] in H.
  - left. rewrite resize_step_eq in H. destruct (g_resized s);
      injection H as <- _; cbn; lia.
  - left. rewrite toggle_step_eq in H. destruct (is_toggle ch);
      injection H as <- _; cbn; lia.
  - left. apply pace_step_bolts in H as [t ->]. cbn. lia.
  - apply spawn_bolt_step_inv in H
      as [->|(Ht & Hlt & sr & sc & w1 & b & Hb & ->)]; [left; lia|].
    right. split; [reflexivity|]. split; [exact Ht|]. split; [exact Hlt|].
    cbn. rewrite length_app. cbn. lia.
  - left. destruct (@step_bolts_run s wld Hne) as (bs' & w2 & E & Hok & Hl).
    rewrite E in H. injection H as <- _. cbn. lia.
  - left. apply spawn_rain_step_inv in H as [r ->]. cbn. lia.
  - left. rewrite step_rain_eq in H. injection H as <- _. cbn. lia.
  - left. minv H. inv_ret H. lia.
Qed.

(** C10: at every point of a run the store holds at most three bolts; a
    step of the loop taken from there leaves at most three; and the only
    step that adds to the store is the spawn, which adds one bolt, in
    thunderstorm mode, to a store of fewer than three. *)
Theorem C10_at_most_three_bolts (s : State) (wld : World) :
  reachable s wld ->
  bolt_count s <= 3
  /\ forall p s' wld',
       run_phase p s wld = Some (s', wld') ->
       bolt_count s' <= 3
       /\ (bolt_count s' <= bolt_count s
           \/ (p = PSpawnBolt /\ thunder s = true /\ bolt_count s < 3
               /\ bolt_count s' = bolt_count s + 1)).
Proof.
  intros Hr. destruct (reachable_store_ok Hr) as [Hne Hn].
  split; [exact Hn|]. intros p s' wld' Hp.
  split.
  - apply (reachable_store_ok (reach_phase p Hr Hp)).
  - eapply phase_bolt_count; eassumption.
Qed.

(** ** Births are readings of the clock *)

Lemma clock_ok_tapes w w' : same_tapes w w' -> clock_ok w' -> clock_ok w.
Proof. intros [E _] H n. rewrite <- E. apply H. Qed.

Lemma clock_ok_tapes' w w' : same_tapes w w' -> clock_ok w -> clock_ok w'.
Proof. intros [E _] H n. rewrite E. apply H. Qed.

Lemma phase_bolt_ok p s wld s' wld' :
  run_phase p s wld = Some (s', wld') -> clock_ok wld ->
  Forall bolt_ok (bolts s) -> Forall bolt_ok (bolts s').
Proof.
  intros H Hc Hok.
  destruct p; cbn [run_phase] in H.
  - rewrite resize_step_eq in H. destruct (g_resized s);
      injection H as <- _; cbn; auto.
  - rewrite toggle_step_eq in H. destruct (is_toggle ch);
      injection H as <- _; cbn; auto.
  - apply pace_step_bolts in H as [t ->]. cbn. auto.
  - pose proof (kt_run_phase PSpawnBolt s _ H) as Hk.
    apply spawn_bolt_step_inv in H
      as [->|(_ & Hlt & sr & sc & w1 & b & Hb & ->)]; [auto|].
    pose proof (kt_bolt_create _ _ _ _ _ Hb) as Hk1.
    rewrite bolt_create_eq in Hb. injection Hb as <- _.
    cbn [bolts set_bolts].
    apply Forall_app. split; [exact Hok|]. constructor; [|constructor].
    split; cbn; [discriminate|]. constructor; [|constructor]. cbn.
    assert (Hc1 : clock_ok w1).
    { intros n. destruct Hk as [E1 _], Hk1 as [E2 _].
      rewrite E1 in E2. rewrite <- E2. apply Hc. }
    apply Hc1.
  - destruct (step_bolts_spec s Hc Hok) as (bs' & w2 & E & _ & Hok' & _).
    rewrite E in H. injection H as <- _. cbn. exact Hok'.
  - apply spawn_rain_step_inv in H as [r ->]. cbn. auto.
  - rewrite step_rain_eq in H. injection H as <- _. cbn. auto.
  - minv H. inv_ret H. auto.
Qed.

Lemma reachable_bolt_ok s wld :
  reachable s wld -> clock_ok wld -> Forall bolt_ok (bolts s).
Proof.
  induction 1 as [| |p s wld s' wld' _ IH Hp]; intros Hc.
  - constructor.
  - cbn. auto.
  - pose proof (kt_run_phase p s _ Hp) as Hk.
    assert (Hc0 : clock_ok wld) by (eapply clock_ok_tapes; eassumption).
    eapply phase_bolt_ok; eauto.
Qed.

(** C1: a bolt is created with one segment; at every point of a run, and
    after any step of the loop taken from there, every bolt of the store
    has at least one segment; and, the clock giving numbers, the pass of
    the frame loop over the store succeeds and treats the bolts one by
    one: a bolt leaves the store, its segment array freed, when every
    segment has, at the reading of the clock taken for it in the liveness
    check, an age strictly greater than 0.8 seconds; otherwise it
    stays. *)
Theorem C1_bolt_lifetime (s : State) (wld : World) :
  reachable s wld ->
  (forall sr sc my mx w b w',
      bolt_create sr sc my mx w = Some (b, w') -> length (segs b) = 1%nat)
  /\ Forall (fun b => segs b <> []) (bolts s)
  /\ (forall p s' wld',
        run_phase p s wld = Some (s', wld') ->
        Forall (fun b => segs b <> []) (bolts s'))
  /\ (clock_ok wld ->
      exists bs' wld',
        step_bolts s wld = Some (set_bolts s bs', wld')
        /\ bolts_pass wld (bolts s) bs' wld').
Proof.
  intros Hr. split; [|split; [|split]].
  - intros sr sc my mx w b w' H. rewrite bolt_create_eq in H.
    injection H as <- _. reflexivity.
  - apply (reachable_store_ok Hr).
  - intros p s' wld' Hp. apply (reachable_store_ok (reach_phase p Hr Hp)).
  - intros Hc.
    destruct (step_bolts_spec s Hc (reachable_bolt_ok Hr Hc))
      as (bs' & wld' & E & Hp & _).
    exists bs', wld'. split; assumption.
Qed.

Lemma tape_forallb A (p : A -> bool) l d :
  forallb p l = true -> p d = true -> forall n, p (tape l d n) = true.
Proof.
  intros Hl Hd n. unfold tape.
  destruct (nth_in_or_default n l d) as [Hin|E]; [|rewrite E; exact Hd].
  rewrite forallb_forall in Hl. apply Hl. exact Hin.
Qed.

Lemma demo_clock_ok : forall n, Dbl.is_finite (demo_clock n) = true.
Proof. apply tape_forallb; vm_compute; reflexivity. Qed.

Lemma demo_run_1 :
  main_loop [Frame (5, 40) 116] demo_start demo_world
  = Some ((demo_state_1, true), demo_world_1).
Proof. vm_compute. reflexivity. Qed.

Lemma C1_bolt_lifetime_witness :
  reachable demo_state_1 demo_world_1
  /\ clock_ok demo_world_1
  /\ exists bs' wld',
       step_bolts demo_state_1 demo_world_1
       = Some (set_bolts demo_state_1 bs', wld')
       /\ bolts_pass demo_world_1 (bolts demo_state_1) bs' wld'.
Proof.
  assert (Hr : reachable demo_state_1 demo_world_1).
  { eapply main_loop_reachable; [exact demo_run_1|apply reach_start]. }
  assert (Hc : clock_ok demo_world_1) by exact demo_clock_ok.
  split; [exact Hr|]. split; [exact Hc|].
  destruct (C1_bolt_lifetime Hr) as (_ & _ & _ & H). exact (H Hc).
Defined.

Lemma C10_at_most_three_bolts_witness :
  reachable demo_state_1 demo_world_1
  /\ bolt_count demo_state_1 <= 3
  /\ forall s' wld',
       spawn_bolt_step demo_state_1 demo_world_1 = Some (s', wld') ->
       bolt_count s' <= 3.
Proof.
  assert (Hr : reachable demo_state_1 demo_world_1).
  { eapply main_loop_reachable; [exact demo_run_1|apply reach_start]. }
  split; [exact Hr|].
  destruct (C10_at_most_three_bolts Hr) as [H1 H2].
  split; [exact H1|].
  intros s' wld' Hp. apply (H2 PSpawnBolt s' wld' Hp).
Defined.

(** ** Thunderstorm mode off: the store only loses bolts *)

Lemma grown_refl b : grown b b.
Proof. repeat split; auto. exists []. rewrite app_nil_r. reflexivity. Qed.

Lemma grown_trans b1 b2 b3 : grown b1 b2 -> grown b2 b3 -> grown b1 b3.
Proof.
  intros (A1 & A2 & A3 & m1 & A4) (B1 & B2 & B3 & m2 & B4).
  repeat split; try congruence.
  exists (m1 ++ m2). rewrite B4, A4, app_assoc. reflexivity.
Qed.

Lemma grows_to_grown b b' log : grows_to b b' log -> grown b b'.
Proof.
  intros (A1 & A2 & A3 & A4 & _). repeat split; auto. eauto.
Qed.

Lemma thinned_refl bs : thinned bs bs.
Proof. induction bs; constructor; auto using grown_refl. Qed.

Lemma thinned_nil bs : thinned bs [].
Proof. induction bs; constructor; auto. Qed.

Lemma thinned_trans bs1 bs2 : thinned bs1 bs2 ->
  forall bs3, thinned bs2 bs3 -> thinned bs1 bs3.
Proof.
  induction 1 as [|b b' bs bs' Hg Ht IH|b bs bs' Ht IH]; intros bs3 H.
  - exact H.
  - inversion H; subst.
    + apply thin_keep; [eapply grown_trans; eassumption|auto].
    + apply thin_drop. auto.
  - apply thin_drop. auto.
Qed.

Lemma thinned_length bs bs' : thinned bs bs' -> (length bs' <= length bs)%nat.
Proof. induction 1; cbn; lia. Qed.

Lemma bolt_update_grown b wld b' alive wld' :
  bolt_update b wld = Some ((b', alive), wld') -> grown b b'.
Proof.
  intros H. destruct (segs b) as [|sg l] eqn:Es.
  - unfold bolt_update in H. minv H. destruct a as [[b1 al] lg]. inv_ret H.
    unfold bolt_update_log in H0. minv H0. minv H0. destruct a0 as [b1 log].
    minv H0. inv_ret H0.
    destruct (growing b && _).
    + match goal with Hg : bolt_grow _ _ _ = Some _ |- _ =>
        unfold bolt_grow in Hg; minv Hg end.
      match goal with Hs : seg_at _ _ _ = Some _ |- _ =>
        unfold seg_at, seg_count in Hs; cbn [set_last_growth segs] in Hs;
        rewrite Es in Hs; cbn in Hs; discriminate end.
    + match goal with Hg : ret (b, []) _ = Some _ |- _ => inv_ret Hg end.
      apply grown_refl.
  - assert (Hne : segs b <> []) by (rewrite Es; discriminate).
    destruct (@bolt_update_log_run b wld Hne)
      as (b1 & alive1 & log & c & r & E & _ & _ & Hg & _).
    unfold bolt_update in H. erewrite bind_eq in H by exact E. inv_ret H.
    eapply grows_to_grown; eassumption.
Qed.

Lemma sweep_bolts_thinned bs : forall wld bs' wld',
  sweep bolt_update (fun b => free (segs b)) bs wld = Some (bs', wld') ->
  thinned bs bs'.
Proof.
  induction bs as [|b bs IH]; intros wld bs' wld' H; cbn [sweep] in H.
  - inv_ret H. constructor.
  - minv H. destruct a as [b1 alive].
    apply bolt_update_grown in H0.
    destruct alive.
    + minv H. inv_ret H. apply thin_keep; [exact H0|eauto].
    + minv H. apply thin_drop. eauto.
Qed.

Lemma phase_thinned p s wld s' wld' :
  run_phase p s wld = Some (s', wld') ->
  thunder s = false ->
  thinned (bolts s) (bolts s').
Proof.
  intros H Ht.
  destruct p; cbn [run_phase] in H.
  - rewrite resize_step_eq in H. destruct (g_resized s);
      injection H as <- _; cbn; auto using thinned_refl, thinned_nil.
  - rewrite toggle_step_eq in H. destruct (is_toggle ch);
      injection H as <- _; cbn; apply thinned_refl.
  - apply pace_step_bolts in H as [t ->]. apply thinned_refl.
  - apply spawn_bolt_step_inv in H as [->|(Ht' & _)];
      [apply thinned_refl|congruence].
  - unfold step_bolts in H. minv H. inv_ret H. rewrite compact_sweep in H0.
    cbn. eapply sweep_bolts_thinned; eassumption.
  - apply spawn_rain_step_inv in H as [r ->]. apply thinned_refl.
  - rewrite step_rain_eq in H. injection H as <- _. apply thinned_refl.
  - minv H. inv_ret H. apply thinned_refl.
Qed.

Lemma phase_thunder p s wld s' wld' :
  run_phase p s wld = Some (s', wld') ->
  thunder s' = match p with
               | PToggle ch => if is_toggle ch then negb (thunder s)
                               else thunder s
               | _ => thunder s
               end.
Proof.
  intros H.
  destruct p; cbn [run_phase] in H.
  - rewrite resize_step_eq in H. destruct (g_resized s);
      injection H as <- _; reflexivity.
  - rewrite toggle_step_eq in H. destruct (is_toggle ch);
      injection H as <- _; reflexivity.
  - apply pace_step_bolts in H as [t ->]. reflexivity.
  - apply spawn_bolt_step_inv in H as [->|(_ & _ & ? & ? & ? & ? & _ & ->)];
      reflexivity.
  - unfold step_bolts in H. minv H. inv_ret H. reflexivity.
  - apply spawn_rain_step_inv in H as [r ->]. reflexivity.
  - rewrite step_rain_eq in H. injection H as <- _. reflexivity.
  - minv H. inv_ret H. reflexivity.
Qed.


Ltac minv_as H a w H1 :=
  apply bind_Some in H; destruct H as (a & w & H1 & H).

Lemma frame_eq dims ch s wld :
  frame dims ch s wld
  = (s0 <- run_phase (PResize dims) s ;;
     if is_quit ch then ret (s0, false)
     else s' <- run_phases (frame_phases ch) s0 ;; ret (s', true)) wld.
Proof.
  unfold frame, frame_phases. cbn [run_phases run_phase].
  unfold bind.
  destruct (resize_step dims s wld) as [[s0 w0]|]; [|reflexivity].
  destruct (is_quit ch); [reflexivity|].
  destruct (toggle_step ch s0 w0) as [[s1 w1]|]; [|reflexivity].
  destruct (pace_step s1 w1) as [[s2 w2]|]; [|reflexivity].
  destruct (spawn_bolt_step s2 w2) as [[s3 w3]|]; [|reflexivity].
  destruct (step_bolts s3 w3) as [[s4 w4]|]; [|reflexivity].
  destruct (spawn_rain_step s4 w4) as [[s5 w5]|]; [|reflexivity].
  destruct (step_rain s5 w5) as [[s6 w6]|]; [|reflexivity].
  destruct (render s6 w6) as [[[] w7]|]; reflexivity.
Qed.

(** A property of the state that every step keeps is kept by a sequence
    of steps. *)
Lemma run_phases_ind (P : State -> Prop) (ok : Phase -> Prop) ps :
  (forall p s wld s' wld',
      ok p -> run_phase p s wld = Some (s', wld') -> P s -> P s') ->
  Forall ok ps ->
  forall s wld s' wld',
    run_phases ps s wld = Some (s', wld') -> P s -> P s'.
Proof.
  intros Hstep. induction 1 as [|p ps Hp _ IH]; intros s wld s' wld' H Hs;
    cbn [run_phases] in H.
  - inv_ret H. exact Hs.
  - minv H. eapply IH; [exact H|]. eapply Hstep; eassumption.
Qed.

Lemma frame_thunder_off dims ch s wld s' running wld' bs :
  frame dims ch s wld = Some ((s', running), wld') ->
  thunder s = false -> is_toggle ch = false -> thinned bs (bolts s) ->
  thunder s' = false /\ thinned bs (bolts s').
Proof.
  intros H Ht Hch Hbs. rewrite frame_eq in H. minv H.
  assert (H0' : thunder a = false /\ thinned bs (bolts a)).
  { split.
    - rewrite (phase_thunder _ _ _ H0). exact Ht.
    - eapply thinned_trans; [exact Hbs|]. eapply phase_thinned; eassumption. }
  destruct (is_quit ch); [inv_ret H; exact H0'|].
  minv H. inv_ret H.
  eapply (@run_phases_ind
            (fun s => thunder s = false /\ thinned bs (bolts s))
            (fun p => forall c, p = PToggle c -> is_toggle c = false));
    [| |eassumption|exact H0'].
  - intros p s1 w1 s2 w2 Hok Hp [Ht1 Hb1]. split.
    + rewrite (phase_thunder _ _ _ Hp). destruct p; auto.
      rewrite (Hok ch0 eq_refl). exact Ht1.
    + eapply thinned_trans; [exact Hb1|]. eapply phase_thinned; eassumption.
  - unfold frame_phases. repeat constructor; intros c E; try discriminate.
    injection E as <-. exact Hch.
Qed.

Lemma main_loop_thunder_off evs : forall s wld s' running wld' bs,
  main_loop evs s wld = Some ((s', running), wld') ->
  thunder s = false -> no_toggle evs -> thinned bs (bolts s) ->
  thunder s' = false /\ thinned bs (bolts s').
Proof.
  induction evs as [|[|dims ch] evs IH];
    intros s wld s' running wld' bs H Ht Hn Hbs; cbn [main_loop] in H.
  - inv_ret H. auto.
  - inversion Hn; subst. eapply IH; eauto.
  - inversion Hn as [|? ? Hch Hn']; subst.
    minv H. destruct a as [s1 r1].
    destruct (frame_thunder_off _ _ _ _ H0 Ht Hch Hbs) as [Ht1 Hb1].
    destruct r1; [eapply IH; eauto|]. inv_ret H. auto.
Qed.

Lemma is_toggle_not_quit ch : is_toggle ch = true -> is_quit ch = false.
Proof.
  unfold is_toggle, is_quit. intros H.
  apply orb_prop in H as [H|H]; apply Z.eqb_eq in H; subst; reflexivity.
Qed.

(** The frame whose key turns thunderstorm mode off. *)
Lemma frame_toggle_off dims ch s wld s' running wld' :
  frame dims ch s wld = Some ((s', running), wld') ->
  thunder s = true -> is_toggle ch = true ->
  thunder s' = false /\ thinned (bolts s) (bolts s').
Proof.
  intros H Ht Hch. rewrite frame_eq in H. minv_as H sa wa Hres.
  rewrite (is_toggle_not_quit _ Hch) in H. minv_as H sb wb Hrun. inv_ret H.
  unfold frame_phases in Hrun. cbn [run_phases] in Hrun.
  minv_as Hrun sc wc Htog.
  assert (Ha : thunder sa = true /\ thinned (bolts s) (bolts sa)).
  { cbn [run_phase] in Hres. rewrite resize_step_eq in Hres.
    destruct (g_resized s); injection Hres as <- _; cbn;
      auto using thinned_refl, thinned_nil. }
  destruct Ha as [Hta Hba].
  assert (Ha1 : thunder sc = false /\ thinned (bolts s) (bolts sc)).
  { cbn [run_phase] in Htog. rewrite toggle_step_eq, Hch in Htog.
    injection Htog as <- _. cbn. rewrite Hta. auto. }
  change (run_phases [PPace; PSpawnBolt; PStepBolts; PSpawnRain; PStepRain;
                      PRender] sc wc = Some (s', wld')) in Hrun.
  eapply (@run_phases_ind
            (fun s0 => thunder s0 = false /\ thinned (bolts s) (bolts s0))
            (fun p => forall c, p = PToggle c -> is_toggle c = false));
    [| |exact Hrun|exact Ha1].
  - intros p s1 w1 s2 w2 Hok Hp [Ht1 Hb1]. split.
    + rewrite (phase_thunder _ _ _ Hp). destruct p; auto.
      rewrite (Hok ch0 eq_refl). exact Ht1.
    + eapply thinned_trans; [exact Hb1|]. eapply phase_thinned; eassumption.
  - repeat constructor; intros c E; discriminate.
Qed.

Lemma step_bolts_thunder s t wld :
  step_bolts (set_thunder s t) wld
  = match step_bolts s wld with
    | Some (s', wld') => Some (set_thunder s' t, wld')
    | None => None
    end.
Proof.
  unfold step_bolts, bind. cbn [bolts set_thunder].
  destruct (compact _ _ (bolts s) wld) as [[bs' w']|]; reflexivity.
Qed.


(** ** A resize and the frames after it *)

Lemma thinned_bounds P bs bs' :
  thinned bs bs' ->
  (forall b b', grown b b' -> P b -> P b') ->
  Forall P bs -> Forall P bs'.
Proof.
  intros H HP. induction H as [|b b' bs bs' Hg Ht IH|b bs bs' Ht IH];
    intros Hf.
  - constructor.
  - inversion Hf; subst. constructor; eauto.
  - inversion Hf; subst. auto.
Qed.

Lemma phase_uses_dims dims p s wld s' wld' :
  run_phase p s wld = Some (s', wld') -> uses_dims dims s -> uses_dims dims s'.
Proof.
  intros H (Hr & Hc & Hz & Hb). unfold uses_dims.
  destruct p; cbn [run_phase] in H.
  - rewrite resize_step_eq, Hz in H. injection H as <- _. auto.
  - rewrite toggle_step_eq in H. destruct (is_toggle ch);
      injection H as <- _; cbn; auto.
  - apply pace_step_bolts in H as [t ->]. cbn. auto.
  - apply spawn_bolt_step_inv in H
      as [->|(_ & _ & sr & sc & w1 & b & Hcr & ->)]; [auto|].
    rewrite bolt_create_eq in Hcr. injection Hcr as <- _.
    cbn [g_rows g_cols g_resized bolts set_bolts].
    repeat split; auto.
    apply Forall_app. split; [exact Hb|]. constructor; [|constructor].
    cbn. auto.
  - unfold step_bolts in H. minv H. inv_ret H. rewrite compact_sweep in H0.
    cbn. repeat split; auto.
    eapply thinned_bounds; [eapply sweep_bolts_thinned; eassumption| |exact Hb].
    intros b b' (_ & E1 & E2 & _) [B1 B2]. split; congruence.
  - apply spawn_rain_step_inv in H as [r ->]. cbn. auto.
  - rewrite step_rain_eq in H. injection H as <- _. cbn. auto.
  - minv H. inv_ret H. auto.
Qed.

Lemma run_phases_app ps1 ps2 s wld s' wld' :
  run_phases (ps1 ++ ps2) s wld = Some (s', wld') ->
  exists s1 w1, run_phases ps1 s wld = Some (s1, w1)
                /\ run_phases ps2 s1 w1 = Some (s', wld').
Proof.
  revert s wld. induction ps1 as [|p ps1 IH]; intros s wld H.
  - exists s, wld. split; [reflexivity|exact H].
  - cbn [app run_phases] in H. minv_as H sa wa Hp.
    destruct (IH _ _ H) as (s1 & w1 & H1 & H2).
    exists s1, w1. split; [|exact H2].
    cbn [run_phases]. mstep Hp. exact H1.
Qed.

Lemma frame_uses_dims dims dims' ch s wld s' running wld' :
  frame dims' ch s wld = Some ((s', running), wld') ->
  uses_dims dims s -> rain_within (fst dims) s ->
  uses_dims dims s' /\ rain_within (fst dims) s'.
Proof.
  intros H Hu Hrain. rewrite frame_eq in H. minv_as H sa wa Hres.
  assert (Es : sa = s).
  { cbn [run_phase] in Hres. destruct Hu as (_ & _ & Hz & _).
    rewrite resize_step_eq, Hz in Hres. injection Hres as <- _. reflexivity. }
  subst sa.
  destruct (is_quit ch); [inv_ret H; auto|].
  minv_as H sb wb Hrun. inv_ret H.
  change (frame_phases ch)
    with ([PToggle ch; PPace; PSpawnBolt; PStepBolts; PSpawnRain]
          ++ [PStepRain; PRender]) in Hrun.
  apply run_phases_app in Hrun as (s1 & w1 & H1 & H2).
  assert (Hu1 : uses_dims dims s1).
  { eapply (@run_phases_ind (uses_dims dims) (fun _ => True));
      [|repeat constructor|exact H1|exact Hu].
    intros p x wx y wy _ Hp Hx. eapply phase_uses_dims; eassumption. }
  cbn [run_phases run_phase] in H2.
  minv_as H2 s2 w2 Hsr. minv_as H2 s3 w3 Hre. inv_ret H2.
  minv_as Hre u wu Hdraw. inv_ret Hre.
  rewrite step_rain_eq in Hsr. injection Hsr as <- _.
  destruct Hu1 as (A1 & A2 & A3 & A4).
  split; [repeat split; assumption|].
  unfold rain_within. cbn [rain set_rain].
  apply Forall_forall. intros d Hd. apply filter_In in Hd as [_ Hd].
  unfold on_screen in Hd. apply Z.ltb_lt in Hd. rewrite <- A1. exact Hd.
Qed.

Lemma main_loop_uses_dims dims evs : forall s wld s' running wld',
  main_loop evs s wld = Some ((s', running), wld') ->
  no_winch evs ->
  uses_dims dims s -> rain_within (fst dims) s ->
  uses_dims dims s' /\ rain_within (fst dims) s'.
Proof.
  induction evs as [|[|dims' ch] evs IH];
    intros s wld s' running wld' H Hn Hu Hrain; cbn [main_loop] in H.
  - inv_ret H. auto.
  - inversion Hn; subst. contradiction.
  - inversion Hn; subst. minv_as H a wa Hf. destruct a as [s1 r1].
    edestruct frame_uses_dims as [Hu1 Hr1]; [exact Hf|exact Hu|exact Hrain|].
    destruct r1; [eapply IH; eauto|]. inv_ret H. auto.
Qed.

Lemma frame_resized dims ch s wld :
  g_resized s = true ->
  frame dims ch s wld = frame dims ch (resized dims s) (resized_world s wld).
Proof.
  intros Hz. rewrite !frame_eq. cbn [run_phase].
  mstep (eq_trans (resize_step_eq dims s wld)
           (f_equal (fun b : bool => if b then _ else _) Hz)).
  symmetry.
  mstep (resize_step_eq dims (resized dims s) (resized_world s wld)).
  reflexivity.
Qed.

(** C7: when a resize is pending at the top of a frame, the resize step
    succeeds; it leaves no raindrop and no bolt, frees the segment array
    of every bolt that was in the store, each once and in order, takes
    the dimensions the terminal reports, and keeps the thunderstorm flag.
    The frame goes on from that state, and in it and in the frames after
    it, until the next signal, the state has the new dimensions: they are
    the bounds of every bolt of the store, and every raindrop of the
    store is above the new bottom row. *)
Theorem C7_resize
    (dims : Z * Z) (ch : Z) (evs : list Event)
    (s : State) (wld : World) (s' : State) (running : bool) (wld' : World) :
  g_resized s = true ->
  no_winch evs ->
  main_loop (Frame dims ch :: evs) s wld = Some ((s', running), wld') ->
  resize_step dims s wld = Some (resized dims s, resized_world s wld)
  /\ rain (resized dims s) = [] /\ bolts (resized dims s) = []
  /\ freed (resized_world s wld) = freed wld ++ map segs (bolts s)
  /\ g_rows (resized dims s) = fst dims /\ g_cols (resized dims s) = snd dims
  /\ g_resized (resized dims s) = false
  /\ thunder (resized dims s) = thunder s
  /\ frame dims ch s wld
     = frame dims ch (resized dims s) (resized_world s wld)
  /\ uses_dims dims s' /\ rain_within (fst dims) s'.
Proof.
  intros Hz Hn H.
  split; [rewrite resize_step_eq, Hz; reflexivity|].
  do 7 (split; [reflexivity|]).
  split; [apply frame_resized; exact Hz|].
  cbn [main_loop] in H. rewrite bind_Some in H.
  destruct H as ([s1 r1] & w1 & Hf & H).
  rewrite (@frame_resized dims ch s wld Hz) in Hf.
  assert (Hu0 : uses_dims dims (resized dims s)).
  { repeat split; auto. }
  assert (Hr0 : rain_within (fst dims) (resized dims s)) by constructor.
  edestruct frame_uses_dims as [Hu1 Hr1]; [exact Hf|exact Hu0|exact Hr0|].
  destruct r1; [|inv_ret H; auto].
  eapply main_loop_uses_dims; eassumption.
Qed.

Lemma C7_resize_witness :
  g_resized (on_winch demo_state_1) = true
  /\ no_winch [Frame (9, 9) (-1)]
  /\ exists s' running wld',
       main_loop [Frame (7, 30) (-1); Frame (9, 9) (-1)]
                 (on_winch demo_state_1) demo_world_1
       = Some ((s', running), wld')
       /\ g_rows s' = 7 /\ g_cols s' = 30
       /\ Forall (fun b => max_y b = 7 /\ max_x b = 30) (bolts s')
       /\ rain_within 7 s'.
Proof.
  assert (H1 : g_resized (on_winch demo_state_1) = true) by reflexivity.
  assert (H2 : no_winch [Frame (9, 9) (-1)]).
  { constructor; [exact I|constructor]. }
  split; [exact H1|]. split; [exact H2|].
  destruct demo_after_resize as [[[s' running] wld']|] eqn:E;
    [|vm_compute in E; discriminate].
  assert (Hrun : main_loop [Frame (7, 30) (-1); Frame (9, 9) (-1)]
                           (on_winch demo_state_1) demo_world_1
                 = Some ((s', running), wld')).
  { rewrite <- E. vm_compute. reflexivity. }
  exists s', running, wld'. split; [exact Hrun|].
  destruct (@C7_resize _ _ _ _ _ _ _ _ H1 H2 Hrun)
    as (_ & _ & _ & _ & _ & _ & _ & _ & _ & (A1 & A2 & _ & A4) & A5).
  auto.
Defined.

(** ** The trunk of a bolt *)

Lemma bolt_update_log_grows b wld b' alive log wld' :
  bolt_update_log b wld = Some ((b', alive, log), wld') ->
  segs b <> [] -> grows_to b b' log.
Proof.
  intros H Hne.
  destruct (@bolt_update_log_run b wld Hne)
    as (b1 & alive1 & log1 & c & r & E & _ & _ & Hg & _).
  rewrite E in H. injection H as <- <- <- _. exact Hg.
Qed.

Lemma count_primary_le_length l : (count_primary l <= length l)%nat.
Proof. unfold count_primary. apply filter_length_le. Qed.

Lemma updates_trunk b log b' :
  updates b log b' ->
  forall P : nat,
    Z.of_nat P + 1 <= seg_count b ->
    Z.of_nat P + 1 <= target_len b ->
    Z.of_nat (P + count_primary log) + 1 <= target_len b
    /\ Z.of_nat (P + count_primary log) + 1 <= seg_count b'
    /\ target_len b' = target_len b
    /\ segs b' = segs b ++ map snd log.
Proof.
  induction 1 as [b|b wld b1 alive log1 wld1 log2 b2 Hu _ IH]; intros P Hs Ht.
  - unfold count_primary. cbn. rewrite Nat.add_0_r, app_nil_r. auto.
  - assert (Hne : segs b <> []).
    { intros C. unfold seg_count in Hs. rewrite C in Hs. cbn in Hs. lia. }
    destruct (@bolt_update_log_grows b wld b1 alive log1 wld1 Hu Hne)
      as (G1 & _ & _ & G4 & G5 & G6 & _).
    pose proof (count_primary_le_length log1) as Hle.
    assert (Hs1 : seg_count b1 = seg_count b + Z.of_nat (length log1)).
    { unfold seg_count. rewrite G4, length_app, length_map.
      apply Nat2Z.inj_add. }
    assert (Hlt : (0 < count_primary log1)%nat -> seg_count b < target_len b).
    { intros Hpos. apply G6. intros C. rewrite C in Hpos.
      unfold count_primary in Hpos. cbn in Hpos. lia. }
    destruct (IH (P + count_primary log1)%nat) as (I1 & I2 & I3 & I4).
    + lia.
    + rewrite G1. destruct (count_primary log1) as [|[|n]] eqn:Ec; lia.
    + rewrite count_primary_app, Nat.add_assoc.
      split; [lia|]. split; [exact I2|]. split; [congruence|].
      rewrite I4, G4, map_app, app_assoc. reflexivity.
Qed.

Lemma demo_world_rand_ok : rand_ok demo_world.
Proof. intros n. cbn. unfold RAND_MAX. lia. Qed.

(** C2: in every sequence of updates of a created bolt, the segments
    pushed on the primary path, together with the bolt's first segment,
    are at most as many as the target length, which never changes; the
    segments of the bolt are its first one and all those pushed, so that
    their number may exceed the target length, as it does for the bolt
    created and updated once in the run evaluated above. *)
Theorem C2_trunk_bounded
    (sr sc my mx : Z) (wld : World) (b0 : Bolt) (wld0 : World)
    (log : list Push) (b : Bolt) :
  rand_ok wld ->
  bolt_create sr sc my mx wld = Some (b0, wld0) ->
  updates b0 log b ->
  1 + Z.of_nat (count_primary log) <= target_len b0
  /\ target_len b = target_len b0
  /\ segs b = segs b0 ++ map snd log
  /\ seg_count b = 1 + Z.of_nat (length log)
  /\ exists w1 b1 w2 log2 b2,
       rand_ok w1
       /\ bolt_create 0 10 5 40 w1 = Some (b1, w2)
       /\ updates b1 log2 b2
       /\ Z.of_nat (count_primary log2) <= target_len b2
       /\ target_len b2 < seg_count b2.
Proof.
  intros Hr Hc Hu.
  rewrite bolt_create_eq in Hc. injection Hc as <- _.
  pose proof (Hr (rng_pos wld)) as [Hr0 _].
  pose proof (code_max_len_ge my) as Hle.
  assert (Hlo : 2 <= spec_min_len my) by (unfold spec_min_len; lia).
  pose proof (Z.rem_bound_pos (rng wld (rng_pos wld))
                (code_max_len my - spec_min_len my + 1) Hr0 ltac:(lia)) as Hb.
  match type of Hu with updates ?x _ _ => set (bb := x) in * end.
  destruct (@updates_trunk bb log b Hu 0%nat) as (I1 & I2 & I3 & I4).
  { cbn. lia. }
  { cbn. lia. }
  cbn [Nat.add] in I1, I2.
  split; [lia|]. split; [exact I3|]. split; [exact I4|].
  split.
  { unfold seg_count. rewrite I4, length_app, length_map. cbn [bb segs length].
    rewrite Nat2Z.inj_add. reflexivity. }
  destruct demo_bolt as [[b1 w2]|] eqn:E1; [|vm_compute in E1; discriminate].
  destruct demo_bolt_updated as [[[[b2 alive] log2] w3]|] eqn:E2;
    [|vm_compute in E2; discriminate].
  exists demo_world, b1, w2, (log2 ++ []), b2.
  split; [exact demo_world_rand_ok|].
  split; [rewrite <- E1; vm_compute; reflexivity|].
  assert (Hu2 : bolt_update_log b1 w2 = Some ((b2, alive, log2), w3)).
  { vm_compute in E1. injection E1 as <- <-.
    rewrite <- E2. vm_compute. reflexivity. }
  split; [eapply upd_step; [exact Hu2|apply upd_none]|].
  vm_compute in E2. injection E2 as <- _ <- _.
  split; vm_compute; [discriminate|reflexivity].
Qed.

Lemma C2_trunk_bounded_witness :
  rand_ok demo_world
  /\ exists b0 wld0 b1 alive log wld1,
       bolt_create 0 10 5 40 demo_world = Some (b0, wld0)
       /\ bolt_update_log b0 wld0 = Some ((b1, alive, log), wld1)
       /\ 1 + Z.of_nat (count_primary log) <= target_len b0
       /\ seg_count b1 = 1 + Z.of_nat (length log).
Proof.
  split; [exact demo_world_rand_ok|].
  destruct demo_bolt as [[b0 wld0]|] eqn:E1; [|vm_compute in E1; discriminate].
  destruct demo_bolt_updated as [[[[b1 alive] log] wld1]|] eqn:E2;
    [|vm_compute in E2; discriminate].
  assert (Hc : bolt_create 0 10 5 40 demo_world = Some (b0, wld0)).
  { rewrite <- E1. vm_compute. reflexivity. }
  assert (Hu : bolt_update_log b0 wld0 = Some ((b1, alive, log), wld1)).
  { vm_compute in E1. injection E1 as <- <-.
    rewrite <- E2. vm_compute. reflexivity. }
  exists b0, wld0, b1, alive, log, wld1.
  split; [exact Hc|]. split; [exact Hu|].
  assert (Hups : updates b0 (log ++ []) b1).
  { eapply upd_step; [exact Hu|apply upd_none]. }
  rewrite app_nil_r in Hups.
  destruct (@C2_trunk_bounded 0 10 5 40 demo_world b0 wld0 log b1
              demo_world_rand_ok Hc Hups) as (A1 & _ & _ & A4 & _).
  split; assumption.
Defined.

(** ** C doubles: the difference of a number and a smaller one is
    positive *)

Lemma shr_1_div2 mrs : 0 <= shr_m mrs -> shr_m (shr_1 mrs) = Z.div2 (shr_m mrs).
Proof.
  destruct mrs as [m r s]. cbn [shr_m]. intros H.
  destruct m as [|[p|p|]|p]; cbn; try reflexivity; lia.
Qed.

Lemma iter_shr_1 n : forall mrs,
  0 <= shr_m mrs ->
  shr_m (iter_pos shr_1 n mrs) = Z.shiftr (shr_m mrs) (Zpos n).
Proof.
  induction n as [n IH|n IH|]; intros mrs H; cbn [iter_pos].
  - rewrite IH by (apply (iter_pos_inv (fun r => 0 <= shr_m r));
                   auto using shr_1_nonneg).
    rewrite IH by (apply shr_1_nonneg; exact H).
    rewrite shr_1_div2 by exact H.
    rewrite Z.div2_spec, !Z.shiftr_shiftr by lia.
    f_equal. lia.
  - rewrite IH by (apply (iter_pos_inv (fun r => 0 <= shr_m r));
                   auto using shr_1_nonneg).
    rewrite IH by exact H.
    rewrite Z.shiftr_shiftr by lia. f_equal. lia.
  - rewrite shr_1_div2 by exact H. apply Z.div2_spec.
Qed.

Lemma digits2_pos_bounds m :
  2 ^ (Zpos (digits2_pos m) - 1) <= Zpos m < 2 ^ Zpos (digits2_pos m).
Proof.
  induction m as [m IH|m IH|]; cbn [digits2_pos].
  - rewrite Pos2Z.inj_succ.
    replace (Z.succ (Zpos (digits2_pos m)) - 1)
      with (Z.succ (Zpos (digits2_pos m) - 1)) by lia.
    rewrite !Z.pow_succ_r by lia. lia.
  - rewrite Pos2Z.inj_succ.
    replace (Z.succ (Zpos (digits2_pos m)) - 1)
      with (Z.succ (Zpos (digits2_pos m) - 1)) by lia.
    rewrite !Z.pow_succ_r by lia. lia.
  - cbn. lia.
Qed.

Lemma fexp_ge_emin e : demin <= fexp Dbl.prec Dbl.emax e.
Proof. unfold fexp, demin. lia. Qed.

(** Shifting a positive mantissa to its canonical exponent leaves it
    positive, when its exponent is not below the least one. *)
Lemma shr_fexp_pos m e l :
  0 < m -> demin <= e ->
  0 < shr_m (fst (shr_fexp Dbl.prec Dbl.emax m e l))
  /\ demin <= snd (shr_fexp Dbl.prec Dbl.emax m e l).
Proof.
  intros Hm He. unfold shr_fexp, shr.
  assert (H0 : shr_m (shr_record_of_loc m l) = m).
  { destruct l as [|[]]; reflexivity. }
  destruct m as [|p|p]; try lia.
  cbn [Zdigits2].
  pose proof (digits2_pos_bounds p) as [Hlo Hhi].
  set (d := Zpos (digits2_pos p)) in *.
  destruct (fexp Dbl.prec Dbl.emax (d + e) - e) as [|n|n] eqn:En;
    cbn [fst snd]; try (rewrite H0; lia).
  assert (Hn : Zpos n = d - Dbl.prec).
  { unfold fexp in En. fold demin in En. lia. }
  split; [|lia].
  rewrite iter_shr_1 by (rewrite H0; lia).
  rewrite H0, Z.shiftr_div_pow2 by lia.
  apply Z.div_str_pos. split; [apply Z.pow_pos_nonneg; lia|].
  eapply Z.le_trans; [|exact Hlo].
  apply Z.pow_le_mono_r; [lia|]. unfold Dbl.prec in Hn. lia.
Qed.

Lemma round_nearest_even_pos m l : 0 < m -> 0 < round_nearest_even m l.
Proof.
  intros H. destruct l as [|[]]; simpl; try lia.
  destruct (Z.even m); lia.
Qed.

Lemma positive_gt d : positive d = true <-> Dbl.gt d Dbl.zero = true.
Proof. destruct d as [[]|[]| |[] m e]; cbn; split; congruence. Qed.

Lemma positive_not_le d : positive d = true -> Dbl.le d Dbl.zero = false.
Proof. destruct d as [[]|[]| |[] m e]; cbn; congruence. Qed.

Lemma binary_round_aux_pos m e l :
  0 < m -> demin <= e ->
  positive (binary_round_aux Dbl.prec Dbl.emax false m e l) = true.
Proof.
  intros Hm He. unfold binary_round_aux.
  destruct (shr_fexp_pos l Hm He) as [H1 H2].
  destruct (shr_fexp Dbl.prec Dbl.emax m e l) as [mrs' e'].
  cbn [fst snd] in H1, H2.
  destruct (shr_fexp_pos loc_Exact
              (round_nearest_even_pos (loc_of_shr_record mrs') H1) H2)
    as [H3 _].
  destruct (shr_fexp Dbl.prec Dbl.emax _ e' loc_Exact) as [mrs'' e''].
  cbn [fst] in H3.
  destruct (shr_m mrs'') as [|p|p]; try lia.
  destruct (e'' <=? _); reflexivity.
Qed.

Lemma binary_normalize_pos m e :
  0 < m -> demin <= e ->
  positive (binary_normalize Dbl.prec Dbl.emax m e false) = true.
Proof.
  intros Hm He. destruct m as [|p|p]; try lia.
  cbn [binary_normalize]. unfold binary_round.
  destruct (shl_align p e _) as [mz ez] eqn:Ea.
  apply binary_round_aux_pos; [lia|].
  unfold shl_align in Ea.
  destruct (fexp Dbl.prec Dbl.emax (Zpos (digits2_pos p) + e) - e) eqn:Ef;
    injection Ea as <- <-; try exact He.
  apply fexp_ge_emin.
Qed.

Lemma iter_xO_value d : forall m,
  Zpos (Pos.iter xO m d) = Zpos m * 2 ^ Zpos d.
Proof.
  induction d as [|d IH] using Pos.peano_ind; intros m.
  - cbn. lia.
  - rewrite Pos.iter_succ, Pos2Z.inj_succ, Z.pow_succ_r by lia.
    rewrite Pos2Z.inj_xO, IH. lia.
Qed.

Lemma shl_align_value m e e' :
  e' <= e ->
  Zpos (fst (shl_align m e e')) = Zpos m * 2 ^ (e - e').
Proof.
  intros H. unfold shl_align.
  destruct (e' - e) as [|d|d] eqn:E; cbn [fst].
  - replace (e - e') with 0 by lia. lia.
  - lia.
  - replace (e - e') with (Zpos d) by lia. apply iter_xO_value.
Qed.

(** [UPDATE_INTERVAL - dt] is positive when [dt < UPDATE_INTERVAL]. *)
Lemma rest_positive dt :
  Dbl.valid dt = true -> Dbl.lt dt UPDATE_INTERVAL = true ->
  positive (Dbl.sub UPDATE_INTERVAL dt) = true.
Proof.
  intros Hv Hlt.
  change UPDATE_INTERVAL with (S754_finite false 8646911284551352 (-59)) in *.
  destruct dt as [sd|sd| |sd m e]; try discriminate.
  - reflexivity.
  - destruct sd; [reflexivity|discriminate].
  - (* a finite [dt] *)
    unfold Dbl.valid, valid_binary, bounded, canonical_mantissa in Hv.
    apply andb_prop in Hv as [Hc _]. apply Z.eqb_eq in Hc.
    pose proof (fexp_ge_emin (Zpos (digits2_pos m) + e)) as He.
    rewrite Hc in He.
    pose proof (digits2_pos_bounds m) as [_ Hm].
    assert (Hd : Zpos (digits2_pos m) <= 53).
    { unfold fexp, Dbl.prec in Hc. lia. }
    assert (Hm53 : Zpos m < 2 ^ 53).
    { eapply Z.lt_le_trans; [exact Hm|]. apply Z.pow_le_mono_r; lia. }
    unfold Dbl.sub. cbn [SFsub].
    set (ez := Z.min (-59) e).
    apply binary_normalize_pos; [|unfold ez, demin, emin, Dbl.prec, Dbl.emax in *; lia].
    rewrite (@shl_align_value 8646911284551352 (-59) ez) by (unfold ez; lia).
    rewrite (@shl_align_value m e ez) by (unfold ez; lia).
    destruct sd; cbn [cond_Zopp].
    + (* [dt] negative *)
      assert (H1 : 0 < 2 ^ (-59 - ez)) by (apply Z.pow_pos_nonneg; unfold ez; lia).
      assert (H2 : 0 < 2 ^ (e - ez)) by (apply Z.pow_pos_nonneg; unfold ez; lia).
      assert (H3 : 0 < 8646911284551352 * 2 ^ (-59 - ez))
        by (apply Z.mul_pos_pos; lia).
      assert (H4 : 0 < Z.pos m * 2 ^ (e - ez)) by (apply Z.mul_pos_pos; lia).
      clear - H3 H4. lia.
    + (* [dt] positive and less than the interval *)
      unfold Dbl.lt, SFltb in Hlt. cbn [SFcompare] in Hlt.
      destruct (Z.compare_spec e (-59)) as [E|E|E]; try discriminate.
      * subst e. unfold ez. rewrite Z.min_id, Z.sub_diag.
        rewrite Z.pow_0_r, !Z.mul_1_r.
        destruct (Pos.compare_cont Eq m 8646911284551352) eqn:Ec;
          try discriminate.
        rewrite Pos.compare_cont_spec in Ec.
        destruct (Pos.compare_spec m 8646911284551352) as [E1|E1|E1];
          try discriminate.
        apply Pos2Z.pos_lt_pos in E1. clear - E1. lia.
      * unfold ez. rewrite Z.min_r, Z.sub_diag by lia.
        rewrite Z.pow_0_r, Z.mul_1_r.
        assert (HK : 2 ^ 1 <= 2 ^ (-59 - e)) by (apply Z.pow_le_mono_r; lia).
        rewrite Z.pow_1_r in HK.
        set (K := 2 ^ (-59 - e)) in *.
        assert (HmK : 8646911284551352 * 2 <= 8646911284551352 * K)
          by (apply Z.mul_le_mono_nonneg_l; lia).
        assert (H53 : 2 ^ 53 = 9007199254740992) by reflexivity.
        rewrite H53 in Hm53. clear - Hm53 HmK HK. lia.
Qed.

(** ** Frame pacing *)

Lemma sleep_sec_eq s wld :
  sleep_sec s wld
  = Some (tt, if Dbl.le s Dbl.zero then wld
              else add_slept wld [timespec_of s]).
Proof. unfold sleep_sec. destruct (Dbl.le s Dbl.zero); reflexivity. Qed.

Lemma sub_interval_not_nan dt :
  Dbl.is_nan dt = false -> Dbl.is_nan (Dbl.sub UPDATE_INTERVAL dt) = false.
Proof.
  change UPDATE_INTERVAL with (S754_finite false 8646911284551352 (-59)).
  destruct dt as [sd|sd| |sd m e]; try discriminate; intros _;
    try reflexivity.
  apply binary_normalize_not_nan.
Qed.

Lemma lt_not_nan a b : Dbl.lt a b = true -> Dbl.is_nan a = false.
Proof. destruct a; try reflexivity. discriminate. Qed.

(** C6: the pacing step reads the clock twice and always completes.  It
    asks for a sleep only when the time [dt] since the last frame began
    is less than the interval and the remaining time [UPDATE_INTERVAL -
    dt] is not zero or less, and the request is then the remaining time
    itself, as [sleep_sec] splits it into seconds and nanoseconds.  When
    [dt], a binary64 number, is less than the interval, the sleep is
    asked for; whenever a sleep is asked for, the remaining time is
    strictly positive; and when the remaining time is zero or less there
    is no sleep. *)
Theorem C6_frame_pacing (s : State) (wld : World) :
  let dt := Dbl.sub (clock wld (clock_pos wld)) (last s) in
  let rest := Dbl.sub UPDATE_INTERVAL dt in
  exists wld',
    pace_step s wld = Some (set_last s (clock wld (S (clock_pos wld))), wld')
    /\ wld' = reposition
               (add_slept wld
                  (if Dbl.lt dt UPDATE_INTERVAL && negb (Dbl.le rest Dbl.zero)
                   then [timespec_of rest] else []))
               (S (S (clock_pos wld))) (rng_pos wld)
    /\ (Dbl.valid dt = true -> Dbl.lt dt UPDATE_INTERVAL = true ->
        slept wld' = slept wld ++ [timespec_of rest])
    /\ (slept wld' <> slept wld -> Dbl.gt rest Dbl.zero = true)
    /\ (Dbl.le rest Dbl.zero = true -> slept wld' = slept wld)
    /\ (Dbl.lt dt UPDATE_INTERVAL = false -> slept wld' = slept wld).
Proof.
  intros dt rest. unfold pace_step.
  mstep (now_sec_eq wld). fold dt. fold rest.
  set (w1 := reposition wld (S (clock_pos wld)) (rng_pos wld)).
  assert (E : (if Dbl.lt dt UPDATE_INTERVAL then sleep_sec rest else ret tt) w1
              = Some (tt, add_slept w1
                            (if Dbl.lt dt UPDATE_INTERVAL
                                && negb (Dbl.le rest Dbl.zero)
                             then [timespec_of rest] else []))).
  { destruct (Dbl.lt dt UPDATE_INTERVAL); cbn [andb].
    - rewrite sleep_sec_eq. destruct (Dbl.le rest Dbl.zero); cbn [negb];
        [|reflexivity].
      unfold add_slept. rewrite app_nil_r. destruct w1; reflexivity.
    - unfold ret, add_slept. rewrite app_nil_r. destruct w1; reflexivity. }
  mstep E.
  set (rs := if Dbl.lt dt UPDATE_INTERVAL && _ then _ else _) in *.
  mstep (now_sec_eq (add_slept w1 rs)).
  eexists. split; [reflexivity|]. split; [reflexivity|].
  cbn [slept reposition add_slept w1].
  split; [|split; [|split]].
  - intros Hv Hlt. unfold rs. rewrite Hlt.
    rewrite (@positive_not_le rest (@rest_positive dt Hv Hlt)). reflexivity.
  - intros Hne. unfold rs in Hne.
    destruct (Dbl.lt dt UPDATE_INTERVAL) eqn:Hlt; cbn [andb] in Hne;
      [|rewrite app_nil_r in Hne; contradiction].
    destruct (Dbl.le rest Dbl.zero) eqn:Hle; cbn [negb] in Hne;
      [rewrite app_nil_r in Hne; contradiction|].
    rewrite (@not_le_gt rest Dbl.zero) in Hle;
      [|apply sub_interval_not_nan; eapply lt_not_nan; exact Hlt|reflexivity].
    destruct (Dbl.gt rest Dbl.zero); [reflexivity|discriminate].
  - intros Hle. unfold rs. rewrite Hle, andb_false_r, app_nil_r. reflexivity.
  - intros Hlt. unfold rs. rewrite Hlt, app_nil_r. reflexivity.
Qed.

Lemma C6_frame_pacing_witness :
  let dt := Dbl.sub (clock demo_pace_world 0) (last demo_pace_state) in
  Dbl.valid dt = true
  /\ Dbl.lt dt UPDATE_INTERVAL = true
  /\ exists wld',
       pace_step demo_pace_state demo_pace_world
       = Some (set_last demo_pace_state (Dbl.lit 1015 1000), wld')
       /\ slept wld' = [mkTimespec 0 9999999].
Proof.
  intros dt.
  assert (H1 : Dbl.valid dt = true) by (vm_compute; reflexivity).
  assert (H2 : Dbl.lt dt UPDATE_INTERVAL = true) by (vm_compute; reflexivity).
  split; [exact H1|]. split; [exact H2|].
  destruct (C6_frame_pacing demo_pace_state demo_pace_world)
    as (wld' & Hp & _ & Hs & _).
  exists wld'. split; [exact Hp|].
  rewrite (Hs H1 H2). vm_compute. reflexivity.
Defined.

(** ** Colour names are looked up ignoring case *)

Lemma c_byte_range c : 0 <= c_byte c < 256.
Proof.
  unfold c_byte. pose proof (nat_ascii_bounded c). lia.
Qed.

Lemma c_tolower_range n : 0 <= n < 256 -> 0 <= c_tolower n < 256.
Proof.
  unfold c_tolower. intros H.
  destruct ((65 <=? n) && (n <=? 90)) eqn:E; [|exact H].
  apply andb_prop in E as [E1 E2].
  apply Z.leb_le in E1. apply Z.leb_le in E2. lia.
Qed.

Lemma c_tolower_zero n : 0 <= n -> (c_tolower n = 0 <-> n = 0).
Proof.
  unfold c_tolower. intros H.
  destruct ((65 <=? n) && (n <=? 90)) eqn:E; [|tauto].
  apply andb_prop in E as [E1 E2].
  apply Z.leb_le in E1. apply Z.leb_le in E2. lia.
Qed.

Lemma lowered_eq a b :
  ascii_of_nat (Z.to_nat (c_tolower (c_byte a)))
  = ascii_of_nat (Z.to_nat (c_tolower (c_byte b)))
  <-> c_tolower (c_byte a) = c_tolower (c_byte b).
Proof.
  pose proof (@c_tolower_range _ (c_byte_range a)) as Ha.
  pose proof (@c_tolower_range _ (c_byte_range b)) as Hb.
  split; [|intros ->; reflexivity].
  intros H. apply (f_equal nat_of_ascii) in H.
  rewrite !nat_ascii_embedding in H by lia. lia.
Qed.

(** Two strings compare equal exactly when the C strings they stand for
    are the same once their letters are lowered. *)
Lemma strcasecmp_zero s1 : forall s2,
  strcasecmp s1 s2 = 0 <-> lower (cstr s1) = lower (cstr s2).
Proof.
  induction s1 as [|a r1 IH]; intros [|b r2]; cbn [strcasecmp cstr lower].
  - tauto.
  - pose proof (c_byte_range b) as Hb.
    pose proof (@c_tolower_zero (c_byte b) (proj1 Hb)) as Hz.
    destruct (Z.eqb_spec (c_byte b) 0) as [E|E]; cbn [lower].
    + split; [reflexivity|]. intros _. lia.
    + split; [lia|discriminate].
  - pose proof (c_byte_range a) as Ha.
    pose proof (@c_tolower_zero (c_byte a) (proj1 Ha)) as Hz.
    destruct (Z.eqb_spec (c_byte a) 0) as [E|E]; cbn [lower].
    + split; [reflexivity|]. intros _. lia.
    + split; [lia|discriminate].
  - pose proof (c_byte_range a) as Ha. pose proof (c_byte_range b) as Hb.
    pose proof (@c_tolower_zero (c_byte a) (proj1 Ha)) as Hza.
    pose proof (@c_tolower_zero (c_byte b) (proj1 Hb)) as Hzb.
    pose proof (lowered_eq a b) as Hl.
    destruct (Z.eqb_spec (c_tolower (c_byte a)) (c_tolower (c_byte b)))
      as [Exy|Exy].
    + destruct (Z.eqb_spec (c_tolower (c_byte a)) 0) as [E0|E0].
      * assert (c_byte a = 0) as -> by tauto.
        assert (c_byte b = 0) as -> by (apply Hzb; congruence).
        cbn. tauto.
      * assert (Ea : c_byte a <> 0) by tauto.
        assert (Eb : c_byte b <> 0) by (rewrite <- Hzb; congruence).
        apply Z.eqb_neq in Ea, Eb. rewrite Ea, Eb. cbn [lower].
        rewrite IH. split.
        -- intros ->. f_equal. tauto.
        -- intros H. injection H as _ H. exact H.
    + destruct (Z.eqb_spec (c_byte a) 0) as [Ea|Ea],
               (Z.eqb_spec (c_byte b) 0) as [Eb|Eb]; cbn [lower].
      * exfalso. apply Exy. rewrite Ea, Eb. reflexivity.
      * split; [lia|discriminate].
      * split; [lia|discriminate].
      * split; [lia|]. intros H. injection H as H _. tauto.
Qed.

Lemma color_scan_lower m s s' d :
  lower (cstr s) = lower (cstr s') -> color_scan m s d = color_scan m s' d.
Proof.
  intros H. induction m as [|[name code] m IH]; cbn [color_scan];
    [reflexivity|].
  assert (E : (strcasecmp s name =? 0) = (strcasecmp s' name =? 0)).
  { destruct (Z.eqb_spec (strcasecmp s name) 0) as [A|A],
             (Z.eqb_spec (strcasecmp s' name) 0) as [B|B];
      try reflexivity; rewrite strcasecmp_zero in *; congruence. }
  rewrite E, IH. reflexivity.
Qed.

(** X1: [color_from_name] does not see the case of letters: two names
    that are the same C string once lowered get the same colour. *)
Theorem color_from_name_ignores_case (s s' : string) (defval : Z) :
  lower (cstr s) = lower (cstr s') ->
  color_from_name (Some s) defval = color_from_name (Some s') defval.
Proof. intros H. apply color_scan_lower. exact H. Qed.

Lemma color_from_name_ignores_case_witness :
  lower (cstr "MaGenta") = lower (cstr "magenta")
  /\ color_from_name (Some "MaGenta"%string) 9
     = color_from_name (Some "magenta"%string) 9.
Proof.
  assert (H : lower (cstr "MaGenta") = lower (cstr "magenta")) by reflexivity.
  split; [exact H|].
  exact (@color_from_name_ignores_case "MaGenta" "magenta" 9 H).
Defined.

Lemma color_scan_find m s d :
  color_scan m s d
  = match find (fun p => String.eqb (lower (cstr (fst p))) (lower (cstr s))) m
    with
    | Some p => snd p
    | None => d
    end.
Proof.
  induction m as [|[name code] m IH]; cbn [color_scan find fst];
    [reflexivity|].
  destruct (Z.eqb_spec (strcasecmp s name) 0) as [A|A];
    rewrite strcasecmp_zero in A.
  - rewrite A, String.eqb_refl. reflexivity.
  - destruct (String.eqb_spec (lower (cstr name)) (lower (cstr s)));
      [congruence|exact IH].
Qed.

Lemma color_from_name_range s d :
  color_from_name s d = d \/ 0 <= color_from_name s d <= 7.
Proof.
  destruct s as [s|]; [|left; reflexivity].
  cbn [color_from_name]. rewrite color_scan_find.
  destruct (find _ COLOR_MAP) as [p|] eqn:E; [|left; reflexivity].
  right. apply find_some in E as [Hin _].
  unfold COLOR_MAP in Hin. cbn in Hin.
  repeat (destruct Hin as [<-|Hin]; [compute; split; discriminate|]).
  contradiction.
Qed.

(** X2: [color_from_name] gives the default for a null pointer; for a
    name, the code of the first table entry that is the name once both
    are lowered, and the default when there is none.  The result is
    the default or a colour number from 0 to 7, and each name of the
    table gets its own code. *)
Theorem color_from_name_lookup (s : string) (defval : Z) :
  color_from_name None defval = defval
  /\ color_from_name (Some s) defval
     = match find (fun p => String.eqb (lower (cstr (fst p)))
                                       (lower (cstr s))) COLOR_MAP with
       | Some p => snd p
       | None => defval
       end
  /\ (color_from_name (Some s) defval = defval
      \/ 0 <= color_from_name (Some s) defval <= 7)
  /\ Forall (fun p => color_from_name (Some (fst p)) defval = snd p)
            COLOR_MAP.
Proof.
  split; [reflexivity|]. split; [apply color_scan_find|]. split.
  - apply color_from_name_range.
  - unfold COLOR_MAP. repeat constructor.
Qed.

(** ** The attributes keep the glyph *)

Lemma glyph_kept c attr :
  Z.land attr A_CHARTEXT = 0 ->
  Z.land (chtype_or c attr) A_CHARTEXT = c_byte c.
Proof.
  intros H. unfold chtype_or. fold (c_byte c).
  rewrite Z.land_lor_distr_l, H, Z.lor_0_r.
  change A_CHARTEXT with (Z.ones 8).
  rewrite Z.land_ones by lia.
  apply Z.mod_small. pose proof (c_byte_range c). lia.
Qed.

(** X3: whatever the terminal and the names, the attributes of
    [setup_colors] leave the low byte of a cell to the glyph, also with
    bold or dim added as the rain is drawn; the lightning attribute has
    the bold bit; each pair initialised is the rain pair 1 or the
    lightning pair 4, with a colour from 0 to 7 on the default
    background; and a terminal without colours gets no call at all. *)
Theorem setup_colors_attrs
    (has_colors : bool) (rain_name lightning_name : option string) :
  let '(rain_attr, light_attr, ops) :=
    setup_colors has_colors rain_name lightning_name in
  (forall c,
      Z.land (chtype_or c light_attr) A_CHARTEXT = c_byte c
      /\ Z.land (chtype_or c rain_attr) A_CHARTEXT = c_byte c
      /\ Z.land (chtype_or c (Z.lor rain_attr Curses.A_BOLD)) A_CHARTEXT
         = c_byte c
      /\ Z.land (chtype_or c (Z.lor rain_attr Curses.A_DIM)) A_CHARTEXT
         = c_byte c)
  /\ Z.land light_attr Curses.A_BOLD = Curses.A_BOLD
  /\ Forall (fun op => match op with
                       | OpInitPair p fg bg =>
                           (p = CP_RAIN_NORMAL \/ p = CP_LIGHTNING)
                           /\ 0 <= fg <= 7 /\ bg = -1
                       | _ => True
                       end) ops
  /\ (has_colors = false -> ops = []).
Proof.
  unfold setup_colors.
  destruct has_colors; cbn [negb].
  - split; [|split; [reflexivity|split; [|discriminate]]].
    + intros c. repeat split; apply glyph_kept; reflexivity.
    + assert (R : forall s d, 0 <= d <= 7 -> 0 <= color_from_name s d <= 7).
      { intros s d Hd. destruct (color_from_name_range s d) as [->|H]; lia. }
      repeat constructor; auto;
        apply R; unfold Color.COLOR_CYAN, Color.COLOR_YELLOW; lia.
  - split; [|split; [reflexivity|split; [constructor|reflexivity]]].
    intros c. repeat split; apply glyph_kept; reflexivity.
Qed.

(** ** Pushing on a growable array *)

Lemma vec_push_ok A first (rv : Vec A) d :
  0 < first <= INT_MAX -> vec_ok first rv ->
  (vec_n rv = vec_cap rv -> vec_cap rv * 2 <= INT_MAX) ->
  exists rv',
    vec_push first rv d = Some rv'
    /\ vec_v rv' = vec_v rv ++ [d]
    /\ vec_ok first rv'
    /\ vec_cap rv <= vec_cap rv'
    /\ (vec_n rv < vec_cap rv -> vec_cap rv' = vec_cap rv)
    /\ (vec_n rv = vec_cap rv ->
        vec_cap rv' = if vec_cap rv =? 0 then first else vec_cap rv * 2).
Proof.
  intros Hf [Hn Hc] Ho. unfold vec_push.
  assert (H0 : 0 <= vec_n rv) by (unfold vec_n; lia).
  destruct (Z.eqb_spec (vec_n rv) (vec_cap rv)) as [E|E]; cbn [andb].
  - specialize (Ho E).
    set (cap := if vec_cap rv =? 0 then first else vec_cap rv * 2).
    assert (Hcap : vec_n rv < cap <= INT_MAX /\ vec_cap rv <= cap).
    { unfold cap. destruct (Z.eqb_spec (vec_cap rv) 0); lia. }
    destruct (Z.ltb_spec INT_MAX cap) as [C|_]; [lia|].
    destruct (Z.leb_spec 0 (vec_n rv)) as [_|C]; [|lia].
    destruct (Z.ltb_spec (vec_n rv) cap) as [_|C]; [|lia].
    cbn [andb]. eexists. split; [reflexivity|]. cbn [vec_v vec_cap].
    split; [reflexivity|]. split; [|split; [lia|split; [lia|reflexivity]]].
    split.
    + unfold vec_n. cbn [vec_v vec_cap]. rewrite length_app. cbn [length].
      unfold vec_n in Hcap. lia.
    + right. cbn [vec_cap]. unfold cap. destruct (Z.eqb_spec (vec_cap rv) 0) as [Z0|Z0].
      * exists 0. split; [lia|]. rewrite Z.pow_0_r. lia.
      * destruct Hc as [C|(k & Hk & Ek)]; [contradiction|].
        exists (k + 1). split; [lia|].
        rewrite Ek, Z.pow_add_r, Z.pow_1_r by lia. lia.
  - destruct (Z.leb_spec 0 (vec_n rv)) as [_|C]; [|lia].
    destruct (Z.ltb_spec (vec_n rv) (vec_cap rv)) as [_|C]; [|lia].
    cbn [andb]. eexists. split; [reflexivity|]. cbn [vec_v vec_cap].
    split; [reflexivity|]. split; [|split; [lia|split; [reflexivity|lia]]].
    split; [|exact Hc].
    unfold vec_n in *. cbn [vec_v vec_cap]. rewrite length_app.
    cbn [length]. lia.
Qed.

(** X4: a push on an array built by pushes, whose capacity can still
    double, succeeds: the element is stored inside the allocated cells,
    after the cells in use, which are kept; the array is reallocated
    only when it is full, to twice its capacity (or to the first
    capacity); and a segment pushed this way is the segment [seg_push]
    adds to the bolt.  Cutting the array keeps it well formed. *)
Theorem vec_push_safe
    (A : Type) (first : Z) (rv : Vec A) (d : A) :
  0 < first <= INT_MAX ->
  vec_ok first rv ->
  vec_cap rv * 2 <= INT_MAX ->
  (exists rv',
      vec_push first rv d = Some rv'
      /\ vec_v rv' = vec_v rv ++ [d]
      /\ vec_ok first rv'
      /\ (vec_n rv < vec_cap rv -> vec_cap rv' = vec_cap rv)
      /\ (vec_n rv = vec_cap rv ->
          vec_cap rv' = if vec_cap rv =? 0 then first else vec_cap rv * 2))
  /\ (forall w, vec_ok first (vec_cut rv w))
  /\ vec_ok first (mkVec (@nil A) 0)
  /\ (forall b sv s sv',
        vec_v sv = segs b -> seg_push_cap sv s = Some sv' ->
        vec_v sv' = segs (seg_push b s)).
Proof.
  intros Hf Hok Ho.
  split; [|split; [|split]].
  - destruct (@vec_push_ok A first rv d Hf Hok (fun _ => Ho))
      as (rv' & E & H1 & H2 & _ & H4 & H5).
    exists rv'. auto.
  - intros w. destruct Hok as [Hn Hc]. split; [|exact Hc].
    unfold vec_n, vec_cut in *. cbn [vec_v vec_cap].
    rewrite length_firstn. lia.
  - split; [cbn; lia|left; reflexivity].
  - intros b sv s sv' Hv Hp. unfold seg_push_cap, vec_push in Hp.
    destruct (_ && (INT_MAX <? _)); [discriminate|].
    destruct (_ && _) in Hp; [|discriminate].
    injection Hp as <-. cbn. rewrite Hv. reflexivity.
Qed.

Lemma vec_push_safe_witness :
  0 < 64 <= INT_MAX
  /\ vec_ok 64 (mkVec [1; 2; 3] 64)
  /\ 64 * 2 <= INT_MAX
  /\ vec_push 64 (mkVec [1; 2; 3] 64) 4 = Some (mkVec [1; 2; 3; 4] 64).
Proof.
  assert (H1 : 0 < 64 <= INT_MAX) by (unfold INT_MAX; lia).
  assert (H2 : vec_ok 64 (mkVec [1; 2; 3] 64)).
  { split; [cbn; lia|]. right. exists 0. split; [lia|reflexivity]. }
  assert (H3 : vec_cap (mkVec [1; 2; 3] 64) * 2 <= INT_MAX)
    by (cbn; unfold INT_MAX; lia).
  split; [exact H1|]. split; [exact H2|]. split; [exact H3|].
  destruct (@vec_push_safe Z 64 (mkVec [1; 2; 3] 64) 4 H1 H2 H3)
    as [(rv' & E & _) _].
  reflexivity.
Defined.

(** ** The capacity after a run of pushes *)

Lemma vec_tight_ok A first (rv : Vec A) :
  vec_tight first rv -> vec_ok first rv.
Proof.
  intros [[E C]|(H1 & _ & H3)]; split.
  - unfold vec_n. rewrite E, C. cbn. lia.
  - left; exact C.
  - lia.
  - right; exact H3.
Qed.

Lemma vec_push_all_tight A first (l : list A) : forall rv,
  0 < first <= INT_MAX ->
  vec_tight first rv ->
  2 * (vec_n rv + Z.of_nat (length l)) <= INT_MAX + 2 ->
  exists rv',
    vec_push_all first rv l = Some rv'
    /\ vec_v rv' = vec_v rv ++ l
    /\ vec_tight first rv'.
Proof.
  induction l as [|d l IH]; intros rv Hf Ht Hl.
  - exists rv. cbn. rewrite app_nil_r. auto.
  - cbn [length] in Hl. rewrite Nat2Z.inj_succ in Hl.
    destruct (@vec_push_ok A first rv d Hf (vec_tight_ok Ht))
      as (rv1 & E & Hv & Hok & Hle & Hsame & Hdbl); [lia|].
    assert (Hn1 : vec_n rv1 = vec_n rv + 1).
    { unfold vec_n. rewrite Hv, length_app. cbn [length]. lia. }
    assert (Ht1 : vec_tight first rv1).
    { right. destruct Hok as [Hn Hc].
      assert (0 <= vec_n rv) by (unfold vec_n; lia).
      split; [lia|].
      destruct Ht as [[E0 C0]|(H1 & H2 & H3)].
      - assert (N0 : vec_n rv = 0) by (unfold vec_n; rewrite E0; reflexivity).
        assert (C1 : vec_cap rv1 = first).
        { rewrite Hdbl by lia. rewrite C0. reflexivity. }
        split; [left; exact C1|]. exists 0. split; [lia|].
        rewrite C1, Z.pow_0_r. lia.
      - destruct (Z.eq_dec (vec_n rv) (vec_cap rv)) as [F|F].
        + assert (C1 : vec_cap rv1 = vec_cap rv * 2).
          { rewrite Hdbl by exact F.
            destruct (Z.eqb_spec (vec_cap rv) 0); [lia|reflexivity]. }
          split; [right; lia|].
          destruct H3 as (k & Hk & Ek). exists (k + 1). split; [lia|].
          rewrite C1, Ek, Z.pow_add_r, Z.pow_1_r by lia. lia.
        + rewrite Hsame by lia. split; [lia|exact H3]. }
    destruct (IH rv1 Hf Ht1) as (rv' & E' & Hv' & Ht'); [lia|].
    exists rv'. cbn [vec_push_all]. rewrite E. split; [exact E'|].
    split; [|exact Ht']. rewrite Hv', Hv, <- app_assoc. reflexivity.
Qed.

(** X5: the pushes of a non-empty list of at most [2^30] elements
    (twice their number is at most [INT_MAX + 2]) onto an empty array
    all succeed and store the elements in order; the capacity reached is
    the first capacity doubled some times, it holds the elements, and it
    is the first capacity or less than twice their number: the array
    never holds more than half of its cells unused once it has grown.
    The bound is the code's own: a push on a full array whose capacity
    cannot double within [INT_MAX] fails. *)
Theorem vec_push_all_capacity (A : Type) (first : Z) (l : list A) :
  0 < first <= INT_MAX ->
  2 * Z.of_nat (length l) <= INT_MAX + 2 ->
  l <> [] ->
  (exists rv,
      vec_push_all first (mkVec [] 0) l = Some rv
      /\ vec_v rv = l
      /\ Z.of_nat (length l) <= vec_cap rv
      /\ (vec_cap rv = first \/ vec_cap rv < 2 * Z.of_nat (length l))
      /\ exists k, 0 <= k /\ vec_cap rv = first * 2 ^ k)
  /\ (forall (rv : Vec A) d,
        vec_n rv = vec_cap rv -> vec_cap rv <> 0 ->
        INT_MAX < vec_cap rv * 2 ->
        vec_push first rv d = None).
Proof.
  intros Hf Hl Hne. split.
  - destruct (@vec_push_all_tight A first l (mkVec [] 0) Hf)
      as (rv & E & Hv & Ht).
    + left. split; reflexivity.
    + unfold vec_n. cbn [vec_v length]. lia.
    + cbn in Hv. exists rv. split; [exact E|]. split; [exact Hv|].
      destruct Ht as [[E0 _]|(H1 & H2 & H3)].
      * rewrite Hv in E0. contradiction.
      * unfold vec_n in *. rewrite Hv in *. split; [lia|]. split; assumption.
  - intros rv d En Hc Ho. unfold vec_push.
    rewrite En, Z.eqb_refl.
    destruct (Z.eqb_spec (vec_cap rv) 0) as [C|_]; [contradiction|].
    destruct (Z.ltb_spec INT_MAX (vec_cap rv * 2)) as [_|C]; [|lia].
    reflexivity.
Qed.

Lemma vec_push_all_capacity_witness :
  0 < 2 <= INT_MAX
  /\ 2 * Z.of_nat (length [10; 20; 30; 40; 50]) <= INT_MAX + 2
  /\ [10; 20; 30; 40; 50] <> []
  /\ vec_push_all 2 (mkVec [] 0) [10; 20; 30; 40; 50]
     = Some (mkVec [10; 20; 30; 40; 50] 8).
Proof.
  assert (H1 : 0 < 2 <= INT_MAX) by (unfold INT_MAX; lia).
  assert (H2 : 2 * Z.of_nat (length [10; 20; 30; 40; 50]) <= INT_MAX + 2)
    by (cbn; unfold INT_MAX; lia).
  assert (H3 : [10; 20; 30; 40; 50] <> []) by discriminate.
  split; [exact H1|]. split; [exact H2|]. split; [exact H3|].
  destruct (@vec_push_all_capacity Z 2 [10; 20; 30; 40; 50] H1 H2 H3)
    as [(rv & E & _) _].
  reflexivity.
Defined.

(** ** The rain spawned in a frame *)

Lemma c_rem_eq a b wld : b <> 0 -> c_rem a b wld = Some (Z.rem a b, wld).
Proof.
  intros H. unfold c_rem. destruct (Z.eqb_spec b 0); [contradiction|].
  reflexivity.
Qed.

Lemma arr_at_ra_chars r wld :
  0 <= r ->
  exists c, arr_at ra_chars (Z.rem r 3) wld = Some (c, wld)
            /\ In c ra_chars.
Proof.
  intros Hr. pose proof (Z.rem_bound_pos r 3 Hr ltac:(lia)) as Hb.
  assert (C : Z.rem r 3 = 0 \/ Z.rem r 3 = 1 \/ Z.rem r 3 = 2) by lia.
  destruct C as [->|[->| ->]]; eexists; (split; [reflexivity|]);
    cbn; auto.
Qed.

Lemma rand_ok_reposition wld c r : rand_ok wld -> rand_ok (reposition wld c r).
Proof. intros H n. apply H. Qed.

Lemma reposition_reposition wld c r c' r' :
  reposition (reposition wld c r) c' r' = reposition wld c' r'.
Proof. reflexivity. Qed.

Lemma spawn_drops_spec n cols lo hi : forall rain wld,
  rand_ok wld ->
  exists new,
    spawn_drops n cols lo hi rain wld
    = Some (rain ++ new,
            reposition wld (clock_pos wld) (rng_pos wld + 3 * n))
    /\ length new = n
    /\ Forall (fresh_drop cols lo hi) new.
Proof.
  induction n as [|n IH]; intros rain wld Hok.
  - exists []. cbn [spawn_drops]. unfold ret.
    rewrite app_nil_r, Nat.mul_0_r, Nat.add_0_r, reposition_same. auto.
  - cbn [spawn_drops].
    set (r1 := rng wld (rng_pos wld)).
    set (r2 := rng wld (S (rng_pos wld))).
    set (r3 := rng wld (S (S (rng_pos wld)))).
    assert (Hd : (if cols >? 1 then cols else 1) = Z.max 1 cols).
    { destruct (Z.gtb_spec cols 1); lia. }
    rewrite Hd.
    destruct (@arr_at_ra_chars r3
                (reposition wld (clock_pos wld) (S (S (S (rng_pos wld))))))
      as (c & Ec & Hc); [apply Hok|].
    set (d := mkRaindrop (Z.rem r1 (Z.max 1 cols)) Dbl.zero
                (Dbl.add lo (Dbl.mul (Dbl.div (Dbl.of_int r2)
                                              (Dbl.of_int RAND_MAX))
                                     (Dbl.sub hi lo))) c).
    destruct (IH (rain ++ [d])
                 (reposition wld (clock_pos wld) (S (S (S (rng_pos wld))))))
      as (new & E & Hl & Hf); [apply rand_ok_reposition, Hok|].
    exists (d :: new).
    mstep (rand_eq wld).
    mstep (@c_rem_eq r1 (Z.max 1 cols)
             (reposition wld (clock_pos wld) (S (rng_pos wld)))
             ltac:(lia)).
    mstep (rand_unit_eq (reposition wld (clock_pos wld) (S (rng_pos wld)))).
    cbn [rng rng_pos clock_pos reposition].
    mstep (rand_eq (reposition wld (clock_pos wld) (S (S (rng_pos wld))))).
    cbn [rng rng_pos clock_pos reposition].
    mstep Ec.
    fold r2. fold d. rewrite E. cbn [rng rng_pos clock_pos reposition length].
    rewrite <- app_assoc. cbn [app].
    replace (S (S (S (rng_pos wld))) + 3 * n)%nat
      with (rng_pos wld + 3 * S n)%nat by lia.
    split; [reflexivity|]. split; [rewrite Hl; reflexivity|].
    constructor; [|exact Hf].
    unfold fresh_drop, d. cbn [rd_x rd_y rd_ch rd_speed].
    split; [reflexivity|]. split.
    + apply Z.rem_bound_pos; [apply Hok|lia].
    + split; [exact Hc|]. exists r2. split; [apply Hok|reflexivity].
Qed.

Lemma set_rain_same s : set_rain s (rain s) = s.
Proof. destruct s; reflexivity. Qed.

Lemma spawn_rain_step_run s wld :
  rand_ok wld ->
  let chance := if thunder s then Dbl.lit 5 10 else Dbl.lit 3 10 in
  let max_new := Z.quot (g_cols s) (if thunder s then 8 else 15) in
  let max_speed := if thunder s then Dbl.of_int 1 else Dbl.lit 6 10 in
  let u := Dbl.div (Dbl.of_int (rng wld (rng_pos wld)))
                   (Dbl.of_int RAND_MAX) in
  exists new r,
    spawn_rain_step s wld
    = Some (set_rain s (rain s ++ new),
            reposition wld (clock_pos wld) r)
    /\ (rng_pos wld < r)%nat
    /\ (Dbl.lt u chance = false -> new = [])
    /\ (Dbl.lt u chance = true ->
        1 <= Z.of_nat (length new) <= Z.max 1 max_new)
    /\ Forall (fresh_drop (g_cols s) (Dbl.lit 3 10) max_speed) new.
Proof.
  intros Hok chance max_new max_speed u.
  unfold spawn_rain_step.
  mstep (rand_unit_eq wld). fold u.
  assert (Ec : (if thunder s then Dbl.lit 5 10 else Dbl.lit 3 10) = chance)
    by reflexivity.
  assert (Em : (if thunder s then Z.quot (g_cols s) 8
                else Z.quot (g_cols s) 15) = max_new).
  { unfold max_new. destruct (thunder s); reflexivity. }
  rewrite Ec, Em. fold max_speed.
  destruct (Dbl.lt u chance) eqn:Eu.
  - set (w1 := reposition wld (clock_pos wld) (S (rng_pos wld))).
    assert (Hk : exists k r1,
               (if max_new >? 1 then r <- rand ;; c_rem r max_new else ret 0)
                 w1 = Some (k, reposition wld (clock_pos wld) r1)
               /\ (rng_pos wld < r1)%nat
               /\ 0 <= k /\ 1 + k <= Z.max 1 max_new).
    { destruct (Z.gtb_spec max_new 1) as [G|G].
      - exists (Z.rem (rng w1 (rng_pos w1)) max_new), (S (rng_pos w1)).
        mstep (rand_eq w1).
        rewrite c_rem_eq by lia.
        split; [reflexivity|]. split; [cbn; lia|].
        pose proof (@Z.rem_bound_pos (rng w1 (rng_pos w1)) max_new
                      ltac:(apply Hok) ltac:(lia)).
        lia.
      - exists 0, (S (rng_pos wld)). split; [reflexivity|].
        split; [lia|]. lia. }
    destruct Hk as (k & r1 & Ek & Hr1 & Hk0 & Hk1).
    mstep Ek.
    destruct (@spawn_drops_spec (Z.to_nat (1 + k)) (g_cols s) (Dbl.lit 3 10)
                max_speed (rain s) (reposition wld (clock_pos wld) r1))
      as (new & E & Hl & Hf); [apply rand_ok_reposition, Hok|].
    mstep E. cbn [rng_pos clock_pos reposition].
    rewrite reposition_reposition.
    exists new, (r1 + 3 * Z.to_nat (1 + k))%nat.
    split; [reflexivity|]. split; [lia|]. split; [discriminate|].
    split; [|exact Hf]. intros _. rewrite Hl. lia.
  - exists [], (S (rng_pos wld)). rewrite app_nil_r, set_rain_same.
    split; [reflexivity|]. split; [lia|]. split; [reflexivity|].
    split; [discriminate|constructor].
Qed.

(** X6: when [rand] gives values from 0 to [RAND_MAX], the rain spawn
    step of a frame always succeeds, whatever the size of the screen,
    zero columns included: it appends raindrops to the rain it had and
    changes nothing else; it spawns none exactly when the draw is not
    below the chance of the mode, and otherwise at least one and at most
    an eighth (thunderstorm) or a fifteenth of the columns, or one;
    each new raindrop starts at the top row, in a column of the screen,
    with one of the glyphs [|], [.] and [`] and the speed drawn for it;
    and the step only reads random numbers. *)
Theorem spawn_rain_step_spawns (s : State) (wld : World) :
  rand_ok wld ->
  let chance := if thunder s then Dbl.lit 5 10 else Dbl.lit 3 10 in
  let max_new := Z.quot (g_cols s) (if thunder s then 8 else 15) in
  let max_speed := if thunder s then Dbl.of_int 1 else Dbl.lit 6 10 in
  let u := Dbl.div (Dbl.of_int (rng wld (rng_pos wld)))
                   (Dbl.of_int RAND_MAX) in
  exists new r,
    spawn_rain_step s wld
    = Some (set_rain s (rain s ++ new),
            reposition wld (clock_pos wld) r)
    /\ (rng_pos wld < r)%nat
    /\ (Dbl.lt u chance = false -> new = [])
    /\ (Dbl.lt u chance = true ->
        1 <= Z.of_nat (length new) <= Z.max 1 max_new)
    /\ Forall (fresh_drop (g_cols s) (Dbl.lit 3 10) max_speed) new.
Proof. apply spawn_rain_step_run. Qed.

Lemma spawn_rain_step_spawns_witness :
  rand_ok demo_world
  /\ exists new r,
       spawn_rain_step demo_start demo_world
       = Some (set_rain demo_start (rain demo_start ++ new),
               reposition demo_world (clock_pos demo_world) r).
Proof.
  split; [exact demo_world_rand_ok|].
  destruct (@spawn_rain_step_spawns demo_start demo_world demo_world_rand_ok)
    as (new & r & E & _).
  exists new, r. exact E.
Defined.

(** ** The picture of a frame *)

Lemma on_grid_segment_cell rows cols attr age sg :
  Forall (on_grid rows cols) (spec_segment_cell rows cols attr age sg)
  /\ (length (spec_segment_cell rows cols attr age sg) <= 1)%nat.
Proof.
  unfold spec_segment_cell.
  destruct (spec_fade_glyph age); [|split; [constructor|cbn; lia]].
  destruct (_ && _) eqn:E; [|split; [constructor|cbn; lia]].
  split; [|cbn; lia]. constructor; [|constructor].
  apply andb_prop in E as [E E4]. apply andb_prop in E as [E E3].
  apply andb_prop in E as [E1 E2]. cbn. lia.
Qed.

Lemma on_grid_segments rows cols attr t l :
  Forall (on_grid rows cols)
    (flat_map (fun sg => spec_segment_cell rows cols attr
                           (Dbl.sub t (birth sg)) sg) l)
  /\ (length (flat_map (fun sg => spec_segment_cell rows cols attr
                                   (Dbl.sub t (birth sg)) sg) l)
      <= length l)%nat.
Proof.
  induction l as [|sg l [IH1 IH2]]; [split; [constructor|cbn; lia]|].
  cbn [flat_map length].
  destruct (on_grid_segment_cell rows cols attr (Dbl.sub t (birth sg)) sg)
    as [H1 H2].
  split; [apply Forall_app; auto|]. rewrite length_app. lia.
Qed.

Lemma add_screen_reposition wld ops c r :
  reposition (add_screen wld ops) c r = add_screen (reposition wld c r) ops.
Proof. reflexivity. Qed.

Lemma draw_bolts_spec rows cols attr l : forall wld,
  exists cells,
    draw_bolts rows cols attr l wld
    = Some (tt, add_screen (reposition wld (clock_pos wld + length l)
                                       (rng_pos wld)) cells)
    /\ Forall (on_grid rows cols) cells
    /\ (length cells <= seg_total l)%nat.
Proof.
  induction l as [|b l IH]; intros wld.
  - exists []. cbn [draw_bolts length]. unfold ret.
    rewrite Nat.add_0_r, reposition_same, add_screen_nil.
    split; [reflexivity|]. split; [constructor|cbn; lia].
  - cbn [draw_bolts]. unfold bolt_draw.
    mstep (now_sec_eq wld).
    set (w1 := reposition wld (S (clock_pos wld)) (rng_pos wld)).
    set (t := clock wld (clock_pos wld)).
    mstep (draw_segments_eq rows cols t attr (segs b) w1).
    destruct (on_grid_segments rows cols attr t (segs b)) as [H1 H2].
    set (c1 := flat_map _ (segs b)) in *.
    destruct (IH (add_screen w1 c1)) as (c2 & E & H3 & H4).
    exists (c1 ++ c2). rewrite E.
    split.
    + unfold add_screen, reposition, w1. cbn. rewrite app_assoc.
      replace (S (clock_pos wld + length l))
        with (clock_pos wld + S (length l))%nat by lia.
      reflexivity.
    + split; [apply Forall_app; auto|].
      unfold seg_total in *. cbn [flat_map]. rewrite !length_app. lia.
Qed.

Lemma draw_drop_spec s d wld :
  exists cells,
    draw_drop s d wld = Some (tt, add_screen wld cells)
    /\ Forall (on_grid (g_rows s) (g_cols s)) cells
    /\ (length cells <= 1)%nat.
Proof.
  unfold draw_drop.
  destruct (_ && _) eqn:E.
  - eexists [_]. split; [apply term_eq|]. split; [|cbn; lia].
    constructor; [|constructor].
    apply andb_prop in E as [E E4]. apply andb_prop in E as [E E3].
    apply andb_prop in E as [E1 E2]. cbn. lia.
  - exists []. unfold ret. rewrite add_screen_nil.
    split; [reflexivity|]. split; [constructor|cbn; lia].
Qed.

Lemma draw_rain_spec s l : forall wld,
  exists cells,
    draw_rain s l wld = Some (tt, add_screen wld cells)
    /\ Forall (on_grid (g_rows s) (g_cols s)) cells
    /\ (length cells <= length l)%nat.
Proof.
  induction l as [|d l IH]; intros wld.
  - exists []. cbn [draw_rain]. unfold ret. rewrite add_screen_nil.
    split; [reflexivity|]. split; [constructor|cbn; lia].
  - cbn [draw_rain].
    destruct (draw_drop_spec s d wld) as (c1 & E1 & H1 & L1).
    destruct (IH (add_screen wld c1)) as (c2 & E2 & H2 & L2).
    exists (c1 ++ c2). mstep E1. rewrite E2, add_screen_app.
    split; [reflexivity|]. split; [apply Forall_app; auto|].
    rewrite length_app. cbn [length]. lia.
Qed.

Lemma render_run s wld :
  exists cells,
    render s wld
    = Some (tt, add_screen (reposition wld
                              (clock_pos wld + length (bolts s))
                              (rng_pos wld))
                  (OpErase :: cells ++ [OpDoupdate; OpRefresh]))
    /\ Forall (on_grid (g_rows s) (g_cols s)) cells
    /\ (length cells <= seg_total (bolts s) + length (rain s))%nat.
Proof.
  unfold render.
  mstep (term_eq OpErase wld).
  destruct (draw_bolts_spec (g_rows s) (g_cols s) (light_attr s) (bolts s)
              (add_screen wld [OpErase])) as (c1 & E1 & H1 & L1).
  mstep E1.
  set (w1 := add_screen _ c1).
  destruct (draw_rain_spec s (rain s) w1) as (c2 & E2 & H2 & L2).
  mstep E2.
  mstep (term_eq OpDoupdate (add_screen w1 c2)).
  rewrite term_eq.
  exists (c1 ++ c2).
  split.
  - unfold w1, add_screen, reposition. cbn.
    rewrite <- !app_assoc. reflexivity.
  - split; [apply Forall_app; auto|]. rewrite length_app. lia.
Qed.

(** X7: [render] always succeeds and draws a whole picture: it erases,
    writes cells, and updates and refreshes the screen, in this order;
    every cell it writes lies on the screen of the size the program
    holds, whatever the positions stored in the bolts and the raindrops;
    it writes at most one cell for each segment and each raindrop;
    and besides the screen it only reads the clock, once for each
    bolt. *)
Theorem render_on_screen (s : State) (wld : World) :
  exists cells,
    render s wld
    = Some (tt, add_screen (reposition wld
                              (clock_pos wld + length (bolts s))
                              (rng_pos wld))
                  (OpErase :: cells ++ [OpDoupdate; OpRefresh]))
    /\ Forall (on_grid (g_rows s) (g_cols s)) cells
    /\ (length cells <= seg_total (bolts s) + length (rain s))%nat.
Proof. apply render_run. Qed.

(** ** Where the loop can fail *)

Lemma spawn_bolt_step_none s wld :
  spawn_bolt_step s wld = None <->
  thunder s = true /\ bolt_count s < 3
  /\ Dbl.lt (Dbl.div (Dbl.of_int (rng wld (rng_pos wld)))
                     (Dbl.of_int RAND_MAX)) LIGHTNING_CHANCE = true
  /\ (-2 < g_cols s < 2 \/ g_rows s = 0).
Proof.
  unfold spawn_bolt_step.
  destruct (thunder s && (bolt_count s <? 3)) eqn:Ec.
  - apply andb_prop in Ec as [Et Ec]. apply Z.ltb_lt in Ec.
    mstep (rand_unit_eq wld).
    set (w1 := reposition wld (clock_pos wld) (S (rng_pos wld))).
    destruct (Dbl.lt _ LIGHTNING_CHANCE).
    + mstep (eq_refl : ret true w1 = Some (true, w1)). cbv iota.
      mstep (rand_eq w1).
      set (w2 := reposition w1 (clock_pos w1) (S (rng_pos w1))).
      destruct (Z.eq_dec (Z.quot (g_cols s) 2) 0) as [C|C].
      * split; [intros _|intros _].
        -- repeat (split; [assumption || reflexivity|]). left.
           apply Z.quot_small_iff in C; lia.
        -- unfold bind, c_rem. rewrite C. reflexivity.
      * mstep (@c_rem_eq (rng w1 (rng_pos w1)) (Z.quot (g_cols s) 2) w2 C).
        mstep (rand_eq w2).
        set (w3 := reposition w2 (clock_pos w2) (S (rng_pos w2))).
        set (d := if g_rows s >? 5 then Z.quot (g_rows s) 5 else g_rows s).
        destruct (Z.eq_dec d 0) as [D|D].
        -- split; [intros _|intros _].
           ++ repeat (split; [assumption || reflexivity|]). right.
              unfold d in D. destruct (Z.gtb_spec (g_rows s) 5) as [G|G];
                [|exact D].
              apply Z.quot_small_iff in D; lia.
           ++ unfold bind, c_rem. rewrite D. reflexivity.
        -- mstep (@c_rem_eq (rng w2 (rng_pos w2)) d w3 D).
           unfold bind. rewrite bolt_create_eq.
           split; [discriminate|].
           intros (_ & _ & _ & [H|H]).
           ++ exfalso. apply C. apply Z.quot_small_iff; lia.
           ++ exfalso. apply D. unfold d. rewrite H. reflexivity.
    + mstep (eq_refl : ret false w1 = Some (false, w1)). cbv iota.
      split; [discriminate|]. intros (_ & _ & H & _). discriminate.
  - unfold bind, ret. split; [discriminate|].
    intros (Et & Hc & _). rewrite Et in Ec.
    apply Z.ltb_lt in Hc. rewrite Hc in Ec. discriminate.
Qed.

(** X8: the bolt spawn of a frame fails, by a division by zero, in
    exactly one situation: thunderstorm mode is on, fewer than three
    bolts exist, the draw is below the spawn chance, and the screen has
    fewer than two columns or no row.  The random column is taken modulo
    half the columns without the guard the rain spawn has for its own
    modulus. *)
Theorem spawn_bolt_step_fails (s : State) (wld : World) :
  spawn_bolt_step s wld = None <->
  thunder s = true /\ bolt_count s < 3
  /\ Dbl.lt (Dbl.div (Dbl.of_int (rng wld (rng_pos wld)))
                     (Dbl.of_int RAND_MAX)) LIGHTNING_CHANCE = true
  /\ (-2 < g_cols s < 2 \/ g_rows s = 0).
Proof. apply spawn_bolt_step_none. Qed.

Lemma rand_ok_tapes w w' : same_tapes w w' -> rand_ok w -> rand_ok w'.
Proof. intros [_ E] H n. rewrite E. apply H. Qed.

Lemma pace_step_run s wld :
  exists t wld', pace_step s wld = Some (set_last s t, wld').
Proof.
  unfold pace_step. mstep (now_sec_eq wld).
  set (w1 := reposition _ _ _).
  destruct (Dbl.lt _ UPDATE_INTERVAL).
  - mstep (sleep_sec_eq (Dbl.sub UPDATE_INTERVAL
                           (Dbl.sub (clock wld (clock_pos wld)) (last s))) w1).
    match goal with |- context [bind now_sec _ ?w] => set (w2 := w) end.
    mstep (now_sec_eq w2). eexists _, _. reflexivity.
  - mstep (eq_refl : ret tt w1 = Some (tt, w1)).
    mstep (now_sec_eq w1). eexists _, _. reflexivity.
Qed.

Lemma run_phase_total p s wld :
  rand_ok wld -> store_ok s ->
  (p = PSpawnBolt -> roomy (g_rows s, g_cols s)) ->
  exists s' wld', run_phase p s wld = Some (s', wld').
Proof.
  intros Hr [Hne Hn] Hd. destruct p; cbn [run_phase].
  - rewrite resize_step_eq. destruct (g_resized s); eauto.
  - rewrite toggle_step_eq. destruct (is_toggle ch); eauto.
  - destruct (pace_step_run s wld) as (t & w' & E). eauto.
  - destruct (spawn_bolt_step s wld) as [[s' w']|] eqn:E; [eauto|].
    apply spawn_bolt_step_none in E as (_ & _ & _ & E).
    destruct (Hd eq_refl) as [H1 H2]. cbn [fst snd] in *. lia.
  - destruct (step_bolts_run s wld Hne) as (bs' & w' & E & _). eauto.
  - destruct (@spawn_rain_step_run s wld Hr) as (new & r & E & _).
    eauto.
  - rewrite step_rain_eq. eauto.
  - destruct (render_run s wld) as (cells & E & _).
    unfold bind. rewrite E. unfold ret. eauto.
Qed.

Lemma phase_dims p s wld s' wld' :
  run_phase p s wld = Some (s', wld') ->
  (forall d, p <> PResize d) ->
  g_rows s' = g_rows s /\ g_cols s' = g_cols s /\ g_resized s' = g_resized s.
Proof.
  intros H Hp. destruct p; cbn [run_phase] in H.
  - exfalso. exact (Hp dims eq_refl).
  - rewrite toggle_step_eq in H. destruct (is_toggle ch);
      injection H as <- _; auto.
  - apply pace_step_bolts in H as [t ->]. auto.
  - apply spawn_bolt_step_inv in H as [->|(_ & _ & sr & sc & w1 & b & _ & ->)];
      auto.
  - unfold step_bolts in H. minv H. inv_ret H. auto.
  - apply spawn_rain_step_inv in H as [r ->]. auto.
  - rewrite step_rain_eq in H. injection H as <- _. auto.
  - minv H. inv_ret H. auto.
Qed.

Lemma run_phases_total ps : forall s wld,
  Forall (fun p => forall d, p <> PResize d) ps ->
  rand_ok wld -> store_ok s -> roomy (g_rows s, g_cols s) ->
  exists s' wld',
    run_phases ps s wld = Some (s', wld')
    /\ rand_ok wld' /\ store_ok s'
    /\ g_rows s' = g_rows s /\ g_cols s' = g_cols s
    /\ g_resized s' = g_resized s.
Proof.
  induction ps as [|p ps IH]; intros s wld Hps Hr Hs Hd.
  - exists s, wld. cbn. auto 10.
  - inversion Hps as [|? ? Hp Hps']; subst.
    destruct (@run_phase_total p s wld Hr Hs (fun _ => Hd)) as (s1 & w1 & E).
    destruct (@phase_dims _ _ _ _ _ E Hp) as (D1 & D2 & D3).
    destruct (IH s1 w1 Hps') as (s' & w' & E' & Hr' & Hs' & D1' & D2' & D3').
    + eapply rand_ok_tapes; [|exact Hr]. exact (kt_run_phase p s _ E).
    + exact (@phase_store_ok _ _ _ _ _ E Hs).
    + rewrite D1, D2. exact Hd.
    + exists s', w'. cbn [run_phases]. mstep E.
      split; [exact E'|]. split; [exact Hr'|]. split; [exact Hs'|].
      rewrite D1', D2', D3'. auto.
Qed.

Lemma frame_total dims ch s wld :
  rand_ok wld -> loop_ok s -> roomy dims ->
  exists s' wld',
    frame dims ch s wld = Some ((s', negb (is_quit ch)), wld')
    /\ rand_ok wld' /\ loop_ok s'.
Proof.
  intros Hr [Hs Hd] Hdims. rewrite frame_eq. cbn [run_phase].
  set (s0 := if g_resized s
             then mkState (fst dims) (snd dims) false [] [] (thunder s)
                          (last s) (rain_attr s) (light_attr s)
             else s).
  set (w0 := if g_resized s
             then add_freed (add_screen wld [OpEndwin; OpRefresh; OpClear])
                            (map segs (bolts s))
             else wld).
  assert (H0 : rand_ok w0 /\ store_ok s0 /\ g_resized s0 = false
               /\ roomy (g_rows s0, g_cols s0)).
  { unfold s0, w0. destruct (g_resized s) eqn:Eg.
    - split; [exact Hr|]. split; [split; [constructor|cbn; lia]|].
      split; [reflexivity|]. destruct dims; exact Hdims.
    - auto. }
  destruct H0 as (Hr0 & Hs0 & Hg0 & Hd0).
  assert (E0 : resize_step dims s wld = Some (s0, w0)).
  { rewrite resize_step_eq. unfold s0, w0.
    destruct (g_resized s); reflexivity. }
  mstep E0.
  destruct (is_quit ch); cbn [negb].
  - exists s0, w0. split; [reflexivity|]. split; [exact Hr0|].
    split; [exact Hs0|]. intros _. exact Hd0.
  - destruct (@run_phases_total (frame_phases ch) s0 w0)
      as (s' & w' & E & Hr' & Hs' & D1 & D2 & D3); auto.
    { unfold frame_phases. repeat constructor; intros d; discriminate. }
    exists s', w'. mstep E. split; [reflexivity|]. split; [exact Hr'|].
    split; [exact Hs'|]. intros _. rewrite D1, D2. exact Hd0.
Qed.

Lemma main_loop_total evs : forall s wld,
  rand_ok wld -> loop_ok s -> frames_roomy evs ->
  exists s' running wld',
    main_loop evs s wld = Some ((s', running), wld')
    /\ rand_ok wld' /\ loop_ok s'
    /\ (running = false <-> Exists quits evs).
Proof.
  induction evs as [|e evs IH]; intros s wld Hr Hs He.
  - exists s, true, wld. cbn. split; [reflexivity|]. split; [exact Hr|].
    split; [exact Hs|]. split; [discriminate|]. intros H. inversion H.
  - inversion He as [|? ? He1 He2]; subst. destruct e as [|dims ch].
    + cbn [main_loop].
      destruct (IH (on_winch s) wld Hr) as (s' & rn & w' & E & H1 & H2 & H3).
      * destruct Hs as [Hs _]. split; [exact Hs|]. discriminate.
      * exact He2.
      * exists s', rn, w'. split; [exact E|]. split; [exact H1|].
        split; [exact H2|]. rewrite H3. split; [intros H; right; exact H|].
        intros H. inversion H as [? ? F|? ? F]; subst; [destruct F|exact F].
    + cbn [main_loop].
      destruct (@frame_total dims ch s wld Hr Hs He1)
        as (s1 & w1 & E1 & Hr1 & Hs1).
      mstep E1. destruct (is_quit ch) eqn:Eq; cbn [negb].
      * exists s1, false, w1. split; [reflexivity|]. split; [exact Hr1|].
        split; [exact Hs1|]. split; [intros _|reflexivity].
        left. exact Eq.
      * destruct (IH s1 w1 Hr1 Hs1 He2) as (s' & rn & w' & E & H1 & H2 & H3).
        exists s', rn, w'. split; [exact E|]. split; [exact H1|].
        split; [exact H2|]. rewrite H3. split; [intros H; right; exact H|].
        intros H. inversion H as [? ? F|? ? F]; subst; [|exact F].
        cbn in F. rewrite Eq in F. discriminate.
Qed.

(** X9: on screens of at least one row and two columns, with a [rand]
    that gives values from 0 to [RAND_MAX], the loop never fails:
    whatever the keys, the signals, the resizes, the clock and the
    mode, every iteration runs to its end; the loop is left exactly when
    an iteration reads a quit key, and until then the store is in order
    at the end of each event. *)
Theorem main_loop_never_fails (evs : list Event) (s : State) (wld : World) :
  rand_ok wld -> loop_ok s -> frames_roomy evs ->
  exists s' running wld',
    main_loop evs s wld = Some ((s', running), wld')
    /\ loop_ok s'
    /\ (running = false <-> Exists quits evs).
Proof.
  intros Hr Hs He.
  destruct (@main_loop_total evs s wld Hr Hs He)
    as (s' & rn & w' & E & _ & H2 & H3).
  exists s', rn, w'. auto.
Qed.

Lemma main_loop_never_fails_witness :
  rand_ok demo_world /\ loop_ok demo_start
  /\ frames_roomy [Frame (5, 40) 116; Winch; Frame (3, 2) 0]
  /\ exists s' running wld',
       main_loop [Frame (5, 40) 116; Winch; Frame (3, 2) 0]
                 demo_start demo_world
       = Some ((s', running), wld').
Proof.
  assert (H2 : loop_ok demo_start).
  { split; [split; [constructor|cbn; lia]|]. intros _. split; cbn; lia. }
  assert (H3 : frames_roomy [Frame (5, 40) 116; Winch; Frame (3, 2) 0]).
  { repeat constructor; cbn; lia. }
  split; [exact demo_world_rand_ok|]. split; [exact H2|]. split; [exact H3|].
  destruct (@main_loop_never_fails _ demo_start demo_world
              demo_world_rand_ok H2 H3) as (s' & rn & w' & E & _).
  exists s', rn, w'. exact E.
Defined.


(** ** The geometry of a growth step *)

Lemma clamp_x_bounds b nx : 0 < max_x b -> 0 <= clamp_x b nx < max_x b.
Proof.
  intros H. unfold clamp_x. cbv zeta.
  destruct (Z.ltb_spec nx 0); rewrite Z.geb_leb;
    match goal with
    | |- context [?a <=? ?c] => destruct (Z.leb_spec a c)
    end; lia.
Qed.

Lemma seg_at_last_eq b wld :
  segs b <> [] ->
  seg_at b (seg_count b - 1) wld = Some (last_seg b, wld).
Proof.
  intros H. destruct (exists_last H) as (l & a & E).
  unfold seg_at, seg_count, last_seg. rewrite E, length_app, last_last.
  cbn [length].
  destruct (Z.ltb_spec (Z.of_nat (length l + 1) - 1) 0) as [C|_]; [lia|].
  replace (Z.to_nat (Z.of_nat (length l + 1) - 1)) with (length l) by lia.
  rewrite nth_error_app2, Nat.sub_diag by lia. reflexivity.
Qed.

Lemma grow_branches_geom n :
  forall i lst t b cx px added log wld b' px' added' log' wld',
    grow_branches n i lst t b cx px added log wld
    = Some ((b', px', added', log'), wld') ->
    exists new,
      log' = log ++ new
      /\ length new = n
      /\ max_y b' = max_y b /\ max_x b' = max_x b
      /\ Forall (fun p => sg_y (snd p) = next_y b lst
                          /\ (0 < max_x b -> 0 <= sg_x (snd p) < max_x b))
                new.
Proof.
  induction n as [|n IH];
    intros i lst t b cx px added log wld b' px' added' log' wld' H;
    cbn [grow_branches] in H.
  - inv_ret H. exists []. rewrite app_nil_r. auto.
  - erewrite bind_eq in H by apply rand_eq. cbv zeta in H.
    apply IH in H as (new & E & Hl & My & Mx & Hf).
    eexists (_ :: new). rewrite <- app_assoc in E. cbn [app] in E.
    split; [exact E|]. split; [cbn [length]; rewrite Hl; reflexivity|].
    split; [exact My|]. split; [exact Mx|].
    constructor; [|exact Hf].
    cbn [snd sg_y sg_x]. split; [reflexivity|]. apply clamp_x_bounds.
Qed.

Lemma bolt_grow_geom b t wld b' log wld' :
  bolt_grow b t wld = Some ((b', log), wld') ->
  segs b <> [] ->
  (length log <= 4)%nat
  /\ Forall (fun p => sg_y (snd p) = sg_y (last_seg b) + 1
                      /\ (0 < max_x b -> 0 <= sg_x (snd p) < max_x b)) log
  /\ (log <> [] -> sg_y (last_seg b) < max_y b - 1).
Proof.
  intros H Hne. unfold bolt_grow in H. cbv zeta in H.
  erewrite bind_eq in H
    by (apply (@seg_at_last_eq (set_last_growth b t) wld); exact Hne).
  change (last_seg (set_last_growth b t)) with (last_seg b) in H.
  change (seg_count (set_last_growth b t)) with (seg_count b) in H.
  change (target_len (set_last_growth b t)) with (target_len b) in H.
  change (max_y (set_last_growth b t)) with (max_y b) in H.
  set (lst := last_seg b) in *.
  minv_as H res w1 Hg. destruct res as [[b1 added] log1]. inv_ret H.
  destruct ((seg_count b <? target_len b) && (sg_y lst <? max_y b - 1))
    eqn:Ec.
  2:{ inv_ret Hg. split; [cbn; lia|]. split; [constructor|].
      intros C. contradiction. }
  apply andb_prop in Ec as [_ Ey]. apply Z.ltb_lt in Ey.
  assert (Hny : next_y (set_last_growth b t) lst = sg_y lst + 1).
  { unfold next_y. cbn [max_y set_last_growth]. cbv zeta.
    rewrite Z.geb_leb. destruct (Z.leb_spec (max_y b) (sg_y lst + 1)); lia. }
  minv_as Hg u w2 Hu.
  minv_as Hg branches w3 Hb.
  assert (Hbr : (Z.to_nat branches <= 3)%nat).
  { destruct (Dbl.lt u LIGHTNING_BRANCH_CHANCE).
    - minv_as Hb r w4 Hr. inv_ret Hb. unfold LIGHTNING_MAX_BRANCHES.
      Z.to_euclidean_division_equations. lia.
    - inv_ret Hb. lia. }
  minv_as Hg res w4 Hgb. destruct res as [[[b2 px] added2] log2].
  apply grow_branches_geom in Hgb as (new & E & Hl & My & Mx & Hf).
  cbn [max_y max_x set_last_growth] in My, Mx.
  cbn [app] in E. subst log2.
  rewrite Hny in Hf. cbn [max_x set_last_growth] in Hf.
  minv_as Hg u2 w5 Hu2.
  assert (Hfinal : (length log <= S (length new))%nat
                   /\ Forall (fun p => sg_y (snd p) = sg_y lst + 1
                                       /\ (0 < max_x b ->
                                           0 <= sg_x (snd p) < max_x b)) log
                   /\ max_x b2 = max_x b2).
  { destruct (Dbl.lt u2 FORK_CHANCE).
    - minv_as Hg r w6 Hr. minv_as Hg off w7 Hoff.
      destruct (_ =? px).
      + inv_ret Hg. split; [lia|]. split; [exact Hf|reflexivity].
      + inv_ret Hg. split; [rewrite length_app; cbn; lia|].
        split; [|reflexivity].
        apply Forall_app. split; [exact Hf|].
        constructor; [|constructor]. cbn [snd sg_y sg_x].
        split.
        * unfold next_y. cbv zeta. rewrite My, Z.geb_leb.
          destruct (Z.leb_spec (max_y b) (sg_y lst + 1)); lia.
        * intros Hx. rewrite <- Mx. apply clamp_x_bounds. lia.
    - inv_ret Hg. split; [lia|]. split; [exact Hf|reflexivity]. }
  destruct Hfinal as (L & F & _).
  split; [lia|]. split; [exact F|]. intros _. exact Ey.
Qed.

Lemma bolt_update_log_shape b wld :
  segs b <> [] ->
  exists b' alive log wld',
    bolt_update_log b wld = Some ((b', alive, log), wld')
    /\ target_len b' = target_len b
    /\ max_y b' = max_y b /\ max_x b' = max_x b
    /\ segs b' = segs b ++ map snd log
    /\ (length log <= 4)%nat
    /\ Forall (fun p => sg_y (snd p) = sg_y (last_seg b) + 1
                        /\ (0 < max_x b -> 0 <= sg_x (snd p) < max_x b)) log
    /\ (log <> [] -> sg_y (last_seg b) < max_y b - 1
                     /\ seg_count b < target_len b)
    /\ (growing b' = true -> growing b = true)
    /\ ((growing b = true -> seg_count b < target_len b) ->
        growing b' = true -> seg_count b' < target_len b')
    /\ (growing b = false -> b' = b /\ rng_pos wld' = rng_pos wld).
Proof.
  intros Hne. unfold bolt_update_log.
  mstep (now_sec_eq wld).
  set (t := clock wld (clock_pos wld)).
  set (w1 := reposition wld (S (clock_pos wld)) (rng_pos wld)).
  destruct (growing b && Dbl.ge (Dbl.sub t (last_growth b))
                                LIGHTNING_GROWTH_DELAY) eqn:Eg.
  - apply andb_prop in Eg as [Eg _].
    destruct (@bolt_grow_spec b t w1 Hne)
      as (b' & log & r & E & _ & Ht & My & Mx & _ & Hs & _ & _ & Hl & Hgr).
    destruct (bolt_grow_geom _ _ _ E Hne) as (L & F & Hy).
    mstep E.
    destruct (any_alive_spec (segs b') (reposition w1 (clock_pos w1) r))
      as (alive & c & Ea & _).
    mstep Ea.
    eexists b', alive, log, _. split; [reflexivity|].
    repeat (split; [assumption|]).
    split; [intros N; split; auto|].
    split; [intros _; exact Eg|].
    split; [intros _ G; apply Hgr; exact G|].
    intros C. rewrite C in Eg. discriminate.
  - mstep (eq_refl : ret (b, @nil Push) w1 = Some ((b, []), w1)).
    destruct (any_alive_spec (segs b) w1) as (alive & c & Ea & _).
    mstep Ea.
    eexists b, alive, [], _. split; [reflexivity|].
    cbn [map]. rewrite app_nil_r.
    repeat (split; [reflexivity|]).
    split; [cbn; lia|]. split; [constructor|].
    split; [intros C; contradiction|].
    split; [auto|]. split; [auto|]. intros _. split; reflexivity.
Qed.

(** X11: an update of a bolt that has a segment always succeeds, and a
    growth step goes one row down: every segment it pushes, on the
    trunk, on a branch or as a fork, lies in the row just below the
    segment that was last before the update, which was above the bottom
    row, and in a column inside the bolt's bounds when these have a
    column; it pushes at most four segments, after the old ones, and
    only to a bolt shorter than its target length.  A bolt that has
    stopped growing is left as it is, never grows again, and costs no
    random number. *)
Theorem bolt_update_one_row_down (b : Bolt) (wld : World) :
  segs b <> [] ->
  exists b' alive log wld',
    bolt_update_log b wld = Some ((b', alive, log), wld')
    /\ segs b' = segs b ++ map snd log
    /\ (length log <= 4)%nat
    /\ Forall (fun p => sg_y (snd p) = sg_y (last_seg b) + 1
                        /\ (0 < max_x b -> 0 <= sg_x (snd p) < max_x b)) log
    /\ (log <> [] -> sg_y (last_seg b) < max_y b - 1
                     /\ seg_count b < target_len b)
    /\ (growing b' = true -> growing b = true)
    /\ (growing b = false -> b' = b /\ rng_pos wld' = rng_pos wld).
Proof.
  intros Hne.
  destruct (@bolt_update_log_shape b wld Hne)
    as (b' & alive & log & wld' & E & _ & _ & _ & H1 & H2 & H3 & H4 & H5
        & _ & H6).
  exists b', alive, log, wld'. auto 10.
Qed.

Lemma bolt_update_one_row_down_witness :
  exists b w,
    demo_bolt = Some (b, w)
    /\ segs b <> []
    /\ exists b' alive log wld',
         bolt_update_log b w = Some ((b', alive, log), wld')
         /\ segs b' = segs b ++ map snd log.
Proof.
  destruct demo_bolt as [[b w]|] eqn:E; [|discriminate].
  exists b, w. split; [reflexivity|].
  assert (Hne : segs b <> []).
  { vm_compute in E. injection E as <- _. discriminate. }
  split; [exact Hne|].
  destruct (@bolt_update_one_row_down b w Hne)
    as (b' & alive & log & wld' & E1 & E2 & _).
  exists b', alive, log, wld'. auto.
Defined.

(** ** Bolts stay sound *)

Lemma last_seg_in b : segs b <> [] -> In (last_seg b) (segs b).
Proof.
  intros H. destruct (exists_last H) as (l & a & E).
  unfold last_seg. rewrite E, last_last. apply in_or_app. right. left.
  reflexivity.
Qed.

Lemma bolt_update_log_sound b wld b' alive log wld' :
  bolt_update_log b wld = Some ((b', alive, log), wld') ->
  bolt_sound b ->
  bolt_sound b' /\ max_y b' = max_y b /\ max_x b' = max_x b.
Proof.
  intros H (Hne & Hw & Hc & Hg).
  destruct (@bolt_update_log_shape b wld Hne)
    as (b1 & alive1 & log1 & w1 & E & Ht & My & Mx & Hs & L & F & Hl & _
        & Hgr & _).
  rewrite E in H. injection H as <- <- <- <-.
  split; [|auto]. unfold bolt_sound, bolt_within, seg_count in *.
  rewrite Hs, Ht. split; [|split; [|split]].
  - destruct (segs b); [contradiction|discriminate].
  - pose proof (@last_seg_in b Hne) as Hin.
    rewrite Forall_forall in Hw. pose proof (Hw _ Hin) as [Hy Hx].
    apply Forall_app. split.
    + apply Forall_forall. intros sg Hsg. specialize (Hw _ Hsg).
      unfold seg_in in *. rewrite My, Mx. exact Hw.
    + apply Forall_forall. intros sg Hsg. apply in_map_iff in Hsg
        as (p & <- & Hp).
      rewrite Forall_forall in F. destruct (F _ Hp) as [Fy Fx].
      assert (Hn : log1 <> []) by (intros C; rewrite C in Hp; destruct Hp).
      destruct (Hl Hn) as [Hb _].
      unfold seg_in. rewrite My, Mx. split; [lia|]. apply Fx. lia.
  - rewrite length_app, Nat2Z.inj_add.
    assert (K : (length (map snd log1) <= 4)%nat)
      by (rewrite length_map; exact L).
    destruct log1 as [|p log1].
    + cbn [map length]. lia.
    + destruct Hl as [_ Hl]; [discriminate|]. lia.
  - intros G. rewrite Hs, Ht in Hgr. apply Hgr; assumption.
Qed.

Lemma sweep_bolts_fits s0 bs : forall wld bs' wld',
  sweep bolt_update (fun b => free (segs b)) bs wld = Some (bs', wld') ->
  Forall (bolt_fits s0) bs -> Forall (bolt_fits s0) bs'.
Proof.
  induction bs as [|b bs IH]; intros wld bs' wld' H Hf; cbn [sweep] in H.
  - inv_ret H. constructor.
  - inversion Hf as [|? ? Hb Hbs]; subst.
    minv_as H res w1 Hu. destruct res as [b1 alive].
    assert (Hb1 : bolt_fits s0 b1).
    { unfold bolt_update in Hu. minv_as Hu res w2 Hl.
      destruct res as [[b2 al] lg]. inv_ret Hu.
      destruct Hb as (Hs & My & Mx).
      destruct (bolt_update_log_sound _ Hl Hs) as (Hs' & My' & Mx').
      split; [exact Hs'|]. rewrite My', Mx'. auto. }
    destruct alive.
    + minv_as H r w2 Hr. inv_ret H. constructor; [exact Hb1|eauto].
    + minv_as H u w2 Hr. eauto.
Qed.

Lemma spawn_bolt_step_pos s wld :
  rand_ok wld -> roomy (g_rows s, g_cols s) ->
  exists s' wld',
    spawn_bolt_step s wld = Some (s', wld')
    /\ (s' = s
        \/ exists tl lg sr sc t,
             s' = set_bolts s
                    (bolts s ++ [mkBolt tl true lg (g_rows s) (g_cols s)
                                        [mkSegment sr sc t]])
             /\ thunder s = true /\ bolt_count s < 3
             /\ 2 <= tl
             /\ 0 <= sr < g_rows s
             /\ (5 < g_rows s -> sr < Z.quot (g_rows s) 5)
             /\ Z.quot (g_cols s) 4 <= sc
                < Z.quot (g_cols s) 4 + Z.quot (g_cols s) 2
             /\ sc < g_cols s).
Proof.
  intros Hr [Hrows Hcols]. cbn [fst snd] in *. unfold spawn_bolt_step.
  destruct (thunder s && (bolt_count s <? 3)) eqn:Ec.
  - apply andb_prop in Ec as [Et Ec]. apply Z.ltb_lt in Ec.
    mstep (rand_unit_eq wld).
    set (w1 := reposition wld (clock_pos wld) (S (rng_pos wld))).
    destruct (Dbl.lt _ LIGHTNING_CHANCE).
    + mstep (eq_refl : ret true w1 = Some (true, w1)). cbv iota.
      mstep (rand_eq w1).
      set (w2 := reposition w1 (clock_pos w1) (S (rng_pos w1))).
      set (r1 := rng w1 (rng_pos w1)).
      assert (C : Z.quot (g_cols s) 2 <> 0)
        by (Z.to_euclidean_division_equations; lia).
      mstep (@c_rem_eq r1 (Z.quot (g_cols s) 2) w2 C).
      mstep (rand_eq w2).
      set (w3 := reposition w2 (clock_pos w2) (S (rng_pos w2))).
      set (r2 := rng w2 (rng_pos w2)).
      set (d := if g_rows s >? 5 then Z.quot (g_rows s) 5 else g_rows s).
      assert (D : 0 < d <= g_rows s /\ (5 < g_rows s -> d = Z.quot (g_rows s) 5)).
      { unfold d. destruct (Z.gtb_spec (g_rows s) 5);
          Z.to_euclidean_division_equations; lia. }
      mstep (@c_rem_eq r2 d w3 ltac:(lia)).
      unfold bind. rewrite bolt_create_eq. cbv zeta. unfold ret.
      eexists _, _. split; [reflexivity|]. right.
      eexists _, _, _, _, _. split; [reflexivity|].
      split; [exact Et|]. split; [exact Ec|].
      assert (H1 : 0 <= r1) by apply Hr.
      assert (H2 : 0 <= r2) by apply Hr.
      pose proof (Z.rem_bound_pos r1 (Z.quot (g_cols s) 2) H1
                    ltac:(Z.to_euclidean_division_equations; lia)) as B1.
      pose proof (Z.rem_bound_pos r2 d H2 ltac:(lia)) as B2.
      split.
      * pose proof (code_max_len_ge (g_rows s)) as G.
        assert (L : 2 <= spec_min_len (g_rows s))
          by (unfold spec_min_len; lia).
        pose proof (Z.rem_bound_pos (rng w3 (rng_pos w3))
                      (code_max_len (g_rows s) - spec_min_len (g_rows s) + 1)
                      ltac:(apply Hr) ltac:(lia)).
        lia.
      * split; [lia|]. split; [intros G5; destruct D as [_ D]; rewrite <- D; lia|].
        split; [lia|].
        clear - B1 Hcols. Z.to_euclidean_division_equations. lia.
    + mstep (eq_refl : ret false w1 = Some (false, w1)). cbv iota.
      eexists _, _. split; [reflexivity|]. left. reflexivity.
  - mstep (eq_refl : ret false wld = Some (false, wld)). cbv iota.
    eexists _, _. split; [reflexivity|]. left. reflexivity.
Qed.

(** X12: on a screen of at least one row and two columns, the bolt
    spawn of a frame succeeds, and a bolt it adds starts in the upper
    part of the screen and in its middle half: one segment, in a row of
    the top fifth of the screen (any row of a screen of five rows or
    fewer) and in a column from a quarter to three quarters of the
    width; the bolt is growing, its bounds are the size of the screen
    and its target length is at least 2.  The spawn happens only in
    thunderstorm mode with fewer than three bolts, and adds one bolt at
    the end of the store. *)
Theorem spawn_bolt_step_position (s : State) (wld : World) :
  rand_ok wld -> roomy (g_rows s, g_cols s) ->
  exists s' wld',
    spawn_bolt_step s wld = Some (s', wld')
    /\ (s' = s
        \/ exists tl lg sr sc t,
             s' = set_bolts s
                    (bolts s ++ [mkBolt tl true lg (g_rows s) (g_cols s)
                                        [mkSegment sr sc t]])
             /\ thunder s = true /\ bolt_count s < 3
             /\ 2 <= tl
             /\ 0 <= sr < g_rows s
             /\ (5 < g_rows s -> sr < Z.quot (g_rows s) 5)
             /\ Z.quot (g_cols s) 4 <= sc
                < Z.quot (g_cols s) 4 + Z.quot (g_cols s) 2
             /\ sc < g_cols s).
Proof. apply spawn_bolt_step_pos. Qed.

Lemma spawn_bolt_step_position_witness :
  rand_ok demo_world
  /\ roomy (g_rows (set_thunder demo_start true),
            g_cols (set_thunder demo_start true))
  /\ exists s' wld',
       spawn_bolt_step (set_thunder demo_start true) demo_world
       = Some (s', wld').
Proof.
  assert (H2 : roomy (g_rows (set_thunder demo_start true),
                      g_cols (set_thunder demo_start true)))
    by (split; cbn; lia).
  split; [exact demo_world_rand_ok|]. split; [exact H2|].
  destruct (@spawn_bolt_step_position (set_thunder demo_start true)
              demo_world demo_world_rand_ok H2) as (s' & wld' & E & _).
  exists s', wld'. exact E.
Defined.

(** ** What holds of the stores all along a run *)

Lemma run_phases_keep (P : State -> Prop) :
  (forall p s wld s' wld',
      (forall d, p <> PResize d) -> rand_ok wld ->
      roomy (g_rows s, g_cols s) ->
      run_phase p s wld = Some (s', wld') -> P s -> P s') ->
  forall ps s wld s' wld',
    Forall (fun p => forall d, p <> PResize d) ps ->
    rand_ok wld -> roomy (g_rows s, g_cols s) ->
    run_phases ps s wld = Some (s', wld') -> P s -> P s'.
Proof.
  intros HP. induction ps as [|p ps IH]; intros s wld s' wld' Hps Hr Hd H Hs;
    cbn [run_phases] in H.
  - inv_ret H. exact Hs.
  - inversion Hps as [|? ? Hp Hps']; subst.
    minv_as H s1 w1 E.
    destruct (@phase_dims _ _ _ _ _ E Hp) as (D1 & D2 & _).
    eapply (IH s1 w1); [exact Hps'| | |exact H|].
    + eapply rand_ok_tapes; [|exact Hr]. exact (kt_run_phase p s _ E).
    + rewrite D1, D2. exact Hd.
    + eapply HP; eassumption.
Qed.

Lemma main_loop_keep (P : State -> Prop) :
  (forall p s wld s' wld',
      (forall d, p <> PResize d) -> rand_ok wld ->
      roomy (g_rows s, g_cols s) ->
      run_phase p s wld = Some (s', wld') -> P s -> P s') ->
  (forall dims s, P s ->
     P (mkState (fst dims) (snd dims) false [] [] (thunder s) (last s)
                (rain_attr s) (light_attr s))) ->
  (forall s, P s -> P (on_winch s)) ->
  forall evs s wld,
    rand_ok wld -> loop_ok s -> frames_roomy evs -> P s ->
    exists s' running wld',
      main_loop evs s wld = Some ((s', running), wld')
      /\ P s'.
Proof.
  intros HP HR HW. induction evs as [|e evs IH]; intros s wld Hr Hs He Hp.
  - exists s, true, wld. split; [reflexivity|exact Hp].
  - inversion He as [|? ? He1 He2]; subst. destruct e as [|dims ch];
      cbn [main_loop].
    + apply IH; auto. destruct Hs as [Hs _]. split; [exact Hs|discriminate].
    + destruct (@frame_total dims ch s wld Hr Hs He1)
        as (s1 & w1 & E1 & Hr1 & Hs1).
      assert (P1 : P s1).
      { pose proof E1 as F. rewrite frame_eq in F. cbn [run_phase] in F.
        minv_as F s0 w0 F0. rewrite resize_step_eq in F0.
        assert (H0 : P s0 /\ rand_ok w0 /\ roomy (g_rows s0, g_cols s0)).
        { destruct Hs as [_ Hd]. destruct (g_resized s) eqn:Eg;
            injection F0 as <- <-.
          - split; [apply HR; exact Hp|]. split; [exact Hr|].
            destruct dims; exact He1.
          - auto. }
        destruct H0 as (Hp0 & Hr0 & Hd0).
        destruct (is_quit ch).
        - inv_ret F. exact Hp0.
        - minv_as F s2 w2 F2. inv_ret F.
          apply (@run_phases_keep P HP (frame_phases ch) s0 w0 s1 w1);
            [|exact Hr0|exact Hd0|exact F2|exact Hp0].
          unfold frame_phases. repeat constructor; intros d; discriminate. }
      mstep E1. destruct (negb (is_quit ch)).
      * apply IH; auto.
      * exists s1, false, w1. split; [reflexivity|exact P1].
Qed.

Lemma phase_bolts_fit p s wld s' wld' :
  (forall d, p <> PResize d) -> rand_ok wld ->
  roomy (g_rows s, g_cols s) ->
  run_phase p s wld = Some (s', wld') ->
  Forall (bolt_fits s) (bolts s) -> Forall (bolt_fits s') (bolts s').
Proof.
  intros Hp Hr Hd H Hf. destruct p; cbn [run_phase] in H.
  - exfalso. exact (Hp dims eq_refl).
  - rewrite toggle_step_eq in H. destruct (is_toggle ch);
      injection H as <- _; exact Hf.
  - apply pace_step_bolts in H as [t ->]. exact Hf.
  - destruct (@spawn_bolt_step_pos s wld Hr Hd)
      as (s1 & w1 & E & [->|(tl & lg & sr & sc & t & -> & _ & _ & Ht & Hsr
                             & _ & Hsc & Hsc')]);
      rewrite E in H; injection H as <- _; [exact Hf|].
    cbn [bolts set_bolts]. apply Forall_app. split; [exact Hf|].
    constructor; [|constructor].
    split; [|split; reflexivity].
    split; [discriminate|]. split; [|split].
    + constructor; [|constructor].
      unfold seg_in. cbn [sg_y sg_x max_y max_x].
      destruct Hd as [_ Hd]. cbn [snd] in Hd. clear - Hsr Hsc Hsc' Hd.
      Z.to_euclidean_division_equations. lia.
    + unfold seg_count. cbn [segs length target_len]. lia.
    + intros _. unfold seg_count. cbn [segs length target_len]. lia.
  - unfold step_bolts in H. minv_as H bs w1 E. inv_ret H.
    rewrite compact_sweep in E. cbn [bolts set_bolts].
    change (Forall (bolt_fits s) bs).
    exact (@sweep_bolts_fits s _ _ _ _ E Hf).
  - apply spawn_rain_step_inv in H as [r ->]. exact Hf.
  - rewrite step_rain_eq in H. injection H as <- _. exact Hf.
  - minv_as H u w1 E. inv_ret H. exact Hf.
Qed.

(** X13: all along a run on screens of at least one row and two
    columns, the lightning stays on the screen and stays small: after
    any keys, signals and resizes, every bolt of the store has a
    segment, every segment of every bolt lies in a row and a column of
    the screen as the program holds its size, no bolt has more than
    three segments beyond its target length, and a bolt that still grows
    has fewer segments than its target length. *)
Theorem bolts_stay_on_screen (evs : list Event) (s : State) (wld : World) :
  rand_ok wld -> loop_ok s -> frames_roomy evs ->
  Forall (bolt_fits s) (bolts s) ->
  exists s' running wld',
    main_loop evs s wld = Some ((s', running), wld')
    /\ Forall (fun b =>
                 segs b <> []
                 /\ Forall (fun sg => 0 <= sg_y sg < g_rows s'
                                      /\ 0 <= sg_x sg < g_cols s') (segs b)
                 /\ seg_count b <= target_len b + 3
                 /\ (growing b = true -> seg_count b < target_len b))
              (bolts s').
Proof.
  intros Hr Hs He Hf.
  destruct (@main_loop_keep (fun s => Forall (bolt_fits s) (bolts s))
              phase_bolts_fit
              (fun dims s0 _ => Forall_nil _)
              (fun s0 H0 => H0)
              evs s wld Hr Hs He Hf)
    as (s' & rn & w' & E & H).
  exists s', rn, w'. split; [exact E|].
  eapply Forall_impl; [|exact H].
  intros b ((Hne & Hw & Hc & Hg) & My & Mx).
  split; [exact Hne|]. split; [|auto].
  unfold bolt_within, seg_in in Hw. rewrite My, Mx in Hw. exact Hw.
Qed.

Lemma bolts_stay_on_screen_witness :
  rand_ok demo_world /\ loop_ok demo_start
  /\ frames_roomy [Frame (5, 40) 116; Frame (5, 40) 0]
  /\ Forall (bolt_fits demo_start) (bolts demo_start)
  /\ exists s' running wld',
       main_loop [Frame (5, 40) 116; Frame (5, 40) 0] demo_start demo_world
       = Some ((s', running), wld').
Proof.
  assert (H2 : loop_ok demo_start).
  { split; [split; [constructor|cbn; lia]|]. intros _. split; cbn; lia. }
  assert (H3 : frames_roomy [Frame (5, 40) 116; Frame (5, 40) 0]).
  { repeat constructor; cbn; lia. }
  assert (H4 : Forall (bolt_fits demo_start) (bolts demo_start))
    by constructor.
  split; [exact demo_world_rand_ok|]. split; [exact H2|]. split; [exact H3|].
  split; [exact H4|].
  destruct (@bolts_stay_on_screen _ demo_start demo_world
              demo_world_rand_ok H2 H3 H4) as (s' & rn & w' & E & _).
  exists s', rn, w'. exact E.
Defined.

Lemma phase_rain_on_columns p s wld s' wld' :
  (forall d, p <> PResize d) -> rand_ok wld ->
  roomy (g_rows s, g_cols s) ->
  run_phase p s wld = Some (s', wld') ->
  rain_on_columns s -> rain_on_columns s'.
Proof.
  intros Hp Hr Hd H Hf. unfold rain_on_columns in *.
  destruct p; cbn [run_phase] in H.
  - exfalso. exact (Hp dims eq_refl).
  - rewrite toggle_step_eq in H. destruct (is_toggle ch);
      injection H as <- _; exact Hf.
  - apply pace_step_bolts in H as [t ->]. exact Hf.
  - apply spawn_bolt_step_inv in H
      as [->|(_ & _ & sr & sc & w1 & b & _ & ->)]; exact Hf.
  - unfold step_bolts in H. minv_as H bs w1 E. inv_ret H. exact Hf.
  - destruct (@spawn_rain_step_run s wld Hr) as (new & r & E & _ & _ & _ & F).
    rewrite E in H. injection H as <- _. cbn [rain set_rain g_cols].
    apply Forall_app. split; [exact Hf|].
    eapply Forall_impl; [|exact F].
    intros d (_ & Hx & Hc & _). destruct Hd as [_ Hd]. cbn [snd] in Hd.
    split; [lia|exact Hc].
  - rewrite step_rain_eq in H. injection H as <- _.
    cbn [rain set_rain g_cols].
    apply Forall_forall. intros d Hin. apply filter_In in Hin as [Hin _].
    apply in_map_iff in Hin as (d0 & <- & Hin).
    rewrite Forall_forall in Hf. exact (Hf _ Hin).
  - minv_as H u w1 E. inv_ret H. exact Hf.
Qed.

(** X14: all along a run on screens of at least one row and two
    columns, every raindrop of the store is in a column of the screen as
    the program holds its size, and its glyph is one of [|], [.] and
    [`]: the rain is never lost at the sides of the screen. *)
Theorem rain_stays_on_columns (evs : list Event) (s : State) (wld : World) :
  rand_ok wld -> loop_ok s -> frames_roomy evs ->
  rain_on_columns s ->
  exists s' running wld',
    main_loop evs s wld = Some ((s', running), wld')
    /\ Forall (fun d => 0 <= rd_x d < g_cols s' /\ In (rd_ch d) ra_chars)
              (rain s').
Proof.
  intros Hr Hs He Hf.
  destruct (@main_loop_keep rain_on_columns
              phase_rain_on_columns
              (fun dims s0 _ => Forall_nil _)
              (fun s0 H0 => H0)
              evs s wld Hr Hs He Hf)
    as (s' & rn & w' & E & H).
  exists s', rn, w'. split; [exact E|exact H].
Qed.

Lemma rain_stays_on_columns_witness :
  rand_ok demo_world /\ loop_ok demo_start
  /\ frames_roomy [Frame (5, 40) 0; Winch; Frame (4, 30) 0]
  /\ rain_on_columns demo_start
  /\ exists s' running wld',
       main_loop [Frame (5, 40) 0; Winch; Frame (4, 30) 0]
                 demo_start demo_world
       = Some ((s', running), wld').
Proof.
  assert (H2 : loop_ok demo_start).
  { split; [split; [constructor|cbn; lia]|]. intros _. split; cbn; lia. }
  assert (H3 : frames_roomy [Frame (5, 40) 0; Winch; Frame (4, 30) 0]).
  { repeat constructor; cbn; lia. }
  assert (H4 : rain_on_columns demo_start) by constructor.
  split; [exact demo_world_rand_ok|]. split; [exact H2|]. split; [exact H3|].
  split; [exact H4|].
  destruct (@rain_stays_on_columns _ demo_start demo_world
              demo_world_rand_ok H2 H3 H4) as (s' & rn & w' & E & _).
  exists s', rn, w'. exact E.
Defined.

(** ** The compaction loop *)

Lemma sweep_length A (visit : A -> M (A * bool)) (discard : A -> M unit) v :
  forall wld v' wld',
    sweep visit discard v wld = Some (v', wld') ->
    (length v' <= length v)%nat.
Proof.
  induction v as [|a v IH]; intros wld v' wld' H; cbn [sweep] in H.
  - inv_ret H. cbn. lia.
  - minv_as H res w1 Hv. destruct res as [a' keep]. destruct keep.
    + minv_as H r w2 Hr. inv_ret H. apply IH in Hr. cbn [length]. lia.
    + minv_as H u w2 Hd. apply IH in H. cbn [length]. lia.
Qed.

(** X15: the loop that steps an array in place, copying the cells that
    stay down to the front and cutting the array after them, is a sweep
    of the list of its cells: whatever the update and the release do, it
    visits the cells once each in order, keeps the updated cells that
    stay in their order, releases the others as it meets them, and reads
    no cell outside the array; the array never gets longer. *)
Theorem compact_in_place
    (A : Type) (visit : A -> M (A * bool)) (discard : A -> M unit)
    (v : list A) (wld : World) :
  compact visit discard v wld = sweep visit discard v wld
  /\ (forall v' wld',
        compact visit discard v wld = Some (v', wld') ->
        (length v' <= length v)%nat).
Proof.
  split; [apply compact_sweep|].
  intros v' wld' H. rewrite compact_sweep in H.
  eapply sweep_length; exact H.
Qed.

(** ** The colour options *)

Lemma parse_options_last opts :
  parse_options opts
  = (last_opt 114 opts (Some "cyan"%string),
     last_opt 108 opts (Some "yellow"%string)).
Proof.
  unfold parse_options, last_opt.
  induction opts as [|[c a] opts IH] using rev_ind; [reflexivity|].
  rewrite fold_left_app, IH, rev_app_distr. cbn [fold_left rev app find fst snd].
  destruct (Z.eqb_spec c 114) as [->|N1]; [reflexivity|].
  destruct (Z.eqb_spec c 108) as [->|N2]; reflexivity.
Qed.

(** X16: the colour options: the rain colour is the argument of the
    last [-r] option and the lightning colour that of the last [-l]
    option, [cyan] and [yellow] when the option is not given; any other
    option character changes nothing.  On a terminal with colours, the
    rain pair 1 and the lightning pair 4 get these colours, by name
    whatever the case of letters, and cyan and yellow again when a name
    is not one of the eight of the table. *)
Theorem startup_colors_options
    (opts : list (Z * option string)) (has_colors : bool) :
  let rain_color := last_opt 114 opts (Some "cyan"%string) in
  let light_color := last_opt 108 opts (Some "yellow"%string) in
  parse_options opts = (rain_color, light_color)
  /\ startup_colors opts has_colors
     = setup_colors has_colors rain_color light_color
  /\ snd (startup_colors opts true)
     = [OpStartColor; OpUseDefaultColors;
        OpInitPair 1 (color_from_name rain_color Color.COLOR_CYAN) (-1);
        OpInitPair 4 (color_from_name light_color Color.COLOR_YELLOW) (-1)]
  /\ snd (startup_colors [] true)
     = [OpStartColor; OpUseDefaultColors;
        OpInitPair 1 Color.COLOR_CYAN (-1);
        OpInitPair 4 Color.COLOR_YELLOW (-1)]
  /\ (forall c a,
        c <> 114 -> c <> 108 ->
        parse_options (opts ++ [(c, a)]) = parse_options opts).
Proof.
  cbv zeta. unfold startup_colors. rewrite parse_options_last.
  split; [reflexivity|]. split; [reflexivity|]. split; [reflexivity|].
  split; [reflexivity|].
  intros c a N1 N2. rewrite !parse_options_last. unfold last_opt.
  rewrite rev_app_distr. cbn [rev app find fst snd].
  destruct (Z.eqb_spec c 114); [contradiction|].
  destruct (Z.eqb_spec c 108); [contradiction|]. reflexivity.
Qed.

(** ** How far sideways a bolt grows *)

Lemma clamp_x_near b c o :
  0 <= c < max_x b -> Z.abs (clamp_x b (c + o) - c) <= Z.abs o.
Proof.
  intros H. unfold clamp_x. cbv zeta.
  destruct (Z.ltb_spec (c + o) 0); rewrite Z.geb_leb;
    match goal with
    | |- context [?a <=? ?d] => destruct (Z.leb_spec a d)
    end; lia.
Qed.

Lemma grow_branches_side n :
  forall i lst t b cx px added log wld b' px' added' log' wld',
    grow_branches n i lst t b cx px added log wld
    = Some ((b', px', added', log'), wld') ->
    rand_ok wld -> 0 <= i ->
    0 <= cx < max_x b -> Z.abs (cx - sg_x lst) <= 2 * i ->
    exists new,
      log' = log ++ new
      /\ Forall (fun p => Z.abs (sg_x (snd p) - sg_x lst)
                          <= 2 * (i + Z.of_nat n)) new
      /\ (i = 0 -> n <> O ->
          exists s rest,
            new = (Primary, s) :: rest /\ px' = sg_x s
            /\ Z.abs (sg_x s - sg_x lst) <= 2
            /\ Forall (fun p => fst p = Branch) rest)
      /\ (i <> 0 -> px' = px /\ Forall (fun p => fst p = Branch) new).
Proof.
  induction n as [|n IH];
    intros i lst t b cx px added log wld b' px' added' log' wld' H Hr Hi
           Hcx Hd;
    cbn [grow_branches] in H.
  - inv_ret H. exists []. rewrite app_nil_r. split; [reflexivity|].
    split; [constructor|]. split; [intros _ C; contradiction|].
    intros _. split; [reflexivity|constructor].
  - erewrite bind_eq in H by apply rand_eq. cbv zeta in H.
    set (r := rng wld (rng_pos wld)) in *.
    assert (Ho : -2 <= Z.rem r 5 - 2 <= 2).
    { pose proof (Z.rem_bound_pos r 5 ltac:(apply Hr) ltac:(lia)). lia. }
    set (nx := clamp_x b (cx + (Z.rem r 5 - 2))) in *.
    assert (Hnx : 0 <= nx < max_x b) by (apply clamp_x_bounds; lia).
    assert (Hnear : Z.abs (nx - cx) <= 2).
    { pose proof (@clamp_x_near b cx (Z.rem r 5 - 2) Hcx). fold nx in H0.
      lia. }
    apply IH in H as (new & E & Hf & H0 & H1).
    + eexists (_ :: new). rewrite <- app_assoc in E. cbn [app] in E.
      split; [exact E|]. split; [|split].
      * constructor.
        -- cbn [snd sg_x]. lia.
        -- eapply Forall_impl; [|exact Hf]. cbv beta. intros p Hp. lia.
      * intros -> _. cbn [Z.eqb] in *.
        destruct H1 as [Hpx Hb]; [lia|].
        eexists _, new. split; [reflexivity|]. split; [exact Hpx|].
        split; [cbn [sg_x]; lia|exact Hb].
      * intros Ni. destruct H1 as [Hpx Hb]; [lia|].
        destruct (Z.eqb_spec i 0) as [C|_]; [contradiction|].
        split; [exact Hpx|]. constructor; [reflexivity|exact Hb].
    + apply rand_ok_reposition, Hr.
    + lia.
    + exact Hnx.
    + lia.
Qed.

Lemma rand_ok_step A (c : M A) w a w' :
  keeps_tapes c -> c w = Some (a, w') -> rand_ok w -> rand_ok w'.
Proof. intros K H. apply rand_ok_tapes. exact (K _ _ _ H). Qed.

Lemma bolt_grow_side b t wld b' log wld' :
  bolt_grow b t wld = Some ((b', log), wld') ->
  segs b <> [] -> rand_ok wld -> seg_in b (last_seg b) ->
  Forall (fun p => Z.abs (sg_x (snd p) - sg_x (last_seg b))
                   <= side_reach (fst p)) log
  /\ (forall p q, In p log -> In q log ->
                  fst p = Primary -> fst q = Fork ->
                  sg_x (snd p) <> sg_x (snd q)).
Proof.
  intros H Hne Hr [_ Hx]. unfold bolt_grow in H. cbv zeta in H.
  erewrite bind_eq in H
    by (apply (@seg_at_last_eq (set_last_growth b t) wld); exact Hne).
  change (last_seg (set_last_growth b t)) with (last_seg b) in H.
  set (lst := last_seg b) in *.
  minv_as H res w1 Hg. destruct res as [[b1 added] log1]. inv_ret H.
  destruct ((seg_count _ <? target_len _) && (sg_y lst <? max_y _ - 1)).
  2:{ inv_ret Hg. split; [constructor|]. intros p q []. }
  minv_as Hg u w2 Hu.
  pose proof (rand_ok_step kt_rand_unit Hu Hr) as Hr2.
  minv_as Hg branches w3 Hb.
  assert (Hbr : (1 <= Z.to_nat branches <= 3)%nat /\ rand_ok w3).
  { destruct (Dbl.lt u LIGHTNING_BRANCH_CHANCE).
    - minv_as Hb r w4 Hrd. rewrite rand_eq in Hrd. injection Hrd as <- <-.
      inv_ret Hb. unfold LIGHTNING_MAX_BRANCHES.
      pose proof (Z.rem_bound_pos (rng w2 (rng_pos w2)) 3
                    ltac:(apply Hr2) ltac:(lia)).
      change (2 + 1) with 3.
      split; [lia|]. apply rand_ok_reposition, Hr2.
    - inv_ret Hb. split; [lia|exact Hr2]. }
  destruct Hbr as [Hbr Hr3].
  minv_as Hg res w4 Hgb. destruct res as [[[b2 px] added2] log2].
  pose proof (rand_ok_step (kt_grow_branches _ _ _ _ _ _ _ _ _) Hgb Hr3)
    as Hr4.
  pose proof Hgb as Hgeo.
  apply grow_branches_geom in Hgeo as (new0 & _ & _ & _ & Mx & _).
  cbn [max_x set_last_growth] in Mx.
  apply grow_branches_side in Hgb as (new & E & Hf & H0 & _);
    [|exact Hr3|lia|exact Hx|lia].
  cbn [app] in E. subst log2.
  destruct H0 as (s & rest & En & Epx & Hs & Hrest); [reflexivity|lia|].
  assert (Hnew : Forall (fun p => Z.abs (sg_x (snd p) - sg_x lst)
                                  <= side_reach (fst p)) new
                 /\ (forall p, In p new -> fst p = Primary ->
                               sg_x (snd p) = px)
                 /\ (forall p, In p new -> fst p <> Fork)).
  { rewrite En in *. split; [|split].
    - constructor; [exact Hs|].
      inversion Hf as [|? ? _ Hf']; subst.
      rewrite Forall_forall in *. intros p Hp.
      rewrite (Hrest p Hp). specialize (Hf' p Hp). cbn [side_reach]. lia.
    - intros p [<-|Hp] Hprim; [symmetry; exact Epx|].
      rewrite Forall_forall in Hrest. rewrite (Hrest p Hp) in Hprim.
      discriminate.
    - intros p [<-|Hp]; [discriminate|].
      rewrite Forall_forall in Hrest. rewrite (Hrest p Hp). discriminate. }
  destruct Hnew as (Hside & Hprim & Hnf).
  minv_as Hg u2 w5 Hu2.
  pose proof (rand_ok_step kt_rand_unit Hu2 Hr4) as Hr5.
  destruct (Dbl.lt u2 FORK_CHANCE).
  - minv_as Hg r w6 Hrd. rewrite rand_eq in Hrd. injection Hrd as <- <-.
    minv_as Hg off w7 Hoff.
    assert (Ho : -3 <= off <= 3).
    { unfold FORK_HORIZONTAL_SPREAD in Hoff.
      pose proof (Z.rem_bound_pos (rng w5 (rng_pos w5)) 7
                    ltac:(apply Hr5) ltac:(lia)).
      change (2 * 3 + 1) with 7 in Hoff.
      destruct (_ =? 0).
      - minv_as Hoff r2 w8 Hrd2. inv_ret Hoff.
        destruct (_ =? 0); lia.
      - inv_ret Hoff. lia. }
    destruct (Z.eqb_spec (clamp_x b2 (sg_x lst + off)) px) as [Eq|Nq].
    + inv_ret Hg. split; [exact Hside|].
      intros p q _ Hq _ Fq. exfalso. exact (Hnf q Hq Fq).
    + inv_ret Hg. split.
      * apply Forall_app. split; [exact Hside|].
        constructor; [|constructor]. cbn [fst snd sg_x side_reach].
        pose proof (@clamp_x_near b2 (sg_x lst) off ltac:(lia)). lia.
      * intros p q Hp Hq Pp Fq.
        apply in_app_or in Hp as [Hp|[<-|[]]]; [|discriminate].
        apply in_app_or in Hq as [Hq|[<-|[]]];
          [exfalso; exact (Hnf q Hq Fq)|].
        cbn [snd sg_x]. rewrite (Hprim p Hp Pp). intros C. apply Nq.
        symmetry. exact C.
  - inv_ret Hg. split; [exact Hside|].
    intros p q _ Hq _ Fq. exfalso. exact (Hnf q Hq Fq).
Qed.

(** X17: with [rand] in its range, a growth step of a bolt whose last
    segment is inside the bolt's bounds stays near that segment: the
    trunk segment it pushes is at most 2 columns to either side of it,
    a fork at most 3 and an extra branch at most 6; and a fork is never
    pushed on the column of the trunk segment of the same step. *)
Theorem bolt_update_sideways (b : Bolt) (wld : World) :
  segs b <> [] -> rand_ok wld -> seg_in b (last_seg b) ->
  exists b' alive log wld',
    bolt_update_log b wld = Some ((b', alive, log), wld')
    /\ Forall (fun p => Z.abs (sg_x (snd p) - sg_x (last_seg b))
                        <= side_reach (fst p)) log
    /\ (forall p q, In p log -> In q log ->
                    fst p = Primary -> fst q = Fork ->
                    sg_x (snd p) <> sg_x (snd q)).
Proof.
  intros Hne Hr Hin.
  destruct (@bolt_update_log_shape b wld Hne)
    as (b' & alive & log & wld' & E & _).
  exists b', alive, log, wld'. split; [exact E|].
  unfold bolt_update_log in E.
  erewrite bind_eq in E by apply now_sec_eq.
  minv_as E res w1 Hg. destruct res as [b1 log1].
  minv_as E al w2 Ha. inv_ret E.
  destruct (growing b && _).
  - apply bolt_grow_side in Hg; auto.
  - inv_ret Hg. split; [constructor|]. intros p q [].
Qed.

Lemma bolt_update_sideways_witness :
  exists b w,
    demo_bolt = Some (b, w)
    /\ segs b <> [] /\ rand_ok w /\ seg_in b (last_seg b)
    /\ exists b' alive log wld',
         bolt_update_log b w = Some ((b', alive, log), wld')
         /\ map fst log = [Primary; Fork]
         /\ map (fun p => sg_x (snd p) - sg_x (last_seg b)) log = [-2; -3].
Proof.
  destruct demo_bolt as [[b w]|] eqn:E; [|discriminate].
  exists b, w. split; [reflexivity|].
  vm_compute in E. injection E as <- <-.
  match goal with
  | |- segs ?b0 <> [] /\ rand_ok ?w0 /\ _ =>
      assert (H1 : segs b0 <> []) by discriminate;
      assert (H2 : rand_ok w0) by (intros n; cbn; unfold RAND_MAX; lia);
      assert (H3 : seg_in b0 (last_seg b0)) by (split; cbn; lia);
      split; [exact H1|]; split; [exact H2|]; split; [exact H3|];
      destruct (@bolt_update_sideways b0 w0 H1 H2 H3)
        as (b' & alive & log & wld' & E1 & _)
  end.
  exists b', alive, log, wld'. split; [exact E1|].
  vm_compute in E1. injection E1 as _ _ <- _. split; reflexivity.
Defined.

(** ** Thunderstorm mode off: the bolts age, and only age *)

Lemma kt_run_phases ps : forall s, keeps_tapes (run_phases ps s).
Proof.
  induction ps as [|p ps IH]; intros s w a w' H; cbn [run_phases] in H.
  - inv_ret H. apply same_tapes_refl.
  - minv_as H s1 w1 H1.
    eapply same_tapes_trans; [exact (kt_run_phase _ _ _ H1)|].
    exact (IH _ _ _ _ H).
Qed.

Lemma kt_frame dims ch s : keeps_tapes (frame dims ch s).
Proof.
  intros w a w' H. rewrite frame_eq in H. minv_as H s0 w0 H0.
  pose proof (kt_run_phase _ _ _ H0) as K0.
  destruct (is_quit ch).
  - inv_ret H. exact K0.
  - minv_as H s1 w1 H1. inv_ret H.
    eapply same_tapes_trans; [exact K0|]. exact (kt_run_phases _ _ _ H1).
Qed.

Lemma main_loop_tapes evs : forall s wld s' running wld',
  main_loop evs s wld = Some ((s', running), wld') -> same_tapes wld wld'.
Proof.
  induction evs as [|e evs IH]; intros s wld s' rn wld' H;
    cbn [main_loop] in H.
  - inv_ret H. apply same_tapes_refl.
  - destruct e as [|dims ch]; [eauto|].
    minv_as H res w1 Hf. destruct res as [s1 r1].
    pose proof (kt_frame _ _ _ _ Hf) as K.
    destruct r1.
    + eapply same_tapes_trans; [exact K|eauto].
    + inv_ret H. exact K.
Qed.

Lemma frame_not_resized dims ch s wld s' running wld' :
  frame dims ch s wld = Some ((s', running), wld') -> g_resized s' = false.
Proof.
  intros H. rewrite frame_eq in H. minv_as H s0 w0 H0.
  cbn [run_phase] in H0. rewrite resize_step_eq in H0.
  assert (G0 : g_resized s0 = false).
  { destruct (g_resized s) eqn:Eg; injection H0 as <- _;
      [reflexivity|exact Eg]. }
  destruct (is_quit ch).
  - inv_ret H. exact G0.
  - minv_as H s1 w1 H1. inv_ret H.
    apply (@run_phases_ind (fun s => g_resized s = false)
             (fun p => forall d, p <> PResize d) (frame_phases ch))
      with (s := s0) (wld := w0) (wld' := wld'); auto.
    + intros p sa wa sb wb Hp Hr Ha.
      destruct (@phase_dims _ _ _ _ _ Hr Hp) as (_ & _ & G). congruence.
    + unfold frame_phases. repeat constructor; intros d; discriminate.
Qed.

Lemma main_loop_not_resized evs : forall s wld s' running wld',
  main_loop evs s wld = Some ((s', running), wld') ->
  no_winch evs -> g_resized s = false -> g_resized s' = false.
Proof.
  induction evs as [|e evs IH]; intros s wld s' rn wld' H Hn Hg;
    cbn [main_loop] in H.
  - inv_ret H. exact Hg.
  - inversion Hn as [|? ? He Hn']; subst. destruct e as [|dims ch];
      [destruct He|].
    minv_as H res w1 Hf. destruct res as [s1 r1].
    pose proof (frame_not_resized _ _ _ _ Hf) as G1.
    destruct r1; [eauto|]. inv_ret H. exact G1.
Qed.

Lemma pace_step_freed s wld s' wld' :
  pace_step s wld = Some (s', wld') -> freed wld' = freed wld.
Proof.
  unfold pace_step. intros H.
  minv_as H now w1 Hn. minv_as H u w2 Hs. minv_as H t w3 Hn2.
  unfold ret in H. injection H as _ <-.
  rewrite now_sec_eq in Hn, Hn2.
  injection Hn as _ <-. injection Hn2 as _ <-.
  cbn [freed reposition].
  destruct (Dbl.lt _ _).
  - rewrite sleep_sec_eq in Hs. injection Hs as _ <-.
    destruct (Dbl.le _ _); reflexivity.
  - unfold ret in Hs. injection Hs as _ <-. reflexivity.
Qed.

Lemma frame_off_pass dims ch s wld s' wld' :
  reachable s wld -> clock_ok wld -> g_resized s = false ->
  thunder s = is_toggle ch ->
  frame dims ch s wld = Some ((s', true), wld') ->
  exists st wt sp wp ws,
    toggle_step ch s wld = Some (st, wt)
    /\ thunder st = false /\ bolts st = bolts s /\ freed wt = freed wld
    /\ pace_step st wt = Some (sp, wp)
    /\ bolts sp = bolts s /\ freed wp = freed wld
    /\ spawn_bolt_step sp wp = Some (sp, wp)
    /\ step_bolts sp wp = Some (set_bolts sp (bolts s'), ws)
    /\ bolts_pass wp (bolts s) (bolts s') ws
    /\ thunder s' = false.
Proof.
  intros Hr Hc Hg Hm H. rewrite frame_eq in H. minv_as H s0 w0 H0.
  cbn [run_phase] in H0. rewrite resize_step_eq, Hg in H0.
  injection H0 as <- <-.
  destruct (is_quit ch); [unfold ret in H; discriminate|].
  minv_as H s1 w1 Hp. inv_ret H.
  unfold frame_phases in Hp. cbn [run_phases] in Hp.
  minv_as Hp st wt Ht. minv_as Hp sp wp Hpc. minv_as Hp s3 w3 Hsb.
  minv_as Hp s4 w4 Hst. minv_as Hp s5 w5 Hsr. minv_as Hp s6 w6 Hrn.
  minv_as Hp s7 w7 Hre. inv_ret Hp.
  pose proof (reach_phase _ Hr Ht) as Rt.
  pose proof (reach_phase _ Rt Hpc) as Rp.
  assert (Cp : clock_ok wp).
  { eapply clock_ok_tapes'; [exact (kt_run_phase _ _ _ Hpc)|].
    eapply clock_ok_tapes'; [exact (kt_run_phase _ _ _ Ht)|exact Hc]. }
  cbn [run_phase] in Ht, Hpc, Hsb, Hst, Hsr, Hrn, Hre.
  assert (Tt : thunder st = false /\ bolts st = bolts s
               /\ freed wt = freed wld).
  { rewrite toggle_step_eq in Ht. destruct (is_toggle ch);
      injection Ht as <- <-; cbn; rewrite ?Hm; auto. }
  destruct Tt as (Tt & Bt & Ft).
  pose proof (pace_step_freed _ _ Hpc) as Fp.
  pose proof Hpc as Hpc'. apply pace_step_bolts in Hpc' as [t Ep].
  assert (Tp : thunder sp = false /\ bolts sp = bolts s).
  { rewrite Ep. cbn. auto. }
  destruct Tp as (Tp & Bp).
  assert (Es : spawn_bolt_step sp wp = Some (sp, wp)).
  { unfold spawn_bolt_step. rewrite Tp. reflexivity. }
  rewrite Es in Hsb. injection Hsb as <- <-.
  destruct (@step_bolts_spec sp wp Cp (reachable_bolt_ok Rp Cp))
    as (bs' & ws & E & Hpass & _).
  rewrite E in Hst. injection Hst as <- <-.
  apply spawn_rain_step_inv in Hsr as [r ->].
  rewrite step_rain_eq in Hrn. injection Hrn as <- _.
  minv_as Hre u w8 Hre'. inv_ret Hre.
  cbn [bolts thunder set_rain set_bolts].
  exists st, wt, (set_last st t), wp, ws.
  rewrite Bp in Hpass. rewrite Fp, Ft. auto 12.
Qed.

(** C8: the key that turns thunderstorm mode off changes nothing but the
    flag (and clears the screen): the store keeps its bolts and nothing
    is freed.  In the frame of that key and in every frame after it, as
    long as no key turns the mode on again and no resize comes, the mode
    is off, the spawn step adds nothing, and the store changes by the
    liveness pass alone: each bolt is updated, it stays while one of its
    segments has not expired at its liveness check, and it leaves the
    store, freed, only when all its segments are older than 0.8 seconds
    there. *)
Theorem C8_thunder_off
    (dims : Z * Z) (ch : Z) (evs : list Event)
    (s : State) (wld : World) (s' : State) (running : bool) (wld' : World) :
  reachable s wld -> clock_ok wld -> g_resized s = false ->
  thunder s = true ->
  is_toggle ch = true ->
  no_toggle evs -> no_winch evs ->
  main_loop (Frame dims ch :: evs) s wld = Some ((s', running), wld') ->
  toggle_step ch s wld = Some (set_thunder s false, add_screen wld [OpClear])
  /\ thunder s' = false
  /\ (forall evs1 dims1 ch1 evs2 s1 w1 s2 w2,
        Frame dims ch :: evs = evs1 ++ Frame dims1 ch1 :: evs2 ->
        main_loop evs1 s wld = Some ((s1, true), w1) ->
        frame dims1 ch1 s1 w1 = Some ((s2, true), w2) ->
        exists st wt sp wp ws,
          toggle_step ch1 s1 w1 = Some (st, wt)
          /\ thunder st = false /\ bolts st = bolts s1
          /\ freed wt = freed w1
          /\ pace_step st wt = Some (sp, wp)
          /\ bolts sp = bolts s1 /\ freed wp = freed w1
          /\ spawn_bolt_step sp wp = Some (sp, wp)
          /\ step_bolts sp wp = Some (set_bolts sp (bolts s2), ws)
          /\ bolts_pass wp (bolts s1) (bolts s2) ws
          /\ thunder s2 = false)
  /\ (forall s0 w, thunder s0 = false -> spawn_bolt_step s0 w = Some (s0, w)).
Proof.
  intros Hr Hc Hg Ht Hch Hn Hw H.
  split; [|split; [|split]].
  - rewrite toggle_step_eq, Hch, Ht. reflexivity.
  - cbn [main_loop] in H. minv_as H res w1 Hf. destruct res as [s1 r1].
    destruct (frame_toggle_off _ _ _ _ Hf Ht Hch) as [Ht1 _].
    destruct r1; [|inv_ret H; exact Ht1].
    eapply main_loop_thunder_off; eauto. apply thinned_refl.
  - intros evs1 dims1 ch1 evs2 s1 w1 s2 w2 E Hrun Hf.
    destruct evs1 as [|e evs1].
    + cbn [app] in E. injection E as <- <- <-. inv_ret Hrun.
      apply frame_off_pass with (dims := dims) (wld' := w2); auto.
      rewrite Ht, Hch. reflexivity.
    + cbn [app] in E. injection E as <- ->.
      apply Forall_app in Hn as [Hn1 Hn2].
      apply Forall_app in Hw as [Hw1 _].
      inversion Hn2 as [|? ? Hc1 _]; subst. cbn in Hc1.
      assert (R1 : reachable s1 w1)
        by (eapply main_loop_reachable; eassumption).
      assert (C1 : clock_ok w1).
      { eapply clock_ok_tapes'; [|exact Hc].
        eapply main_loop_tapes; eassumption. }
      assert (G1 : g_resized s1 = false).
      { eapply main_loop_not_resized; [exact Hrun| |exact Hg].
        constructor; [exact I|exact Hw1]. }
      assert (T1 : thunder s1 = false).
      { cbn [main_loop] in Hrun. minv_as Hrun res wa Hfa.
        destruct res as [sa ra].
        destruct (frame_toggle_off _ _ _ _ Hfa Ht Hch) as [Hta _].
        destruct ra; [|unfold ret in Hrun; discriminate].
        eapply main_loop_thunder_off; eauto. apply thinned_refl. }
      apply frame_off_pass with (dims := dims1) (wld' := w2); auto.
      rewrite T1, Hc1. reflexivity.
  - intros s0 w Hs0. unfold spawn_bolt_step. rewrite Hs0. reflexivity.
Qed.

Lemma calm_clock_ok : forall n, Dbl.is_finite (calm_clock n) = true.
Proof. apply tape_forallb; vm_compute; reflexivity. Qed.

Lemma calm_run_1 :
  main_loop [Frame (5, 40) 116] demo_start calm_world
  = Some ((calm_state_1, true), calm_world_1).
Proof. vm_compute. reflexivity. Qed.

Lemma C8_thunder_off_witness :
  reachable calm_state_1 calm_world_1 /\ clock_ok calm_world_1
  /\ g_resized calm_state_1 = false
  /\ thunder calm_state_1 = true
  /\ is_toggle 116 = true
  /\ no_toggle [Frame (5, 40) (-1)] /\ no_winch [Frame (5, 40) (-1)]
  /\ length (bolts calm_state_1) = 1%nat
  /\ (exists s' running wld',
        main_loop [Frame (5, 40) 116; Frame (5, 40) (-1)]
                  calm_state_1 calm_world_1 = Some ((s', running), wld')
        /\ thunder s' = false
        /\ length (bolts s') = 1%nat)
  /\ (exists s2 w2 wp ws,
        frame (5, 40) 116 calm_state_1 calm_world_1 = Some ((s2, true), w2)
        /\ length (bolts s2) = 1%nat
        /\ bolts_pass wp (bolts calm_state_1) (bolts s2) ws).
Proof.
  assert (H0 : reachable calm_state_1 calm_world_1).
  { eapply main_loop_reachable; [exact calm_run_1|]. apply reach_start. }
  assert (Hc : clock_ok calm_world_1) by exact calm_clock_ok.
  assert (Hg : g_resized calm_state_1 = false) by reflexivity.
  assert (H1 : thunder calm_state_1 = true) by reflexivity.
  assert (H2 : is_toggle 116 = true) by reflexivity.
  assert (H3 : no_toggle [Frame (5, 40) (-1)]).
  { constructor; [reflexivity|constructor]. }
  assert (H4 : no_winch [Frame (5, 40) (-1)]).
  { constructor; [exact I|constructor]. }
  repeat (split; [assumption || reflexivity|]).
  destruct calm_after_off as [[[s' running] wld']|] eqn:E;
    [|vm_compute in E; discriminate].
  assert (Hrun : main_loop [Frame (5, 40) 116; Frame (5, 40) (-1)]
                           calm_state_1 calm_world_1
                 = Some ((s', running), wld')).
  { rewrite <- E. vm_compute. reflexivity. }
  destruct (@C8_thunder_off _ _ _ _ _ _ _ _ H0 Hc Hg H1 H2 H3 H4 Hrun)
    as (_ & Ht & Hpass & _).
  split.
  - exists s', running, wld'. split; [exact Hrun|]. split; [exact Ht|].
    vm_compute in E. injection E as <- _ _. reflexivity.
  - destruct calm_frame_off as [[[s2 r2] w2]|] eqn:Ef;
      [|vm_compute in Ef; discriminate].
    assert (Er : r2 = true)
      by (vm_compute in Ef; injection Ef as _ <- _; reflexivity).
    subst r2.
    assert (Hf : frame (5, 40) 116 calm_state_1 calm_world_1
                 = Some ((s2, true), w2)).
    { rewrite <- Ef. vm_compute. reflexivity. }
    destruct (Hpass [] (5, 40) 116 [Frame (5, 40) (-1)]
                    calm_state_1 calm_world_1 s2 w2 eq_refl eq_refl Hf)
      as (st & wt & sp & wp & ws & _ & _ & _ & _ & _ & _ & _ & _ & _ & Hp & _).
    exists s2, w2, wp, ws. split; [exact Hf|]. split; [|exact Hp].
    vm_compute in Ef. injection Ef as <- _. reflexivity.
Defined.

(** ** How [main] ends *)

Lemma option_loop_eq calls : forall rc lc wld,
  option_loop calls rc lc wld
  = Some (fold_left
            (fun (cur : option string * option string)
                 (o : Z * option string) =>
               let '(rain_color, light_color) := cur in
               let '(c, optarg) := o in
               if c =? 114 then (optarg, light_color)
               else if c =? 108 then (rain_color, optarg)
               else (rain_color, light_color))
            (map getopt_ret calls) (rc, lc),
          add_screen wld (getopt_diags calls)).
Proof.
  induction calls as [|g calls IH]; intros rc lc wld.
  - cbn. unfold ret. rewrite add_screen_nil. reflexivity.
  - cbn [option_loop map fold_left getopt_diags flat_map getopt_ret].
    fold (getopt_diags calls).
    assert (E : (match go_diag g with
                 | Some msg => term (OpStderr msg)
                 | None => ret tt
                 end) wld
                = Some (tt, add_screen wld
                              match go_diag g with
                              | Some msg => [OpStderr msg]
                              | None => []
                              end)).
    { destruct (go_diag g); [reflexivity|].
      unfold ret. rewrite add_screen_nil. reflexivity. }
    mstep E.
    destruct (go_c g =? 114); [|destruct (go_c g =? 108)];
      rewrite IH, add_screen_app; reflexivity.
Qed.

Lemma main_run env calls has_colors dims evs wld :
  rand_ok wld -> roomy dims -> frames_roomy evs ->
  let unusable := stdout_isatty env = false
                  \/ env_TERM env = None
                  \/ env_TERM env = Some "dumb"%string in
  let attrs := fst (startup_colors (map getopt_ret calls) has_colors) in
  exists st wld',
    main env calls has_colors dims evs wld = Some (st, wld')
    /\ (st = Some 1 <-> unusable)
    /\ (unusable ->
        wld' = add_screen wld (getopt_diags calls ++ [OpStderr tty_error]))
    /\ (st = Some 0 <-> ~ unusable /\ Exists quits evs)
    /\ (st = Some 0 ->
        exists s w,
          main_loop evs
            (initial_state dims (fst attrs) (snd attrs)
                           (clock wld (clock_pos wld)))
            (reposition (add_screen wld (getopt_diags calls ++ [OpInitscr]))
                        (S (clock_pos wld)) (rng_pos wld))
          = Some ((s, false), w)
          /\ wld' = add_screen (add_freed w (map segs (bolts s))) [OpEndwin]).
Proof.
  intros Hr Hd He unusable attrs. unfold main.
  mstep (option_loop_eq calls (Some "cyan"%string) (Some "yellow"%string)
                        wld).
  fold (parse_options (map getopt_ret calls)).
  unfold attrs, startup_colors.
  destruct (parse_options (map getopt_ret calls)) as [rc lc].
  set (wd := add_screen wld (getopt_diags calls)).
  destruct (negb (stdout_isatty env)
            || match env_TERM env with
               | None => true
               | Some t => String.eqb t "dumb"
               end) eqn:Eu.
  - assert (U : unusable).
    { unfold unusable. apply orb_prop in Eu as [Eu|Eu].
      - left. destruct (stdout_isatty env); [discriminate|reflexivity].
      - right. destruct (env_TERM env) as [t|]; [|left; reflexivity].
        right. apply String.eqb_eq in Eu. rewrite Eu. reflexivity. }
    exists (Some 1), (add_screen wld (getopt_diags calls
                                      ++ [OpStderr tty_error])).
    split; [unfold wd; rewrite <- add_screen_app; reflexivity|].
    split; [split; auto|]. split; [auto|].
    split; [|discriminate]. split; [discriminate|]. intros [N _]. contradiction.
  - assert (U : ~ unusable).
    { apply orb_false_elim in Eu as [E1 E2]. unfold unusable.
      intros [H|[H|H]].
      - rewrite H in E1. discriminate.
      - rewrite H in E2. discriminate.
      - rewrite H in E2. discriminate. }
    mstep (term_eq OpInitscr wd).
    destruct (setup_colors has_colors rc lc) as [[ra la] cops].
    cbn [fst snd].
    mstep (now_sec_eq (add_screen wd [OpInitscr])).
    unfold wd. rewrite add_screen_app.
    cbn [clock clock_pos rng_pos add_screen].
    set (w0 := reposition _ _ _).
    set (s0 := initial_state dims ra la (clock wld (clock_pos wld))).
    destruct (@main_loop_total evs s0 w0)
      as (s' & rn & w' & E & _ & _ & Hq).
    { exact Hr. }
    { split; [split; [constructor|cbn; lia]|]. intros _.
      destruct dims; exact Hd. }
    { exact He. }
    mstep E. destruct rn.
    + exists None, w'. split; [reflexivity|].
      split; [split; [discriminate|intros; contradiction]|].
      split; [intros; contradiction|].
      split; [|discriminate]. split; [discriminate|].
      intros [_ Q]. apply Hq in Q. discriminate.
    + mstep (free_all_eq (bolts s') w').
      mstep (term_eq OpEndwin (add_freed w' (map segs (bolts s')))).
      eexists _, _. split; [reflexivity|].
      split; [split; [discriminate|intros; contradiction]|].
      split; [intros; contradiction|].
      split; [split; [intros _|reflexivity]|].
      * split; [exact U|]. apply Hq. reflexivity.
      * intros _. exists s', w'. split; [exact E|reflexivity].
Qed.

(** X10: [main] first lets [getopt_long] read the options, which writes
    a diagnostic for each one it does not accept.  On a terminal it
    cannot use (standard output is not a terminal, or [TERM] is unset or
    [dumb]) it then writes its message to the standard error stream and
    returns 1, and does nothing else: no curses call, no reading of the
    clock.  On a usable terminal, with screens of at least one row and
    two columns and a [rand] within its range, it starts curses, with
    the colours of the options, and it returns, with status 0, exactly
    when an iteration reads a quit key; it then frees the segments of
    every bolt left in the store and ends curses, last of all. *)
Theorem main_exit
    (env : Env) (calls : list Getopt) (has_colors : bool) (dims : Z * Z)
    (evs : list Event) (wld : World) :
  rand_ok wld -> roomy dims -> frames_roomy evs ->
  let unusable := stdout_isatty env = false
                  \/ env_TERM env = None
                  \/ env_TERM env = Some "dumb"%string in
  let attrs := fst (startup_colors (map getopt_ret calls) has_colors) in
  exists st wld',
    main env calls has_colors dims evs wld = Some (st, wld')
    /\ (st = Some 1 <-> unusable)
    /\ (unusable ->
        wld' = add_screen wld (getopt_diags calls ++ [OpStderr tty_error]))
    /\ (st = Some 0 <-> ~ unusable /\ Exists quits evs)
    /\ (st = Some 0 ->
        exists s w,
          main_loop evs
            (initial_state dims (fst attrs) (snd attrs)
                           (clock wld (clock_pos wld)))
            (reposition (add_screen wld (getopt_diags calls ++ [OpInitscr]))
                        (S (clock_pos wld)) (rng_pos wld))
          = Some ((s, false), w)
          /\ wld' = add_screen (add_freed w (map segs (bolts s))) [OpEndwin]).
Proof. apply main_run. Qed.

Lemma main_exit_witness :
  rand_ok demo_world /\ roomy (5, 40)
  /\ frames_roomy [Frame (5, 40) 116; Frame (5, 40) 113]
  /\ (exists wld',
        main (mkEnv true (Some "xterm"%string)) demo_calls true (5, 40)
             [Frame (5, 40) 116; Frame (5, 40) 113] demo_world
        = Some (Some 0, wld'))
  /\ main (mkEnv false (Some "xterm"%string)) demo_calls true (5, 40)
          [Frame (5, 40) 116; Frame (5, 40) 113] demo_world
     = Some (Some 1,
             add_screen demo_world
               [OpStderr "invalid option -- 'x'"%string;
                OpStderr tty_error]).
Proof.
  assert (H2 : roomy (5, 40)) by (split; cbn; lia).
  assert (H3 : frames_roomy [Frame (5, 40) 116; Frame (5, 40) 113]).
  { repeat constructor; cbn; lia. }
  split; [exact demo_world_rand_ok|]. split; [exact H2|]. split; [exact H3|].
  split.
  - destruct (@main_exit (mkEnv true (Some "xterm"%string)) demo_calls true
                (5, 40) _ demo_world demo_world_rand_ok H2 H3)
      as (st & wld' & E & _ & _ & [_ Q] & _).
    exists wld'. rewrite E. f_equal. f_equal.
    apply Q. split.
    + intros [H|[H|H]]; discriminate.
    + right. left. reflexivity.
  - destruct (@main_exit (mkEnv false (Some "xterm"%string)) demo_calls true
                (5, 40) _ demo_world demo_world_rand_ok H2 H3)
      as (st & wld' & E & [_ Q1] & Q2 & _).
    rewrite E, Q1, Q2; [reflexivity| |]; left; reflexivity.
Defined.

(** C9: an unusable terminal is not the only fatal condition.  On a
    usable terminal with a screen of one column, once the key [t] has turned
    thunderstorm mode on and the spawn chance fires, the column of the
    new bolt is taken modulo [g_cols / 2 = 0]: the program fails on an
    integer division by zero, inside curses mode.  The same command on a
    terminal it cannot use ends as the specification says: the message
    on the standard error stream, status 1, and nothing else. *)
Theorem C9_one_column_is_fatal :
  main (mkEnv true (Some "xterm"%string)) [] true (5, 1)
       [Frame (5, 1) 116] demo_world
  = None
  /\ main (mkEnv false (Some "xterm"%string)) [] true (5, 1)
          [Frame (5, 1) 116] demo_world
     = Some (Some 1, add_screen demo_world [OpStderr tty_error])
  /\ spawn_bolt_step (mkState 5 1 false [] [] true Dbl.zero 0 0) demo_world
     = None.
Proof.
  split; [vm_compute; reflexivity|].
  split; vm_compute; reflexivity.
Qed.
